(** * Chat history, streaming updates and the live audio handler

    A shallow embedding of the stateful parts of the browser application:
    the chat panel ([ChatBot]: undo/redo history, streaming reducer,
    local-storage persistence, clear, send), the live audio message
    handler ([LiveAgent]: transcript flushing and playback scheduling), the
    text-to-speech panel and the renderer of model messages.

    React state is modelled by explicit state passing: every handler is a
    function from the state it reads to the state it leaves behind, with the
    clock readings ([new Date().toISOString()], [audioCtx.currentTime]) and
    the provider's replies as inputs.  Strings are sequences of UTF-16 code
    units and numbers are binary64 values, as in the language. *)

From Stdlib Require Import QArith.
From Stdlib Require Import Floats.SpecFloat.
From stdpp Require Import gmap strings list fin_maps.
Close Scope Q_scope.

(** A JavaScript string: its UTF-16 code units. *)
Abbreviation str := (list N).

(** ** JavaScript strings *)

Module Js.

(** The string written by a literal of ASCII characters. *)
Definition js (literal : string) : str :=
  Ascii.N_of_ascii <$> String.list_ascii_of_string literal.

(** The code points of the WhiteSpace production: TAB, VT, FF, SP, NBSP,
    the other space separators (category Zs) and ZWNBSP. *)
Definition whiteSpace : list N :=
  [ 9; 11; 12; 32; 160; 5760;
    8192; 8193; 8194; 8195; 8196; 8197; 8198; 8199; 8200; 8201; 8202;
    8239; 8287; 12288; 65279 ]%N.

(** The code points of the LineTerminator production: LF, CR, LS, PS. *)
Definition lineTerminator : list N := [ 10; 13; 8232; 8233 ]%N.

(** What [String.prototype.trim] strips and [\s] matches: white space and
    line terminators. *)
Definition isWhiteSpace (c : N) : bool :=
  bool_decide (c ∈ whiteSpace ++ lineTerminator).

Fixpoint trimStart (s : str) : str :=
  match s with
  | [] => []
  | c :: rest => if isWhiteSpace c then trimStart rest else s
  end.

Fixpoint trimEnd (s : str) : str :=
  match s with
  | [] => []
  | c :: rest =>
      match trimEnd rest with
      | [] => if isWhiteSpace c then [] else [c]
      | kept => c :: kept
      end
  end.

(** [s.trim()] *)
Definition trim (s : str) : str := trimEnd (trimStart s).

(** Truthiness of a string: every string but the empty one. *)
Definition truthy (s : str) : bool :=
  match s with [] => false | _ :: _ => true end.

(** A string made of white space only (the empty string included). *)
Definition blank (s : str) : bool := forallb isWhiteSpace s.

(** The texts concatenated left to right: what repeated [+=] builds. *)
Definition joined (texts : list str) : str := foldr app [] texts.

End Js.

(** ** JavaScript numbers *)

Module Num.

(** A number is a binary64 value; [+] rounds to nearest, ties to even. *)
Definition number : Type := spec_float.
Definition prec : Z := 53.
Definition emax : Z := 1024.

Definition zero : number := S754_zero false.

(** [x + y] *)
Definition add (x y : number) : number := SFadd prec emax x y.

(** [x / y] *)
Definition div (x y : number) : number := SFdiv prec emax x y.

(** [x <= y] *)
Definition leb (x y : number) : bool := SFleb x y.

(** [Math.max(a, b)]: NaN when either is NaN, and +0 is larger than -0. *)
Definition Math_max (a b : number) : number :=
  match a, b with
  | S754_nan, _ | _, S754_nan => S754_nan
  | S754_zero sa, S754_zero sb => S754_zero (sa && sb)
  | _, _ => if SFltb a b then b else a
  end.

(** The number an integer literal stands for. *)
Definition ofZ (z : Z) : number := binary_normalize prec emax z 0 false.

(** A time: a well-formed number that is neither NaN nor negative, as
    [currentTime] and [duration] are. *)
Definition time (x : number) : bool :=
  match x with
  | S754_zero _ => true
  | S754_infinity s => negb s
  | S754_nan => false
  | S754_finite s m e => negb s && bounded prec emax m e
  end.

(** The real number a finite value stands for, as a fraction. *)
Definition exact (x : number) : Q :=
  match x with
  | S754_finite s m e =>
      ((if s then inject_Z (Z.neg m) else inject_Z (Z.pos m)) * Qpower 2 e)%Q
  | _ => 0%Q
  end.

End Num.

(** ** The chat panel *)

Module Chat.

Import Js.

(** [ChatMessage] of types.ts *)
Inductive Role := user | model.
Inductive Status := sent | delivered | read.
Record Part := { text : str }.
Record ChatMessage := {
  role : Role;
  parts : list Part;
  timestamp : str;
  status : option Status
}.

(** The [history] state of the component. *)
Record History := {
  past : list (list ChatMessage);
  present : list ChatMessage;
  future : list (list ChatMessage)
}.

Definition initialHistory : History :=
  {| past := []; present := []; future := [] |}.

Definition modelMessage (body now : str) : ChatMessage :=
  {| role := model; parts := [ {| text := body |} ]; timestamp := now; status := None |}.

Definition greetingText : str := js "Hello! How can I help you today?".
Definition initErrorText : str :=
  js "Error: Could not initialize AI model. Please check your API key.".
Definition sendErrorText : str :=
  js "Sorry, I encountered an error. Please try again.".

(** [setMessages(newMessages, isStreamingUpdate)]: the updater handed to
    [setHistory], applied to the current history. *)
Definition setMessages (newMessages : list ChatMessage) (isStreamingUpdate : bool)
    (current : History) : History :=
  if isStreamingUpdate then
    {| past := past current; present := newMessages; future := future current |}
  else
    {| past := past current ++ [present current];
       present := newMessages;
       future := [] |}.

(** [handleUndo].  The guard reads the rendered history and the updater
    the current one; a handler runs on the committed state, so the two
    coincide.  [current.past[current.past.length - 1]] is a lookup, and
    [slice(0, length - 1)] keeps all but the last entry. *)
Definition handleUndo (history : History) : History :=
  if decide (length (past history) = 0) then history
  else
    match past history !! (length (past history) - 1) with
    | Some previous =>
        {| past := take (length (past history) - 1) (past history);
           present := previous;
           future := present history :: future history |}
    | None => history
    end.

(** [handleRedo]: [current.future[0]] and [current.future.slice(1)]. *)
Definition handleRedo (history : History) : History :=
  if decide (length (future history) = 0) then history
  else
    match future history !! 0 with
    | Some next =>
        {| past := past history ++ [present history];
           present := next;
           future := drop 1 (future history) |}
    | None => history
    end.

(** The updater of the streaming loop: copy [h.present], overwrite its
    last slot with the model message built from the text accumulated so
    far.  On an empty list the index is -1, which is no array index: no
    element is written and the list stays empty. *)
Definition streamUpdate (currentModelMessage now : str) (h : History) : History :=
  let newMessages :=
    match present h with
    | [] => []
    | _ :: _ =>
        <[length (present h) - 1 := modelMessage currentModelMessage now]> (present h)
    end in
  {| past := past h; present := newMessages; future := future h |}.

(** A chunk of the reply stream: [chunk_text] is the string that [+=]
    appends for [chunk.text], [chunk_time] the clock reading taken when the
    chunk's update is built. *)
Record Chunk := { chunk_text : str; chunk_time : str }.

(** One iteration of [for await (const chunk of result)]: the local
    accumulator and the history. *)
Definition receive (acc : str * History) (chunk : Chunk) : str * History :=
  let currentModelMessage := acc.1 ++ chunk_text chunk in
  (currentModelMessage, streamUpdate currentModelMessage (chunk_time chunk) acc.2).

(** The component state that [sendMessage] reads and writes. *)
Record Session := { sessionModel : str }.
Record State := {
  chat : option Session;
  history : History;
  input : str;
  isLoading : bool
}.

(** [!input.trim() || !chat || isLoading] *)
Definition sendBlocked (st : State) : bool :=
  negb (truthy (trim (input st)))
  || match chat st with Some _ => false | None => true end
  || isLoading st.

Definition userMessage (st : State) (now : str) : ChatMessage :=
  {| role := user; parts := [ {| text := input st |} ]; timestamp := now;
     status := Some sent |}.

(** The synchronous prefix of [sendMessage], up to [setIsLoading(true)].
    [messages] is the [history.present] of the render the handler closes
    over. *)
Definition beginSend (st : State) (now : str) : State :=
  let messages := present (history st) in
  {| chat := chat st;
     history := setMessages (messages ++ [userMessage st now]) false (history st);
     input := [];
     isLoading := true |}.

(** The placeholder pushed once the stream is open (a streaming update). *)
Definition openStream (st : State) (sentAt openedAt : str) (h : History) : History :=
  let messages := present (history st) in
  setMessages (messages ++ [userMessage st sentAt; modelMessage [] openedAt]) true h.

(** Accumulator and history after the chunks received so far. *)
Definition streamed (st : State) (sentAt openedAt : str) (chunks : list Chunk)
    : str * History :=
  foldl receive
    ([], openStream st sentAt openedAt (history (beginSend st sentAt)))
    chunks.

(** The [catch] branch. *)
Definition failSend (st : State) (sentAt failedAt : str) (h : History) : History :=
  let messages := present (history st) in
  setMessages (messages ++ [userMessage st sentAt; modelMessage sendErrorText failedAt])
    false h.

(** What the provider does with the request: [sendMessageStream] rejects,
    or it yields chunks and then either ends or throws. *)
Inductive Reply :=
| Rejected (failedAt : str)
| Stream (openedAt : str) (chunks : list Chunk) (failedAt : option str).

(** [sendMessage], run to completion: the final state and the messages
    sent to the provider. *)
Definition sendMessage (st : State) (sentAt : str) (reply : Reply)
    : State * list str :=
  if sendBlocked st then (st, [])
  else
    let started := beginSend st sentAt in
    let final :=
      match reply with
      | Rejected failedAt => failSend st sentAt failedAt (history started)
      | Stream openedAt chunks failure =>
          let h := (streamed st sentAt openedAt chunks).2 in
          match failure with
          | Some failedAt => failSend st sentAt failedAt h
          | None => h
          end
      end in
    ({| chat := chat started; history := final; input := input started;
        isLoading := false |},
     [input st]).

(** The histories after each chunk, in order. *)
Fixpoint received (acc : str * History) (chunks : list Chunk) : list History :=
  match chunks with
  | [] => []
  | chunk :: rest => (receive acc chunk).2 :: received (receive acc chunk) rest
  end.

(** Every value that one run of [sendMessage] gives to [history], in the
    order of its [setHistory] calls. *)
Definition sendUpdates (st : State) (sentAt : str) (reply : Reply) : list History :=
  if sendBlocked st then []
  else
    let started := history (beginSend st sentAt) in
    match reply with
    | Rejected failedAt => [started; failSend st sentAt failedAt started]
    | Stream openedAt chunks failure =>
        let opened := openStream st sentAt openedAt started in
        [started; opened]
        ++ received ([], opened) chunks
        ++ match failure with
           | Some failedAt =>
               [failSend st sentAt failedAt (streamed st sentAt openedAt chunks).2]
           | None => []
           end
    end.

(** *** Local storage *)

Definition storageKey : str := js "gemini-chat-history".

Section Persistence.

(** [JSON.stringify] and [JSON.parse] on message lists; [None] stands for
    a [SyntaxError]. *)
Variable JSON_stringify : list ChatMessage → str.
Variable JSON_parse : str → option (list ChatMessage).

(** The effect that runs after every render in which [messages] changed. *)
Definition persistEffect (messages : list ChatMessage)
    (localStorage : gmap str str) : gmap str str :=
  if decide (1 < length messages)
  then <[storageKey := JSON_stringify messages]> localStorage
  else localStorage.

(** The mount effect: [created] is [None] when building the client or
    the chat throws.  [setChat] has already run when [JSON.parse]
    throws. *)
Definition initEffect (created : option Session) (now : str)
    (localStorage : gmap str str) : option Session * History :=
  let failed :=
    {| past := []; present := [modelMessage initErrorText now]; future := [] |} in
  match created with
  | None => (None, failed)
  | Some newChat =>
      match localStorage !! storageKey with
      | Some savedHistory =>
          if truthy savedHistory then
            match JSON_parse savedHistory with
            | Some saved =>
                (Some newChat, {| past := []; present := saved; future := [] |})
            | None => (Some newChat, failed)
            end
          else
            (Some newChat,
             {| past := []; present := [modelMessage greetingText now]; future := [] |})
      | None =>
          (Some newChat,
           {| past := []; present := [modelMessage greetingText now]; future := [] |})
      end
  end.

End Persistence.

(** [handleClear]: [confirmed] is the answer of [window.confirm]. *)
Definition handleClear (confirmed : bool) (now : str)
    (st : History * gmap str str) : History * gmap str str :=
  if confirmed then
    ({| past := []; present := [modelMessage greetingText now]; future := [] |},
     delete storageKey st.2)
  else st.

(** The updates of the history, as one type. *)
Inductive Update :=
| SetMessages (newMessages : list ChatMessage) (isStreamingUpdate : bool)
| UndoClick
| RedoClick
| StreamChunk (currentModelMessage now : str).

Definition apply (u : Update) (h : History) : History :=
  match u with
  | SetMessages newMessages isStreamingUpdate => setMessages newMessages isStreamingUpdate h
  | UndoClick => handleUndo h
  | RedoClick => handleRedo h
  | StreamChunk currentModelMessage now => streamUpdate currentModelMessage now h
  end.


(** Every entry of a sequence is related to its successor. *)
Definition chained {A} (R : A → A → Prop) (l : list A) : Prop :=
  ∀ i x y, l !! i = Some x → l !! S i = Some y → R x y.

(** *** The panel as a whole *)

(** What the user does with the panel.  [Submit] is typing a text and
    sending it, with the clock reading of the send and what the provider
    does with the request. *)
Inductive Action :=
| ClickUndo
| ClickRedo
| ClickClear (confirmed : bool) (now : str)
| Submit (typed : str) (sentAt : str) (reply : Reply).

(** [setInput(e.target.value)] *)
Definition typing (typed : str) (st : State) : State :=
  {| chat := chat st; history := history st; input := typed; isLoading := isLoading st |}.

Definition withHistory (h : History) (st : State) : State :=
  {| chat := chat st; history := h; input := input st; isLoading := isLoading st |}.

Section Panel.

Variable JSON_stringify : list ChatMessage → str.
Variable JSON_parse : str → option (list ChatMessage).

(** The first render shows the empty list, on which the persistence
    effect writes nothing; the mount effect then installs a list, and the
    persistence effect runs on it. *)
Definition mount (created : option Session) (now : str) (localStorage : gmap str str)
    : State * gmap str str :=
  let booted := initEffect JSON_parse created now localStorage in
  ({| chat := booted.1; history := booted.2; input := []; isLoading := false |},
   persistEffect JSON_stringify (present booted.2) localStorage).

(** Every value an action gives to [history], in order.  Undo and redo
    return before [setHistory] when their stack is empty; the clear button
    is disabled while at most one message is shown, and a clear that is
    not confirmed sets nothing.  A send runs to its end before the next
    action. *)
Definition updates (p : State * gmap str str) (a : Action) : list History :=
  match a with
  | ClickUndo =>
      if decide (length (past (history p.1)) = 0) then []
      else [handleUndo (history p.1)]
  | ClickRedo =>
      if decide (length (future (history p.1)) = 0) then []
      else [handleRedo (history p.1)]
  | ClickClear confirmed now =>
      if decide (length (present (history p.1)) ≤ 1) then []
      else if confirmed then [(handleClear true now (history p.1, p.2)).1]
      else []
  | Submit typed sentAt reply => sendUpdates (typing typed p.1) sentAt reply
  end.

(** The panel after an action: the persistence effect runs on every list
    the action installs (when a render batches several updates it runs on
    the last of them, which is also the last to be written here). *)
Definition act (p : State * gmap str str) (a : Action) : State * gmap str str :=
  let saved (localStorage : gmap str str) :=
    foldl (λ storage h, persistEffect JSON_stringify (present h) storage)
      localStorage (updates p a) in
  match a with
  | ClickUndo =>
      if decide (length (past (history p.1)) = 0) then p
      else (withHistory (handleUndo (history p.1)) p.1, saved p.2)
  | ClickRedo =>
      if decide (length (future (history p.1)) = 0) then p
      else (withHistory (handleRedo (history p.1)) p.1, saved p.2)
  | ClickClear confirmed now =>
      if decide (length (present (history p.1)) ≤ 1) then p
      else
        let cleared := handleClear confirmed now (history p.1, p.2) in
        (withHistory cleared.1 p.1, saved cleared.2)
  | Submit typed sentAt reply =>
      ((sendMessage (typing typed p.1) sentAt reply).1, saved p.2)
  end.

Definition session (p : State * gmap str str) (actions : list Action)
    : State * gmap str str :=
  foldl act p actions.



End Panel.


End Chat.

(** ** The live audio session *)

Module Live.

Import Js Num.

Inductive Speaker := user | model.
Record Entry := { speaker : Speaker; text : str }.

(** The fields of [LiveServerMessage] that the handler reads. *)
Record Transcription := { transcribed : str }.
Record InlineData := { data : str }.
Record Part := { inlineData : option InlineData }.
Record Content := { parts : list Part }.
Record ServerContent := {
  outputTranscription : option Transcription;
  inputTranscription : option Transcription;
  turnComplete : bool;
  interrupted : bool;
  modelTurn : option Content
}.
Record LiveServerMessage := { serverContent : option ServerContent }.

(** A buffer source node after [source.start(startAt)], with the duration
    of its buffer, in seconds.  [node] stands for the identity of the
    object: the number of nodes the component had created before it. *)
Record Source := { node : nat; startAt : number; duration : number }.

(** The cursor after the node is started: [startAt + duration], rounded. *)
Definition endAt (s : Source) : number := add (startAt s) (duration s).

Record AudioContext := { sampleRate : Z }.

(** The React state and the refs that [onmessage] touches; [created]
    counts the source nodes created so far. *)
Record LiveState := {
  transcripts : list Entry;
  currentInputTranscription : str;
  currentOutputTranscription : str;
  nextStartTime : number;
  playingSources : list Source;
  created : nat;
  outputAudioContext : option AudioContext
}.

(** [message.serverContent?.f], as a truth value. *)
Definition flag (f : ServerContent → bool) (message : LiveServerMessage) : bool :=
  match serverContent message with
  | Some content => f content
  | None => false
  end.

(** The first [if]/[else if]: an output transcription wins over an input
    transcription carried by the same message. *)
Definition accumulate (st : LiveState) (message : LiveServerMessage) : LiveState :=
  match serverContent message with
  | Some content =>
      match outputTranscription content, inputTranscription content with
      | Some t, _ =>
          {| transcripts := transcripts st;
             currentInputTranscription := currentInputTranscription st;
             currentOutputTranscription :=
               currentOutputTranscription st ++ transcribed t;
             nextStartTime := nextStartTime st;
             playingSources := playingSources st;
             created := created st;
             outputAudioContext := outputAudioContext st |}
      | None, Some t =>
          {| transcripts := transcripts st;
             currentInputTranscription :=
               currentInputTranscription st ++ transcribed t;
             currentOutputTranscription := currentOutputTranscription st;
             nextStartTime := nextStartTime st;
             playingSources := playingSources st;
             created := created st;
             outputAudioContext := outputAudioContext st |}
      | None, None => st
      end
  | None => st
  end.

(** [if (t) setTranscripts(prev => [...prev, { speaker, text: t }])] *)
Definition pushEntry (who : Speaker) (t : str) (prev : list Entry) : list Entry :=
  if truthy t then prev ++ [ {| speaker := who; text := t |} ] else prev.

(** The [turnComplete] block. *)
Definition flushTurn (st : LiveState) (message : LiveServerMessage) : LiveState :=
  if flag turnComplete message then
    let userText := trim (currentInputTranscription st) in
    let modelText := trim (currentOutputTranscription st) in
    {| transcripts := pushEntry model modelText (pushEntry user userText (transcripts st));
       currentInputTranscription := [];
       currentOutputTranscription := [];
       nextStartTime := nextStartTime st;
       playingSources := playingSources st;
       created := created st;
       outputAudioContext := outputAudioContext st |}
  else st.

(** The [interrupted] block: every playing source is stopped and dropped,
    and the cursor goes back to 0. *)
Definition stopPlayback (st : LiveState) (message : LiveServerMessage) : LiveState :=
  if flag interrupted message then
    {| transcripts := transcripts st;
       currentInputTranscription := currentInputTranscription st;
       currentOutputTranscription := currentOutputTranscription st;
       nextStartTime := zero;
       playingSources := [];
       created := created st;
       outputAudioContext := outputAudioContext st |}
  else st.

(** [message.serverContent?.modelTurn?.parts[0]?.inlineData?.data] *)
Definition base64Audio (message : LiveServerMessage) : option str :=
  content ← serverContent message;
  turn ← modelTurn content;
  part ← parts turn !! 0;
  inline ← inlineData part;
  Some (data inline).

(** The playback block before its [await]: the cursor catches up with the
    clock of the output context. *)
Definition catchUp (st : LiveState) (currentTime : number) : LiveState :=
  {| transcripts := transcripts st;
     currentInputTranscription := currentInputTranscription st;
     currentOutputTranscription := currentOutputTranscription st;
     nextStartTime := Math_max (nextStartTime st) currentTime;
     playingSources := playingSources st;
     created := created st;
     outputAudioContext := outputAudioContext st |}.

(** The playback block after its [await]: a new node is started at the
    cursor with the decoded buffer, the cursor moves on by the duration of
    the buffer, and the node joins the playing set.  The second component
    is the call to [source.start]. *)
Definition startSource (st : LiveState) (bufferDuration : number)
    : LiveState * list Source :=
  let source :=
    {| node := created st; startAt := nextStartTime st; duration := bufferDuration |} in
  ({| transcripts := transcripts st;
      currentInputTranscription := currentInputTranscription st;
      currentOutputTranscription := currentOutputTranscription st;
      nextStartTime := add (nextStartTime st) bufferDuration;
      playingSources := playingSources st ++ [source];
      created := S (created st);
      outputAudioContext := outputAudioContext st |},
   [source]).

(** The listener that [startSource] registers for the 'ended' event of
    its node: [playingSourcesRef.current.delete(source)]. *)
Definition ended (source : Source) (st : LiveState) : LiveState :=
  {| transcripts := transcripts st;
     currentInputTranscription := currentInputTranscription st;
     currentOutputTranscription := currentOutputTranscription st;
     nextStartTime := nextStartTime st;
     playingSources :=
       filter (λ playing, node playing ≠ node source) (playingSources st);
     created := created st;
     outputAudioContext := outputAudioContext st |}.

Section Playback.

(** [decodeAudioData(decode(base64Audio), audioCtx, 24000, 1).duration]:
    the helpers live in utils/media, outside the sources at hand, so the
    duration of the decoded buffer is a parameter; [None] when decoding
    throws, which ends the handler at its [await]. *)
Variable decodeAudioData : str → option number.

(** The playback block as one step: the decoder's promise settles before
    the next message is delivered. *)
Definition schedule (st : LiveState) (currentTime : number) (message : LiveServerMessage)
    : LiveState * list Source :=
  match base64Audio message, outputAudioContext st with
  | Some audio, Some audioCtx =>
      if truthy audio then
        match decodeAudioData audio with
        | Some bufferDuration => startSource (catchUp st currentTime) bufferDuration
        | None => (catchUp st currentTime, [])
        end
      else (st, [])
  | _, _ => (st, [])
  end.

(** [onmessage], with the reading of [audioCtx.currentTime] as input. *)
Definition onmessage (st : LiveState) (currentTime : number) (message : LiveServerMessage)
    : LiveState * list Source :=
  schedule (stopPlayback (flushTurn (accumulate st message) message) message)
    currentTime message.

(** A session: the messages in arrival order, each with the clock
    reading of its handler; the sources started, in order. *)
Fixpoint run (st : LiveState) (events : list (number * LiveServerMessage))
    : LiveState * list Source :=
  match events with
  | [] => (st, [])
  | (currentTime, message) :: rest =>
      let step := onmessage st currentTime message in
      let tail := run step.1 rest in
      (tail.1, step.2 ++ tail.2)
  end.

(** The audio frames of a session: clock reading and decoded duration of
    every message that carries audio data. *)
Definition frames (events : list (number * LiveServerMessage))
    : list (number * option number) :=
  omap (λ event : number * LiveServerMessage,
          match base64Audio event.2 with
          | Some audio =>
              if truthy audio then Some (event.1, decodeAudioData audio) else None
          | None => None
          end) events.



End Playback.


(** The two halves of the playback block as separate steps, for handlers
    whose decoding overlaps: a frame arrives, or a decoded frame is
    started. *)
Inductive Phase :=
| Arrived (currentTime : number)
| Decoded (bufferDuration : number).

Fixpoint interleaved (st : LiveState) (phases : list Phase) : LiveState * list Source :=
  match phases with
  | [] => (st, [])
  | Arrived currentTime :: rest => interleaved (catchUp st currentTime) rest
  | Decoded bufferDuration :: rest =>
      let step := startSource st bufferDuration in
      let tail := interleaved step.1 rest in
      (tail.1, step.2 ++ tail.2)
  end.

(** Back-to-back playback, as a plan: the cursor catches up with the clock
    of every frame, and each decoded buffer starts at the cursor and moves
    it to its end. *)
Fixpoint plan (cursor : number) (next : nat) (fs : list (number * option number))
    : list Source :=
  match fs with
  | [] => []
  | (currentTime, None) :: rest => plan (Math_max cursor currentTime) next rest
  | (currentTime, Some d) :: rest =>
      let source :=
        {| node := next; startAt := Math_max cursor currentTime; duration := d |} in
      source :: plan (endAt source) (S next) rest
  end.

(** End of the buffer scheduled before the [k]-th one; the cursor the
    session started from when there is none. *)
Definition previousEnd (cursor : number) (calls : list Source) (k : nat) : number :=
  match k with
  | 0 => cursor
  | S j => match calls !! j with Some p => endAt p | None => cursor end
  end.

End Live.

(** ** Concrete data for the examples *)

Module Sample.

Import Js Chat.

Definition greeting : ChatMessage :=
  modelMessage greetingText (js "2025-03-01T09:00:00.000Z").

Definition question : ChatMessage :=
  {| role := user; parts := [ {| text := js "What is an undo stack?" |} ];
     timestamp := js "2025-03-01T09:00:05.000Z"; status := Some sent |}.

Definition answer : ChatMessage :=
  modelMessage (js "Two stacks around the present.") (js "2025-03-01T09:00:07.000Z").

(** One exchange made: the greeting is in the past. *)
Definition answered : History :=
  {| past := [[greeting]]; present := [greeting; question; answer]; future := [] |}.

(** The same after one undo. *)
Definition undone : History :=
  {| past := []; present := [greeting]; future := [[greeting; question; answer]] |}.



Definition session : Session := {| sessionModel := js "gemini-2.5-flash" |}.

(** NO-BREAK SPACE, IDEOGRAPHIC SPACE and LINE SEPARATOR. *)
Definition nbsp : str := [160%N].
Definition ideographicSpace : str := [12288%N].
Definition lineSeparator : str := [8232%N].

(** An input box holding white space only: a space, a no-break space and
    a tab. *)
Definition idle : State :=
  {| chat := Some session; history := undone;
     input := js " " ++ nbsp ++ [9%N]; isLoading := false |}.

(** [JSON.stringify] on message lists whose texts hold no lone
    surrogate. *)
Definition quote : str := [34%N].
Definition backslash : str := [92%N].

Definition hexDigit (n : N) : str :=
  match js "0123456789abcdef" !! N.to_nat n with
  | Some c => [c]
  | None => js "0"
  end.

Definition escaped (c : N) : str :=
  if (c =? 34)%N then backslash ++ quote
  else if (c =? 92)%N then backslash ++ backslash
  else if (c =? 8)%N then backslash ++ js "b"
  else if (c =? 9)%N then backslash ++ js "t"
  else if (c =? 10)%N then backslash ++ js "n"
  else if (c =? 12)%N then backslash ++ js "f"
  else if (c =? 13)%N then backslash ++ js "r"
  else if (c <? 32)%N then
    backslash ++ js "u00" ++ hexDigit (c / 16) ++ hexDigit (c mod 16)
  else [c].

Definition jsonString (s : str) : str := quote ++ mjoin (escaped <$> s) ++ quote.

Fixpoint commaSeparated (items : list str) : str :=
  match items with
  | [] => []
  | [item] => item
  | item :: rest => item ++ js "," ++ commaSeparated rest
  end.

Definition jsonArray (items : list str) : str :=
  js "[" ++ commaSeparated items ++ js "]".

Definition jsonField (key : string) (value : str) : str :=
  jsonString (js key) ++ js ":" ++ value.

Definition jsonPart (p : Part) : str :=
  js "{" ++ jsonField "text" (jsonString (text p)) ++ js "}".

Definition roleName (r : Role) : str :=
  match r with user => js "user" | model => js "model" end.

Definition statusName (s : Status) : str :=
  match s with sent => js "sent" | delivered => js "delivered" | read => js "read" end.

Definition jsonMessage (m : ChatMessage) : str :=
  js "{" ++ commaSeparated
            ([ jsonField "role" (jsonString (roleName (role m)));
               jsonField "parts" (jsonArray (jsonPart <$> parts m));
               jsonField "timestamp" (jsonString (timestamp m)) ]
             ++ match status m with
                | Some s => [ jsonField "status" (jsonString (statusName s)) ]
                | None => []
                end)
      ++ js "}".

Definition stringify (messages : list ChatMessage) : str :=
  jsonArray (jsonMessage <$> messages).

(** [JSON.parse], on the one document the examples store. *)
Definition parse (document : str) : option (list ChatMessage) :=
  if decide (document = stringify (present answered)) then Some (present answered)
  else None.

Definition saved : gmap str str :=
  {[ storageKey := stringify (present answered) ]}.

(** Live messages. *)
Definition heard (t : str) : Live.LiveServerMessage :=
  {| Live.serverContent := Some
       {| Live.outputTranscription := None;
          Live.inputTranscription := Some {| Live.transcribed := t |};
          Live.turnComplete := false; Live.interrupted := false;
          Live.modelTurn := None |} |}.

Definition said (t : str) : Live.LiveServerMessage :=
  {| Live.serverContent := Some
       {| Live.outputTranscription := Some {| Live.transcribed := t |};
          Live.inputTranscription := None;
          Live.turnComplete := false; Live.interrupted := false;
          Live.modelTurn := None |} |}.

(** A message that ends the turn and still carries a transcription of
    each kind. *)
Definition turnEndsWith (heardText saidText : str) : Live.LiveServerMessage :=
  {| Live.serverContent := Some
       {| Live.outputTranscription := Some {| Live.transcribed := saidText |};
          Live.inputTranscription := Some {| Live.transcribed := heardText |};
          Live.turnComplete := true; Live.interrupted := false;
          Live.modelTurn := None |} |}.

Definition turnEnds : Live.LiveServerMessage :=
  {| Live.serverContent := Some
       {| Live.outputTranscription := None; Live.inputTranscription := None;
          Live.turnComplete := true; Live.interrupted := false;
          Live.modelTurn := None |} |}.

Definition audio (base64 : str) : Live.LiveServerMessage :=
  {| Live.serverContent := Some
       {| Live.outputTranscription := None; Live.inputTranscription := None;
          Live.turnComplete := false; Live.interrupted := false;
          Live.modelTurn := Some
            {| Live.parts := [ {| Live.inlineData := Some {| Live.data := base64 |} |} ] |}
       |} |}.

(** The number that [n / d] evaluates to. *)
Definition seconds (n d : Z) : Num.number := Num.div (Num.ofZ n) (Num.ofZ d).

(** 16-bit mono PCM at 24 kHz: 64000 base64 characters make one second. *)
Definition pcmDuration (base64 : str) : option Num.number :=
  Some (seconds (Z.of_nat (length base64)) 64000).

(** A clip of 6 samples and one of 3 samples. *)
Definition clip6 : str := js "AAAAAAAAAAAAAAAA".
Definition clip3 : str := js "AAAAAAAA".

(** A session in mid-turn: the input heard so far ends with an
    ideographic space, the output said so far with a no-break space. *)
Definition listening : Live.LiveState :=
  {| Live.transcripts := [ {| Live.speaker := Live.user; Live.text := js "Hello" |} ];
     Live.currentInputTranscription := js "  How are" ++ ideographicSpace;
     Live.currentOutputTranscription := js "Fine, thanks." ++ nbsp;
     Live.nextStartTime := Num.zero;
     Live.playingSources := [];
     Live.created := 0;
     Live.outputAudioContext := Some {| Live.sampleRate := 24000%Z |} |}.

(** Three frames with a transcription in between: the second frame arrives
    after the first has finished playing, the third while the second is
    still queued. *)
Definition playback : list (Num.number * Live.LiveServerMessage) :=
  [ (seconds 1 2, audio clip6);
    (seconds 1 2, said (js "Fine"));
    (seconds 3 5, audio clip3);
    (seconds 3 5, audio clip3) ].

(** Two frames that arrive at the same clock reading. *)
Definition burst : list (Num.number * Live.LiveServerMessage) :=
  [ (seconds 1 2, audio clip6); (seconds 1 2, audio clip3) ].

End Sample.

(** ** What the chat panel shows and copies *)

Module View.

Import Js Chat.

(** The history as one sequence of message lists, oldest first. *)
Definition timeline (h : History) : list (list ChatMessage) :=
  past h ++ present h :: future h.

(** No list of the history is empty. *)
Definition populated (h : History) : Prop :=
  present h ≠ []
  ∧ Forall (λ messages : list ChatMessage, messages ≠ []) (past h)
  ∧ Forall (λ messages : list ChatMessage, messages ≠ []) (future h).

(** The [disabled] attributes of the toolbar buttons. *)
Definition undoDisabled (h : History) : bool := bool_decide (length (past h) = 0).
Definition redoDisabled (h : History) : bool := bool_decide (length (future h) = 0).
Definition shareDisabled (h : History) : bool := bool_decide (length (present h) = 0).
Definition clearDisabled (h : History) : bool := bool_decide (length (present h) ≤ 1).
Definition sendDisabled (st : State) : bool :=
  isLoading st || negb (truthy (trim (input st))).

(** [isLoading && messages[messages.length - 1].role === 'user']: whether
    the three pulsing dots are rendered.  [None] is the [TypeError] of
    reading [role] off [undefined], when the list is empty. *)
Definition typingIndicator (st : State) : option bool :=
  if isLoading st then
    match present (history st) !! (length (present (history st)) - 1),
          present (history st) with
    | Some lastMessage, _ :: _ =>
        Some (match role lastMessage with user => true | model => false end)
    | _, _ => None
    end
  else Some false.

(** [c.toUpperCase()] on the letters a to z. *)
Definition toUpperCase (c : N) : N :=
  if ((97 <=? c) && (c <=? 122))%N then (c - 32)%N else c.

(** [s.charAt(0).toUpperCase() + s.slice(1)], for a string that starts
    with one of these letters or is empty. *)
Definition capitalized (s : str) : str :=
  match s with
  | [] => []
  | c :: rest => toUpperCase c :: rest
  end.

(** The string behind a [role]. *)
Definition roleString (r : Role) : str :=
  match r with user => js "user" | model => js "model" end.

(** [items.join('\n')] *)
Definition newline : str := [10%N].

Fixpoint joinLines (items : list str) : str :=
  match items with
  | [] => []
  | [item] => item
  | item :: rest => item ++ newline ++ joinLines rest
  end.

Section Share.

(** [formatTimestamp]: the locale's rendering of the time of day. *)
Variable formatTimestamp : str → str.

(** The callback of [messages.map] in [handleShare]; [None] is the
    [TypeError] of [msg.parts[0].text] on a message without parts. *)
Definition shareLine (msg : ChatMessage) : option str :=
  match parts msg !! 0 with
  | Some part =>
      Some (js "[" ++ formatTimestamp (timestamp msg) ++ js "] "
            ++ capitalized (roleString (role msg)) ++ js ": " ++ text part)
  | None => None
  end.

(** What [handleShare] does with the clipboard. *)
Inductive Shared :=
| NothingToShare
| ShareThrew
| Copied (formattedConversation : str).

Definition handleShare (messages : list ChatMessage) : Shared :=
  if decide (length messages = 0) then NothingToShare
  else
    match mapM shareLine messages with
    | Some lines => Copied (joinLines lines)
    | None => ShareThrew
    end.

End Share.

End View.

(** ** The live session around its message handler *)

Module Recorder.

Import Js Num Live.

(** What one message adds to the input accumulator: its input
    transcription, unless it also carries an output transcription. *)
Definition heard (message : LiveServerMessage) : str :=
  match serverContent message with
  | Some content =>
      match outputTranscription content, inputTranscription content with
      | None, Some t => transcribed t
      | _, _ => []
      end
  | None => []
  end.

(** What one message adds to the output accumulator. *)
Definition said (message : LiveServerMessage) : str :=
  match serverContent message with
  | Some content =>
      match outputTranscription content with
      | Some t => transcribed t
      | None => []
      end
  | None => []
  end.

(** The transcript entry of one speaker at a turn boundary, if any. *)
Definition entryOf (who : Speaker) (accumulated : str) : list Entry :=
  if decide (trim accumulated = []) then []
  else [ {| speaker := who; text := trim accumulated |} ].

(** The component: React state, the refs of the capture side (set or
    [null]), and the part the message handler works on. *)
Record Recorder := {
  isRecording : bool;
  status : str;
  sessionPromise : bool;
  mediaStream : bool;
  inputAudioContext : bool;
  scriptProcessor : bool;
  live : LiveState
}.

(** [stopRecording]: every ref is released and set to [null], the playing
    sources are stopped and dropped, the cursor goes back to 0.  Of the two
    [setStatus] calls the last one stands. *)
Definition stopRecording (r : Recorder) : Recorder :=
  {| isRecording := false;
     status := js "Idle";
     sessionPromise := false;
     mediaStream := false;
     inputAudioContext := false;
     scriptProcessor := false;
     live :=
       {| transcripts := transcripts (live r);
          currentInputTranscription := currentInputTranscription (live r);
          currentOutputTranscription := currentOutputTranscription (live r);
          nextStartTime := zero;
          playingSources := [];
          created := created (live r);
          outputAudioContext := None |} |}.

(** The callbacks handed to [ai.live.connect] close over the [isRecording]
    of the render in which [startRecording] ran. *)
Record Callbacks := { closedOver : bool }.

(** [startRecording], up to the return of [ai.live.connect]; [succeeded] is
    false when the [try] block throws.  In the [catch] branch the status
    'Error' is set before [stopRecording] runs. *)
Definition startRecording (r : Recorder) (succeeded : bool)
    : Recorder * option Callbacks :=
  if isRecording r then (r, None)
  else
    let cleared (context : option AudioContext) :=
      {| transcripts := [];
         currentInputTranscription := [];
         currentOutputTranscription := [];
         nextStartTime := nextStartTime (live r);
         playingSources := playingSources (live r);
         created := created (live r);
         outputAudioContext := context |} in
    if succeeded then
      ({| isRecording := true;
          status := js "Initializing...";
          sessionPromise := true;
          mediaStream := mediaStream r;
          inputAudioContext := inputAudioContext r;
          scriptProcessor := scriptProcessor r;
          live := cleared (Some {| sampleRate := 24000%Z |}) |},
       Some {| closedOver := isRecording r |})
    else
      (stopRecording
         {| isRecording := true;
            status := js "Error";
            sessionPromise := sessionPromise r;
            mediaStream := mediaStream r;
            inputAudioContext := inputAudioContext r;
            scriptProcessor := scriptProcessor r;
            live := cleared (outputAudioContext (live r)) |},
       None).

Definition withStatus (s : str) (r : Recorder) : Recorder :=
  {| isRecording := isRecording r;
     status := s;
     sessionPromise := sessionPromise r;
     mediaStream := mediaStream r;
     inputAudioContext := inputAudioContext r;
     scriptProcessor := scriptProcessor r;
     live := live r |}.

Definition withLive (st : LiveState) (r : Recorder) : Recorder :=
  {| isRecording := isRecording r;
     status := status r;
     sessionPromise := sessionPromise r;
     mediaStream := mediaStream r;
     inputAudioContext := inputAudioContext r;
     scriptProcessor := scriptProcessor r;
     live := st |}.

(** [onclose]: [if (isRecording) stopRecording(); setStatus('Connection closed')] *)
Definition onclose (callbacks : Callbacks) (r : Recorder) : Recorder :=
  withStatus (js "Connection closed")
    (if closedOver callbacks then stopRecording r else r).

(** [onerror]: [setStatus('Error'); if (isRecording) stopRecording()] *)
Definition onerror (callbacks : Callbacks) (r : Recorder) : Recorder :=
  if closedOver callbacks then stopRecording (withStatus (js "Error") r)
  else withStatus (js "Error") r.

(** [onopen]: the status is set, then the microphone is awaited; only when
    it is [granted] are the capture refs set. *)
Definition onopen (granted : bool) (r : Recorder) : Recorder :=
  if granted then
    {| isRecording := isRecording r;
       status := js "Connected, listening...";
       sessionPromise := sessionPromise r;
       mediaStream := true;
       inputAudioContext := true;
       scriptProcessor := true;
       live := live r |}
  else withStatus (js "Connected, listening...") r.

(** The component before any click. *)
Definition initial : Recorder :=
  {| isRecording := false;
     status := js "Idle";
     sessionPromise := false;
     mediaStream := false;
     inputAudioContext := false;
     scriptProcessor := false;
     live :=
       {| transcripts := [];
          currentInputTranscription := [];
          currentOutputTranscription := [];
          nextStartTime := zero;
          playingSources := [];
          created := 0;
          outputAudioContext := None |} |}.

Section Session.

Variable decodeAudioData : str → option number.

(** What can happen to the component: a click on the button (which calls
    [startRecording] or [stopRecording] by the [isRecording] it renders),
    the callbacks of the session started last, and the 'ended' event of a
    source node. *)
Inductive Event :=
| Clicked (succeeded : bool)
| Opened (granted : bool)
| Message (currentTime : number) (message : LiveServerMessage)
| Closed
| Errored
| Finished (source : Source).

(** The component together with the callbacks of the session started last. *)
Definition step (s : Recorder * option Callbacks) (e : Event)
    : Recorder * option Callbacks :=
  match e, s.2 with
  | Clicked succeeded, _ =>
      if isRecording s.1 then (stopRecording s.1, s.2)
      else
        match startRecording s.1 succeeded with
        | (r, Some callbacks) => (r, Some callbacks)
        | (r, None) => (r, s.2)
        end
  | Finished source, _ => (withLive (ended source (live s.1)) s.1, s.2)
  | Opened granted, Some _ => (onopen granted s.1, s.2)
  | Message currentTime message, Some _ =>
      (withLive (onmessage decodeAudioData (live s.1) currentTime message).1 s.1, s.2)
  | Closed, Some callbacks => (onclose callbacks s.1, s.2)
  | Errored, Some callbacks => (onerror callbacks s.1, s.2)
  | _, None => s
  end.

Definition session (events : list Event) : Recorder * option Callbacks :=
  foldl step (initial, None) events.

End Session.

(** What holds between any two events of the component. *)
Definition settled (s : Recorder * option Callbacks) : Prop :=
  (∀ callbacks, s.2 = Some callbacks → closedOver callbacks = false)
  ∧ (isRecording s.1 = true →
      is_Some (outputAudioContext (live s.1)) ∧ sessionPromise s.1 = true)
  ∧ (isRecording s.1 = false →
      outputAudioContext (live s.1) = None
      ∧ sessionPromise s.1 = false
      ∧ playingSources (live s.1) = []
      ∧ nextStartTime (live s.1) = zero).

End Recorder.

(** ** Text to speech *)

Module Speech.

Import Js.

(** The output context of the panel, when there is one: open (running or
    suspended) or closed. *)
Inductive ContextState := open | closed.

Record State := {
  text : str;
  voice : str;
  isPlaying : bool;
  error : str;
  audioContext : option ContextState
}.

(** What happens inside the [try] block, in the order the handler meets
    it: building the client throws; or the request is rejected; or a
    response comes back, whose first part may carry inline audio data, after
    which creating an output context (when one is needed) and decoding the
    data (when there is some) each succeed or throw. *)
Inductive Attempt :=
| ClientThrew
| RequestThrew
| Responded (base64Audio : option str) (contextCreated decoded : bool).

Record Request := { contents : str; voiceName : str }.

Definition failureText : str := js "Failed to generate audio. Please try again.".

(** The [catch] branch, with the context ref as the [try] block left it. *)
Definition failed (st : State) (context : option ContextState) : State :=
  {| text := text st; voice := voice st; isPlaying := false;
     error := failureText; audioContext := context |}.

(** [generateAndPlay], run until the source is started or the error is
    shown: the state, the requests sent and the buffers started (by their
    data).  A context is created when there is none or the one at hand is
    closed. *)
Definition generateAndPlay (st : State) (attempt : Attempt)
    : State * list Request * list str :=
  if negb (truthy (trim (text st))) || isPlaying st then (st, [], [])
  else
    let request := {| contents := text st; voiceName := voice st |} in
    match attempt with
    | ClientThrew => (failed st (audioContext st), [], [])
    | RequestThrew => (failed st (audioContext st), [request], [])
    | Responded audio contextCreated decoded =>
        let needed :=
          match audioContext st with
          | Some open => false
          | Some closed | None => true
          end in
        if needed && negb contextCreated then (failed st (audioContext st), [request], [])
        else
          let audioCtx := if needed then Some open else audioContext st in
          match audio with
          | Some base64Audio =>
              if truthy base64Audio && decoded then
                ({| text := text st; voice := voice st; isPlaying := true;
                    error := []; audioContext := audioCtx |},
                 [request], [base64Audio])
              else (failed st audioCtx, [request], [])
          | None => (failed st audioCtx, [request], [])
          end
    end.

(** [source.onended] *)
Definition onended (st : State) : State :=
  {| text := text st; voice := voice st; isPlaying := false;
     error := error st; audioContext := audioContext st |}.

End Speech.

(** ** Rendering of model messages *)

Module Markdown.

Import Js.

Definition isBacktick (c : N) : bool := (c =? 96)%N.
Definition isStar (c : N) : bool := (c =? 42)%N.
Definition isDash (c : N) : bool := (c =? 45)%N.
Definition isNewline (c : N) : bool := (c =? 10)%N.

(** What [.] of a regular expression does not match: LF, CR, LS and PS. *)
Definition isLineTerminator (c : N) : bool := bool_decide (c ∈ lineTerminator).

(** [s.split(separator)] for a separator that matches no empty string.
    [matchAt s] is the length of the separator's match at the start of [s],
    if it matches there; with [capture] the matched text is spliced into the
    result, as for a separator that is one capturing group.  [skip] counts
    the code units of the current match still to pass. *)
Fixpoint splitFrom (matchAt : str → option nat) (capture : bool) (skip : nat)
    (s : str) : list str :=
  match s with
  | [] => [[]]
  | c :: rest =>
      match skip with
      | S k => splitFrom matchAt capture k rest
      | 0 =>
          match matchAt s with
          | Some (S n) =>
              []
              :: (if capture then [take (S n) s] else [])
              ++ splitFrom matchAt capture n rest
          | _ =>
              match splitFrom matchAt capture 0 rest with
              | piece :: pieces => (c :: piece) :: pieces
              | [] => [[c]]
              end
          end
      end
  end.

Definition split (matchAt : str → option nat) (capture : bool) (s : str)
    : list str :=
  splitFrom matchAt capture 0 s.

(** Index of the first three backticks in a row. *)
Fixpoint closingFence (s : str) : option nat :=
  match s with
  | a :: ((b :: c :: _) as rest) =>
      if isBacktick a && isBacktick b && isBacktick c then Some 0
      else S <$> closingFence rest
  | _ => None
  end.

(** Three backticks, the shortest text up to three more backticks (which
    may span lines), and them. *)
Definition fenceAt (s : str) : option nat :=
  match s with
  | a :: b :: c :: body =>
      if isBacktick a && isBacktick b && isBacktick c then
        (λ k, 3 + k + 3) <$> closingFence body
      else None
  | _ => None
  end.

(** Index of the first code unit that [isClose], with no line terminator
    before it. *)
Fixpoint closeWith (isClose : N → bool) (s : str) : option nat :=
  match s with
  | [] => None
  | a :: rest =>
      if isClose a then Some 0
      else if isLineTerminator a then None
      else S <$> closeWith isClose rest
  end.

(** Index of the first two stars in a row, with no line terminator before
    them. *)
Fixpoint closeStrong (s : str) : option nat :=
  match s with
  | a :: ((b :: _) as rest) =>
      if isStar a && isStar b then Some 0
      else if isLineTerminator a then None
      else S <$> closeStrong rest
  | _ => None
  end.

(** The three alternatives of the inline separator, in their order: two
    stars up to the next two stars, a star up to the next star, a backtick
    up to the next backtick, each within one line and as short as
    possible. *)
Definition inlineAt (s : str) : option nat :=
  match s with
  | [] => None
  | a :: rest =>
      if isStar a then
        match match rest with
              | b :: body => if isStar b then closeStrong body else None
              | [] => None
              end with
        | Some k => Some (2 + k + 2)
        | None => (λ k, 1 + k + 1) <$> closeWith isStar rest
        end
      else if isBacktick a then (λ k, 1 + k + 1) <$> closeWith isBacktick rest
      else None
  end.

(** Two or more newlines, as many as there are. *)
Fixpoint newlines (s : str) : nat :=
  match s with
  | a :: rest => if isNewline a then S (newlines rest) else 0
  | [] => 0
  end.

Definition breakAt (s : str) : option nat :=
  if 2 <=? newlines s then Some (newlines s) else None.

Definition newlineAt (s : str) : option nat :=
  match s with
  | a :: _ => if isNewline a then Some 1 else None
  | [] => None
  end.

Definition startsWith (prefix s : str) : bool :=
  bool_decide (take (length prefix) s = prefix).

Definition endsWith (suffix s : str) : bool :=
  bool_decide (length suffix ≤ length s
               ∧ drop (length s - length suffix) s = suffix).

(** [s.slice(from, -fromEnd)] *)
Definition slice (from fromEnd : nat) (s : str) : str :=
  take (length s - fromEnd - from) (drop from s).

Definition fence : str := js "```".
Definition strongMark : str := js "**".
Definition emMark : str := js "*".
Definition codeMark : str := js "`".

(** The elements [renderInline] returns. *)
Inductive Inline :=
| Plain (content : str)
| Strong (content : str)
| Em (content : str)
| InlineCode (content : str).

Definition renderPart (part : str) : Inline :=
  if startsWith strongMark part && endsWith strongMark part then Strong (slice 2 2 part)
  else if startsWith emMark part && endsWith emMark part then Em (slice 1 1 part)
  else if startsWith codeMark part && endsWith codeMark part then InlineCode (slice 1 1 part)
  else Plain part.

Definition renderInline (content : str) : list Inline :=
  renderPart <$> split inlineAt true content.

(** [/^\s*[-*]\s/.test(line)] *)
Definition isItem (line : str) : bool :=
  match trimStart line with
  | marker :: next :: _ =>
      (isDash marker || isStar marker) && isWhiteSpace next
  | _ => false
  end.

(** [item.replace(/^\s*[-*]\s+/, '')] *)
Definition stripMarker (item : str) : str :=
  match trimStart item with
  | marker :: ((next :: _) as rest) =>
      if (isDash marker || isStar marker) && isWhiteSpace next
      then trimStart rest
      else item
  | _ => item
  end.

(** What the renderer puts on the page, flattened in document order. *)
Inductive Block :=
| CodeBlock (code : str)
| BulletList (items : list (list Inline))
| Paragraph (content : list Inline).

Definition renderSubBlock (subBlock : str) : list Block :=
  if negb (truthy (trim subBlock)) then []
  else
    let lines := split newlineAt false (trim subBlock) in
    let isList :=
      (0 <? length lines) && forallb (λ line, isItem (trim line)) lines in
    if isList then [BulletList ((λ item, renderInline (stripMarker item)) <$> lines)]
    else [Paragraph (renderInline subBlock)].

Definition renderBlock (block : str) : list Block :=
  if startsWith fence block && endsWith fence block
  then [CodeBlock (trim (slice 3 3 block))]
  else mjoin (renderSubBlock <$> split breakAt false block).

(** [MarkdownRenderer] *)
Definition render (content : str) : list Block :=
  mjoin (renderBlock <$> split fenceAt true content).

End Markdown.

(** ** Concrete data for the further examples *)

Module Scenario.

Import Js Chat.

(** The panel right after its first render, with a question typed. *)
Definition ready : State :=
  {| chat := Some Sample.session;
     history := {| past := []; present := [Sample.greeting]; future := [] |};
     input := js "What is an undo stack?";
     isLoading := false |}.

Definition sentAt : str := js "2025-03-01T09:00:05.000Z".
Definition openedAt : str := js "2025-03-01T09:00:06.000Z".
Definition failedAt : str := js "2025-03-01T09:00:08.000Z".

Definition chunks : list Chunk :=
  [ {| chunk_text := js "Two stacks"; chunk_time := js "2025-03-01T09:00:06.500Z" |};
    {| chunk_text := js " around the present.";
       chunk_time := js "2025-03-01T09:00:07.000Z" |} ].



Definition firstChunk : Chunk :=
  {| chunk_text := js "Two stacks"; chunk_time := js "2025-03-01T09:00:06.500Z" |}.

(** The history when undo is clicked while the answer to the question
    streams in: the send has pushed the greeting onto the past and shows
    the question and the placeholder; the undo brings the greeting back. *)
Definition undoneWhileStreaming : History :=
  handleUndo (streamed ready sentAt openedAt []).2.

(** Updates of the history, in the order of the clicks that make them. *)
Definition clicks : list Update :=
  [ UndoClick;
    StreamChunk (js "Hello again") (js "2025-03-01T09:02:00.000Z");
    RedoClick;
    SetMessages [Sample.greeting] false ].

(** The time of day of an ISO timestamp, as a stand-in for the locale's
    rendering. *)
Definition hoursAndMinutes (iso : str) : str := take 5 (drop 11 iso).

(** The first visit: one question, answered. *)
Definition asked : list Action :=
  [ Submit (js "What is an undo stack?") sentAt (Stream openedAt chunks None) ].

Definition mountedAt : str := js "2025-03-01T09:00:00.000Z".
Definition reloadedAt : str := js "2025-03-02T08:00:00.000Z".

(** Live messages of one turn, then of an interruption. *)
Definition turn : list (Num.number * Live.LiveServerMessage) :=
  [ (Num.zero, Sample.heard (js " you")); (Num.zero, Sample.said (js "and you?")) ].

(** A session that has heard a space and a no-break space so far. *)
Definition silence : Live.LiveState :=
  {| Live.transcripts := [ {| Live.speaker := Live.user; Live.text := js "Hello" |} ];
     Live.currentInputTranscription := js " " ++ Sample.nbsp;
     Live.currentOutputTranscription := [];
     Live.nextStartTime := Num.zero;
     Live.playingSources := [];
     Live.created := 0;
     Live.outputAudioContext := Some {| Live.sampleRate := 24000%Z |} |}.




(** A visit to the live panel: a session is started and opened, a frame
    plays and ends, the connection closes, and the button is clicked
    again. *)
Definition liveVisit : list Recorder.Event :=
  [ Recorder.Clicked true; Recorder.Opened true;
    Recorder.Message (Sample.seconds 1 2) (Sample.audio Sample.clip3);
    Recorder.Finished {| Live.node := 0; Live.startAt := Sample.seconds 1 2;
                         Live.duration := Sample.seconds 8 64000 |};
    Recorder.Closed; Recorder.Clicked true ].

Definition speech : Speech.State :=
  {| Speech.text := js "Have a wonderful day!";
     Speech.voice := js "Kore";
     Speech.isPlaying := false;
     Speech.error := [];
     Speech.audioContext := None |}.

(** Two frames arrive before either is decoded. *)
Definition overlapping : list Live.Phase :=
  [ Live.Arrived (Sample.seconds 1 2); Live.Arrived (Sample.seconds 3 5);
    Live.Decoded (Sample.seconds 8 64000); Live.Decoded (Sample.seconds 16 64000) ].

(** A fenced block after a line of text; the body has a language tag, a
    line of code, and white space at both ends. *)
Definition fencedBody : str := js "py" ++ [10%N] ++ js "x = 1" ++ [10%N] ++ Sample.nbsp.

End Scenario.

(** * Properties *)

(** ** Strings *)

Section StringFacts.

Import Js.

Lemma trimStart_blank (s : str) : blank s = true → trimStart s = [].
Proof.
  unfold blank. induction s as [|c s IH]; [done|]. cbn.
  destruct (isWhiteSpace c); [exact IH | discriminate].
Qed.

Lemma trim_blank (s : str) : blank s = true → trim s = [].
Proof. intros Hs. unfold trim. by rewrite trimStart_blank. Qed.

Lemma blank_trimStart (s : str) : blank (trimStart s) = blank s.
Proof.
  unfold blank. induction s as [|c s IH]; [done|]. cbn [trimStart].
  destruct (isWhiteSpace c) eqn:Hc; cbn; by rewrite Hc.
Qed.

Lemma trimEnd_empty (s : str) : trimEnd s = [] → blank s = true.
Proof.
  unfold blank. induction s as [|c s IH]; [done|]. cbn [trimEnd].
  destruct (trimEnd s) as [|k kept]; [|done].
  destruct (isWhiteSpace c) eqn:Hc; [|done]. intros _. cbn. by rewrite Hc, IH.
Qed.

(** [trim] leaves something exactly of the strings that are not blank. *)
Lemma trim_truthy (s : str) : truthy (trim s) = negb (blank s).
Proof.
  destruct (blank s) eqn:Hs.
  - by rewrite (trim_blank s Hs).
  - unfold trim. destruct (trimEnd (trimStart s)) eqn:E; [|done].
    apply trimEnd_empty in E. rewrite blank_trimStart in E. congruence.
Qed.

Lemma joined_snoc (texts : list str) (t : str) :
  joined (texts ++ [t]) = joined texts ++ t.
Proof.
  unfold joined. induction texts as [|x texts IH]; cbn [foldr app].
  - apply app_nil_r.
  - by rewrite IH, app_assoc.
Qed.

End StringFacts.

(** ** Binary64 sums and comparisons *)

Section NumFacts.

Import Num.

Open Scope Z_scope.

Lemma digits_bounds (p : positive) :
  2 ^ (Z.pos (digits2_pos p) - 1) ≤ Z.pos p < 2 ^ Z.pos (digits2_pos p).
Proof.
  induction p as [p IH|p IH|]; cbn [digits2_pos].
  - rewrite Pos2Z.inj_succ, Pos2Z.inj_xI.
    replace (Z.succ (Z.pos (digits2_pos p)) - 1) with (Z.succ (Z.pos (digits2_pos p) - 1)) by lia.
    rewrite !Z.pow_succ_r by lia.
    revert IH. generalize (2 ^ (Z.pos (digits2_pos p) - 1)), (2 ^ Z.pos (digits2_pos p)). lia.
  - rewrite Pos2Z.inj_succ. change (Z.pos p~0) with (2 * Z.pos p).
    replace (Z.succ (Z.pos (digits2_pos p)) - 1) with (Z.succ (Z.pos (digits2_pos p) - 1)) by lia.
    rewrite !Z.pow_succ_r by lia.
    revert IH. generalize (2 ^ (Z.pos (digits2_pos p) - 1)), (2 ^ Z.pos (digits2_pos p)). lia.
  - cbn. lia.
Qed.

Lemma digits_unique (p : positive) (d : Z) :
  2 ^ (d - 1) ≤ Z.pos p < 2 ^ d → Z.pos (digits2_pos p) = d.
Proof.
  intros [Hlo Hhi]. pose proof (digits_bounds p) as [Hlo' Hhi'].
  assert (0 < d) as Hd.
  { destruct (Z.lt_ge_cases 0 d) as [?|Hle]; [done|].
    assert (2 ^ d ≤ 2 ^ 0) by (destruct (Z.eq_dec d 0) as [->|]; [done|rewrite Z.pow_neg_r by lia; cbn; lia]).
    cbn in *. lia. }
  destruct (Z.lt_trichotomy (Z.pos (digits2_pos p)) d) as [Hlt|[?|Hgt]]; [|done|].
  - assert (2 ^ Z.pos (digits2_pos p) ≤ 2 ^ (d - 1)) by (apply Z.pow_le_mono_r; lia). lia.
  - assert (2 ^ d ≤ 2 ^ (Z.pos (digits2_pos p) - 1)) by (apply Z.pow_le_mono_r; lia). lia.
Qed.

Lemma digits_mono (p q : positive) :
  Z.pos p ≤ Z.pos q → Z.pos (digits2_pos p) ≤ Z.pos (digits2_pos q).
Proof.
  intros Hpq. pose proof (digits_bounds p) as [Hlo _]. pose proof (digits_bounds q) as [_ Hhi].
  destruct (Z.le_gt_cases (Z.pos (digits2_pos p)) (Z.pos (digits2_pos q))) as [?|Hgt]; [done|].
  assert (2 ^ Z.pos (digits2_pos q) ≤ 2 ^ (Z.pos (digits2_pos p) - 1)) by (apply Z.pow_le_mono_r; lia).
  lia.
Qed.

(** digits of a quotient by a power of two *)
Lemma digits_shift (p q : positive) (n : Z) :
  0 ≤ n → Z.pos q = Z.pos p / 2 ^ n →
  Z.pos (digits2_pos q) = Z.pos (digits2_pos p) - n.
Proof.
  intros Hn Hq. pose proof (digits_bounds p) as [Hlo Hhi].
  set (d := Z.pos (digits2_pos p)) in *.
  assert (0 < 2 ^ n) as Hpow by (apply Z.pow_pos_nonneg; lia).
  assert (n < d) as Hnd.
  { destruct (Z.lt_ge_cases n d) as [?|Hge]; [done|].
    assert (2 ^ d ≤ 2 ^ n) by (apply Z.pow_le_mono_r; lia).
    rewrite Z.div_small in Hq by lia. lia. }
  apply digits_unique. rewrite Hq. split.
  - apply Z.div_le_lower_bound; [done|].
    rewrite <- Z.pow_add_r by lia. replace (n + (d - n - 1)) with (d - 1) by lia. done.
  - apply Z.div_lt_upper_bound; [done|].
    rewrite <- Z.pow_add_r by lia. replace (n + (d - n)) with d by lia. done.
Qed.

Lemma shr_1_m (r : shr_record) :
  0 ≤ shr_m r → shr_m (shr_1 r) = shr_m r / 2.
Proof.
  destruct r as [m rb sb]; cbn [shr_m shr_1]. intros Hm.
  destruct m as [|[p|p|]|p]; cbn [shr_m]; try lia.
  - done.
  - apply (Z.div_unique _ _ _ 1); lia.
  - apply (Z.div_unique _ _ _ 0); lia.
  - done.
Qed.

Lemma iter_shr_m (p : positive) : ∀ r : shr_record,
  0 ≤ shr_m r → shr_m (SpecFloat.iter_pos shr_1 p r) = shr_m r / 2 ^ Z.pos p.
Proof.
  assert (∀ m k, 0 ≤ m → 0 ≤ m / 2 ^ Z.pos k) as Hpos
    by (intros m k Hm; apply Z.div_pos; [done|by apply Z.pow_pos_nonneg]).
  induction p as [p IH|p IH|]; intros r Hr; cbn [SpecFloat.iter_pos].
  - assert (0 ≤ shr_m (shr_1 r)) as H1 by (rewrite shr_1_m by done; apply Z.div_pos; lia).
    rewrite IH by (rewrite IH by done; by apply Hpos).
    rewrite IH by done. rewrite shr_1_m by done.
    rewrite !Z.div_div by (try apply Z.pow_pos_nonneg; lia).
    f_equal. rewrite Pos2Z.inj_xI.
    replace (2 * Z.pos p + 1) with (1 + Z.pos p + Z.pos p) by lia.
    rewrite !Z.pow_add_r by lia. lia.
  - rewrite IH by (rewrite IH by done; by apply Hpos).
    rewrite IH by done.
    rewrite !Z.div_div by (try apply Z.pow_pos_nonneg; lia).
    f_equal. change (Z.pos p~0) with (2 * Z.pos p).
    replace (2 * Z.pos p) with (Z.pos p + Z.pos p) by lia.
    rewrite !Z.pow_add_r by lia. lia.
  - by rewrite shr_1_m.
Qed.


Lemma fexp_eq (e : Z) : fexp prec emax e = Z.max (e - 53) (-1074).
Proof. reflexivity. Qed.

Lemma digits_scale (m : positive) (k : Z) (q : positive) :
  0 ≤ k → Z.pos q = Z.pos m * 2 ^ k →
  Z.pos (digits2_pos q) = Z.pos (digits2_pos m) + k.
Proof.
  intros Hk Hq. pose proof (digits_bounds m) as [Hlo Hhi].
  assert (0 < 2 ^ k) as Hpow by (apply Z.pow_pos_nonneg; lia).
  apply digits_unique. rewrite Hq. split.
  - replace (Z.pos (digits2_pos m) + k - 1) with ((Z.pos (digits2_pos m) - 1) + k) by lia.
    rewrite Z.pow_add_r by lia. apply Z.mul_le_mono_nonneg_r; lia.
  - rewrite Z.pow_add_r by lia. apply Z.mul_lt_mono_pos_r; lia.
Qed.

Lemma shr_m_of_loc (m : Z) (l : location) : shr_m (shr_record_of_loc m l) = m.
Proof. by destruct l as [|[| |]]. Qed.

(** One [shr_fexp] on a positive mantissa that is not shifted out. *)
Lemma shr_fexp_pos (m : positive) (e : Z) (l : location) :
  e ≤ fexp prec emax (Z.pos (digits2_pos m) + e) →
  -1074 < Z.pos (digits2_pos m) + e →
  ∃ r q,
    shr_fexp prec emax (Z.pos m) e l = (r, fexp prec emax (Z.pos (digits2_pos m) + e))
    ∧ shr_m r = Z.pos q
    ∧ Z.pos q = Z.pos m / 2 ^ (fexp prec emax (Z.pos (digits2_pos m) + e) - e)
    ∧ Z.pos (digits2_pos q) + fexp prec emax (Z.pos (digits2_pos m) + e)
      = Z.pos (digits2_pos m) + e.
Proof.
  intros Hn Hd. unfold shr_fexp, shr. cbn [Zdigits2].
  set (E := fexp prec emax (Z.pos (digits2_pos m) + e)) in *.
  assert (E - e < Z.pos (digits2_pos m)) as Hlt by (unfold E; rewrite fexp_eq; lia).
  pose proof (digits_bounds m) as [Hlo _].
  assert (0 < 2 ^ (E - e)) as Hpow by (apply Z.pow_pos_nonneg; lia).
  assert (1 ≤ Z.pos m / 2 ^ (E - e)) as Hq.
  { apply Z.div_le_lower_bound; [done|]. rewrite Z.mul_1_r.
    etrans; [|exact Hlo]. apply Z.pow_le_mono_r; lia. }
  destruct (Z.pos m / 2 ^ (E - e)) as [|q|q] eqn:Hquot; [lia| |lia].
  assert (Z.pos (digits2_pos q) = Z.pos (digits2_pos m) - (E - e)) as Hdig
    by (apply digits_shift; [lia|done]).
  destruct (E - e) as [|n|n] eqn:Hshift; [| |lia].
  - exists (shr_record_of_loc (Z.pos m) l), q.
    split; [f_equal; lia|]. rewrite shr_m_of_loc.
    split; [|split; [done|lia]].
    rewrite Z.pow_0_r, Z.div_1_r in Hquot. done.
  - exists (SpecFloat.iter_pos shr_1 n (shr_record_of_loc (Z.pos m) l)), q.
    split; [f_equal; lia|].
    rewrite iter_shr_m by (by rewrite shr_m_of_loc). rewrite shr_m_of_loc.
    split; [done|]. split; [done|lia].
Qed.

Lemma round_nearest_even_pos (q : positive) (l : location) :
  ∃ q' : positive,
    round_nearest_even (Z.pos q) l = Z.pos q' ∧ Z.pos q ≤ Z.pos q'.
Proof.
  destruct l as [|[| |]]; cbn [round_nearest_even].
  - by exists q.
  - destruct (Z.even (Z.pos q)); [by exists q|]. exists (q + 1)%positive. lia.
  - by exists q.
  - exists (q + 1)%positive. lia.
Qed.

(** Rounding a positive mantissa that does not underflow: the result is a
    canonical positive number or +infinity, its exponent is at least the
    one the format chooses for the exact value, and at that exponent its
    mantissa is at least the truncated one. *)
Lemma binary_round_aux_pos (m : positive) (e : Z) :
  e ≤ fexp prec emax (Z.pos (digits2_pos m) + e) →
  -1074 < Z.pos (digits2_pos m) + e →
  ∃ q e',
    binary_round_aux prec emax false (Z.pos m) e loc_Exact
    = (if e' <=? emax - prec then S754_finite false q e' else S754_infinity false)
    ∧ canonical_mantissa prec emax q e' = true
    ∧ fexp prec emax (Z.pos (digits2_pos m) + e) ≤ e'
    ∧ (e' = fexp prec emax (Z.pos (digits2_pos m) + e) →
        Z.pos m / 2 ^ (e' - e) ≤ Z.pos q).
Proof.
  intros Hn Hd. unfold binary_round_aux.
  destruct (shr_fexp_pos m e loc_Exact Hn Hd) as (r1 & q1 & -> & Hm1 & Hq1 & Hd1).
  set (E := fexp prec emax (Z.pos (digits2_pos m) + e)) in *.
  rewrite Hm1.
  destruct (round_nearest_even_pos q1 (loc_of_shr_record r1)) as (q2 & -> & Hq2).
  pose proof (digits_mono q1 q2 Hq2) as Hd2.
  assert (-1074 ≤ E) as HE by (unfold E; rewrite fexp_eq; lia).
  assert (E ≤ fexp prec emax (Z.pos (digits2_pos q2) + E)) as Hn2.
  { assert (fexp prec emax (Z.pos (digits2_pos q1) + E) = E) as Hcan
      by (rewrite Hd1; done).
    rewrite fexp_eq in *. lia. }
  assert (-1074 < Z.pos (digits2_pos q2) + E) as Hd2' by lia.
  destruct (shr_fexp_pos q2 E loc_Exact Hn2 Hd2') as (r2 & q3 & -> & Hm3 & Hq3 & Hd3).
  rewrite Hm3. exists q3, (fexp prec emax (Z.pos (digits2_pos q2) + E)).
  split; [done|]. split; [|split; [done|]].
  - unfold canonical_mantissa. apply Z.eqb_eq. by rewrite Hd3.
  - intros HeE. rewrite HeE, Z.sub_diag, Z.pow_0_r, Z.div_1_r in Hq3.
    rewrite HeE. rewrite <- Hq1. lia.
Qed.

Lemma iter_xO (m d : positive) : Z.pos (Pos.iter xO m d) = Z.pos m * 2 ^ Z.pos d.
Proof.
  induction d as [|d IH] using Pos.peano_ind.
  - cbn. lia.
  - rewrite Pos.iter_succ, Pos2Z.inj_succ, Z.pow_succ_r by lia.
    change (Z.pos (Pos.iter xO m d)~0) with (2 * Z.pos (Pos.iter xO m d)). rewrite IH. lia.
Qed.

Lemma shl_align_fst (m : positive) (e e' : Z) :
  e' ≤ e → Z.pos (shl_align m e e').1 = Z.pos m * 2 ^ (e - e').
Proof.
  intros He. unfold shl_align.
  destruct (e' - e) as [|d|d] eqn:Hd; cbn [fst]; [| lia |].
  - replace (e - e') with 0 by lia. lia.
  - rewrite iter_xO. f_equal. f_equal. lia.
Qed.

Lemma shl_align_keep (m : positive) (e e' : Z) :
  e ≤ e' → shl_align m e e' = (m, e).
Proof. intros He. unfold shl_align. destruct (e' - e) eqn:Hd; [done|done|lia]. Qed.

Lemma bounded_canonical (m : positive) (e : Z) :
  bounded prec emax m e = true →
  fexp prec emax (Z.pos (digits2_pos m) + e) = e ∧ e ≤ emax - prec.
Proof.
  unfold bounded, canonical_mantissa. intros [H1 H2]%andb_true_iff.
  split; [by apply Z.eqb_eq | by apply Z.leb_le].
Qed.

(** The sum of two positive numbers, the first one canonical: the rounded
    sum is canonical (or +infinity) and not below the first. *)
Lemma add_finite (mx : positive) (ex : Z) (my : positive) (ey : Z) :
  bounded prec emax mx ex = true →
  time (add (S754_finite false mx ex) (S754_finite false my ey)) = true
  ∧ leb (S754_finite false mx ex)
      (add (S754_finite false mx ex) (S754_finite false my ey)) = true.
Proof.
  intros [Hcan Hmax]%bounded_canonical.
  unfold add, SFadd. cbn [cond_Zopp].
  set (ez := Z.min ex ey).
  pose proof (shl_align_fst mx ex ez ltac:(lia)) as Ha.
  pose proof (shl_align_fst my ey ez ltac:(lia)) as Hb.
  set (a := (shl_align mx ex ez).1) in *. set (b := (shl_align my ey ez).1) in *.
  change (Z.pos a + Z.pos b) with (Z.pos (a + b)). cbn [binary_normalize].
  unfold binary_round.
  assert (0 < 2 ^ (ex - ez)) as Hpow by (apply Z.pow_pos_nonneg; lia).
  assert (Z.pos mx * 2 ^ (ex - ez) ≤ Z.pos (a + b)) as Hsum by lia.
  assert (Z.pos (digits2_pos mx) + ex ≤ Z.pos (digits2_pos (a + b)) + ez) as Hdig.
  { pose proof (digits_scale mx (ex - ez) a ltac:(lia) Ha).
    pose proof (digits_mono a (a + b) ltac:(lia)). lia. }
  assert (ez ≤ fexp prec emax (Z.pos (digits2_pos (a + b)) + ez)) as Hn
    by (rewrite fexp_eq in *; lia).
  assert (-1074 < Z.pos (digits2_pos (a + b)) + ez) as Hd
    by (rewrite fexp_eq in *; lia).
  rewrite (shl_align_keep _ _ _ Hn).
  destruct (binary_round_aux_pos (a + b) ez Hn Hd) as (q & e' & -> & Hq & He' & Hm).
  assert (ex ≤ e') as Hex by (rewrite fexp_eq in *; lia).
  destruct (e' <=? emax - prec) eqn:Hfit.
  - split; [cbn [time negb andb]; unfold bounded; by rewrite Hq, Hfit|].
    unfold leb, SFleb, SFcompare.
    destruct (Z.compare_spec ex e') as [Heq|Hlt|Hgt]; [|done|lia].
    assert (e' = fexp prec emax (Z.pos (digits2_pos (a + b)) + ez)) as HeE
      by (rewrite fexp_eq in *; lia).
    specialize (Hm HeE).
    assert (Z.pos mx ≤ Z.pos q) as Hle.
    { etrans; [|exact Hm]. apply Z.div_le_lower_bound.
      - apply Z.pow_pos_nonneg; lia.
      - subst e'. lia. }
    change (Pos.compare_cont Eq mx q) with (mx ?= q)%positive.
    destruct (Pos.compare_spec mx q); [done|done|lia].
  - done.
Qed.

Lemma leb_refl (x : number) : time x = true → leb x x = true.
Proof.
  destruct x as [s|[|]| |[|] m e]; try done. intros _.
  unfold leb, SFleb, SFcompare. rewrite Z.compare_refl.
  change (Pos.compare_cont Eq m m) with (m ?= m)%positive. by rewrite Pos.compare_refl.
Qed.

(** The sum the code computes for a cursor and a duration is a time again,
    and not before the cursor. *)
Lemma add_time (x d : number) :
  time x = true → time d = true →
  time (add x d) = true ∧ leb x (add x d) = true.
Proof.
  intros Hx Hd.
  destruct x as [sx|[|]| |[|] mx ex]; try done;
    destruct d as [sd|[|]| |[|] md ed]; try done.
  all: try (cbn in *; split; done).
  all: try (by destruct sx, sd).
  all: try (split; [done|]; by apply leb_refl).
  all: try (cbn in Hx; by apply add_finite).
Qed.

Lemma leb_trans (x y z : number) :
  time x = true → time y = true → time z = true →
  leb x y = true → leb y z = true → leb x z = true.
Proof.
  intros Hx Hy Hz.
  destruct x as [sx|[|]| |[|] mx ex]; try done;
    destruct y as [sy|[|]| |[|] my ey]; try done;
    destruct z as [sz|[|]| |[|] mz ez]; try done.
  unfold leb, SFleb, SFcompare.
  change (Pos.compare_cont Eq) with Pos.compare.
  destruct (Z.compare_spec ex ey), (Z.compare_spec ey ez), (Z.compare_spec ex ez);
    try done; try lia;
    destruct (Pos.compare_spec mx my), (Pos.compare_spec my mz), (Pos.compare_spec mx mz);
    try done; lia.
Qed.

Lemma leb_total (x y : number) :
  time x = true → time y = true → SFltb x y = false → leb y x = true.
Proof.
  intros Hx Hy.
  destruct x as [sx|[|]| |[|] mx ex]; try done;
    destruct y as [sy|[|]| |[|] my ey]; try done.
  unfold leb, SFltb, SFleb, SFcompare.
  change (Pos.compare_cont Eq) with Pos.compare.
  destruct (Z.compare_spec ex ey), (Z.compare_spec ey ex); try done; try lia.
  destruct (Pos.compare_spec mx my), (Pos.compare_spec my mx); try done; lia.
Qed.

Lemma ltb_leb (x y : number) : SFltb x y = true → leb x y = true.
Proof. unfold SFltb, leb, SFleb. by destruct (SFcompare x y) as [[| |]|]. Qed.

Lemma max_time (a b : number) :
  time a = true → time b = true →
  time (Math_max a b) = true
  ∧ leb a (Math_max a b) = true
  ∧ leb b (Math_max a b) = true.
Proof.
  intros Ha Hb.
  destruct (SFltb a b) eqn:Hlt.
  - assert (Math_max a b = b ∨ ∃ sa sb, a = S754_zero sa ∧ b = S754_zero sb) as [->|H].
    { unfold Math_max. rewrite Hlt.
      destruct a as [sa|[|]| |[|] ma ea]; try done;
        destruct b as [sb|[|]| |[|] mb eb]; try done; eauto. }
    + split; [done|]. split; [by apply ltb_leb | by apply leb_refl].
    + by destruct H as (sa & sb & -> & ->).
  - assert (Math_max a b = a ∨ ∃ sa sb, a = S754_zero sa ∧ b = S754_zero sb) as [->|H].
    { unfold Math_max. rewrite Hlt.
      destruct a as [sa|[|]| |[|] ma ea]; try done;
        destruct b as [sb|[|]| |[|] mb eb]; try done; eauto. }
    + split; [done|]. split; [by apply leb_refl | by apply leb_total].
    + by destruct H as (sa & sb & -> & ->).
Qed.

End NumFacts.

(** ** The history stack *)

Section HistoryFacts.

Import Chat.

Lemma handleUndo_snoc ps p cur fut :
  handleUndo {| past := ps ++ [p]; present := cur; future := fut |}
  = {| past := ps; present := p; future := cur :: fut |}.
Proof.
  unfold handleUndo; cbn [past present future].
  rewrite length_app, Nat.add_1_r.
  destruct (decide (S (length ps) = 0)) as [?|_]; [lia|].
  replace (S (length ps) - 1) with (length ps) by lia.
  rewrite list_lookup_middle by done.
  by rewrite take_app_length.
Qed.

Lemma handleUndo_empty cur fut :
  handleUndo {| past := []; present := cur; future := fut |}
  = {| past := []; present := cur; future := fut |}.
Proof. done. Qed.

Lemma handleRedo_cons ps cur f fut :
  handleRedo {| past := ps; present := cur; future := f :: fut |}
  = {| past := ps ++ [cur]; present := f; future := fut |}.
Proof. done. Qed.

Lemma handleRedo_empty ps cur :
  handleRedo {| past := ps; present := cur; future := [] |}
  = {| past := ps; present := cur; future := [] |}.
Proof. done. Qed.

Lemma snoc_inv {A} (l : list A) : l ≠ [] → ∃ l' x, l = l' ++ [x].
Proof.
  destruct l as [|x l' _] using rev_ind; [done|]. intros _. by exists l', x.
Qed.

Lemma snoc_ne {A} (l : list A) (x : A) : l ++ [x] ≠ l.
Proof.
  intros H. apply (f_equal length) in H. rewrite length_app in H. cbn in H. lia.
Qed.


(** C2: a non-streaming [setMessages] pushes the old present onto the past,
    installs the new list and empties the future, so that a redo right
    after it leaves the history as it is. *)
Theorem edit_pushes_past_and_clears_future (newMessages : list ChatMessage) (h : History) :
  past (setMessages newMessages false h) = past h ++ [present h]
  ∧ present (setMessages newMessages false h) = newMessages
  ∧ future (setMessages newMessages false h) = []
  ∧ handleRedo (setMessages newMessages false h) = setMessages newMessages false h.
Proof. repeat split. Qed.

(** C3: undo and redo are inverse to each other wherever they act, and
    each is the identity when its stack is empty. *)
Theorem undo_redo_inverse (h : History) :
  (past h ≠ [] → handleRedo (handleUndo h) = h)
  ∧ (future h ≠ [] → handleUndo (handleRedo h) = h)
  ∧ (past h = [] → handleUndo h = h)
  ∧ (future h = [] → handleRedo h = h).
Proof.
  destruct h as [ps cur fut]; cbn [past present future].
  split; [|split; [|split]].
  - intros Hps. destruct (snoc_inv ps Hps) as (ps' & p & ->).
    by rewrite handleUndo_snoc, handleRedo_cons.
  - intros Hfut. destruct fut as [|f fut]; [done|].
    by rewrite handleRedo_cons, handleUndo_snoc.
  - by intros ->.
  - by intros ->.
Qed.

End HistoryFacts.

(** ** Streaming *)

Section StreamFacts.

Import Js Chat.

Lemma streamUpdate_length acc now h :
  length (present (streamUpdate acc now h)) = length (present h).
Proof.
  unfold streamUpdate; cbn [present].
  destruct (present h) as [|m ms] eqn:E; [done|]. apply length_insert.
Qed.

(** The update lands on the last message of whatever list is shown when it
    runs, also one that an undo or a redo put there in the meantime. *)
Lemma streamUpdate_last acc now h :
  present h ≠ [] →
  last (present (streamUpdate acc now h)) = Some (modelMessage acc now).
Proof.
  intros Hne. destruct (snoc_inv _ Hne) as (ms & m & E).
  unfold streamUpdate; cbn [present]. rewrite E.
  destruct (ms ++ [m]) as [|x xs] eqn:E'; [by destruct ms|]. rewrite <- E'.
  rewrite length_app, Nat.add_1_r.
  replace (S (length ms) - 1) with (length ms + 0) by lia.
  rewrite insert_app_r. cbn. apply last_snoc.
Qed.

Lemma streamUpdate_take acc now h :
  take (length (present h) - 1) (present (streamUpdate acc now h))
  = take (length (present h) - 1) (present h).
Proof.
  unfold streamUpdate; cbn [present].
  destruct (present h) as [|m ms] eqn:E; [done|]. by rewrite take_insert_ge.
Qed.

(** A chunk update rewrites the last slot of [present] only: the length
    stays, every earlier position keeps its message, and [past] and
    [future] are untouched. *)
Lemma streamUpdate_frame acc now (h : History) :
  length (present (streamUpdate acc now h)) = length (present h)
  ∧ take (length (present h) - 1) (present (streamUpdate acc now h))
    = take (length (present h) - 1) (present h)
  ∧ (∀ i, i < length (present h) - 1 →
          present (streamUpdate acc now h) !! i = present h !! i)
  ∧ past (streamUpdate acc now h) = past h
  ∧ future (streamUpdate acc now h) = future h.
Proof.
  split; [apply streamUpdate_length|].
  split; [apply streamUpdate_take|].
  split; [|done].
  intros i Hi.
  rewrite <- (lookup_take_lt (present (streamUpdate acc now h)) _ i Hi).
  rewrite <- (lookup_take_lt (present h) _ i Hi).
  by rewrite streamUpdate_take.
Qed.

Lemma receive_snoc init chunks c :
  foldl receive init (chunks ++ [c]) = receive (foldl receive init chunks) c.
Proof. by rewrite foldl_app. Qed.

Lemma streamed_nonempty st sentAt openedAt chunks :
  present (streamed st sentAt openedAt chunks).2 ≠ [].
Proof.
  unfold streamed. induction chunks as [|c chunks IH] using rev_ind.
  - cbn. by destruct (present (history st)).
  - rewrite receive_snoc. cbn [receive snd]. intros E.
    apply (f_equal length) in E. rewrite streamUpdate_length in E.
    apply IH. by apply nil_length_inv.
Qed.

Lemma streamed_last_acc st sentAt openedAt (chunks : list Chunk) :
  (streamed st sentAt openedAt chunks).1 = joined (chunk_text <$> chunks).
Proof.
  induction chunks as [|c chunks IH] using rev_ind; [done|].
  unfold streamed in *. rewrite receive_snoc. cbn [receive fst].
  rewrite fmap_app. cbn [fmap list_fmap]. by rewrite joined_snoc, IH.
Qed.

Lemma streamUpdate_snoc acc now ps ms m fut :
  streamUpdate acc now {| past := ps; present := ms ++ [m]; future := fut |}
  = {| past := ps; present := ms ++ [modelMessage acc now]; future := fut |}.
Proof.
  unfold streamUpdate; cbn [past present future]. f_equal.
  destruct (ms ++ [m]) as [|x xs] eqn:E'; [by destruct ms|]. rewrite <- E'.
  rewrite length_app, Nat.add_1_r.
  replace (S (length ms) - 1) with (length ms + 0) by lia.
  by rewrite insert_app_r.
Qed.

(** The whole history while one send streams, with no other handler in
    between: the messages shown at the call, the user's message, and the
    model message under construction; the old present is the newest past
    entry and there is nothing to redo. *)
Lemma streamed_history st sentAt openedAt (chunks : list Chunk) :
  (streamed st sentAt openedAt chunks).2
  = {| past := past (history st) ++ [present (history st)];
       present := present (history st)
                  ++ [userMessage st sentAt;
                      modelMessage (joined (chunk_text <$> chunks))
                        (default openedAt (chunk_time <$> last chunks))];
       future := [] |}.
Proof.
  induction chunks as [|c chunks IH] using rev_ind; [done|].
  unfold streamed in *. rewrite receive_snoc. cbn [receive snd].
  pose proof (streamed_last_acc st sentAt openedAt chunks) as Hacc.
  unfold streamed in Hacc. rewrite Hacc, IH.
  rewrite fmap_app, last_snoc. cbn [fmap list_fmap option_fmap option_map default].
  rewrite joined_snoc.
  replace (present (history st)
           ++ [userMessage st sentAt;
               modelMessage (joined (chunk_text <$> chunks))
                 (default openedAt (chunk_time <$> last chunks))])
    with ((present (history st) ++ [userMessage st sentAt])
          ++ [modelMessage (joined (chunk_text <$> chunks))
                (default openedAt (chunk_time <$> last chunks))])
    by (by rewrite <- app_assoc).
  by rewrite streamUpdate_snoc, <- app_assoc.
Qed.

(** When the guard lets the call through and the reply streams to its
    end, the send leaves the streamed history. *)
Lemma sendMessage_streams st sentAt openedAt chunks :
  sendBlocked st = false →
  sendMessage st sentAt (Stream openedAt chunks None)
  = ({| chat := chat st;
        history := (streamed st sentAt openedAt chunks).2;
        input := [];
        isLoading := false |},
     [input st]).
Proof. intros Hb. unfold sendMessage. by rewrite Hb. Qed.

(** C4: while the reply streams in, after every chunk the last message of
    [present] has the role [model], no status, and as its one part the
    texts of the chunks received so far, concatenated in arrival order (the
    empty placeholder before the first chunk), which is also what the local
    accumulator holds; a send that streams to its end leaves that message
    last. *)
Theorem streamed_last_is_accumulated_text st sentAt openedAt (chunks : list Chunk) :
  last (present (streamed st sentAt openedAt chunks).2)
  = Some {| role := model;
            parts := [ {| text := foldr app [] (chunk_text <$> chunks) |} ];
            timestamp := default openedAt (chunk_time <$> last chunks);
            status := None |}
  ∧ role <$> last (present (streamed st sentAt openedAt chunks).2) = Some model
  ∧ (λ m, text <$> parts m) <$> last (present (streamed st sentAt openedAt chunks).2)
    = Some [foldr app [] (chunk_text <$> chunks)]
  ∧ (streamed st sentAt openedAt chunks).1 = foldr app [] (chunk_text <$> chunks)
  ∧ (sendBlocked st = false →
      last (present (history (sendMessage st sentAt (Stream openedAt chunks None)).1))
      = Some {| role := model;
                parts := [ {| text := foldr app [] (chunk_text <$> chunks) |} ];
                timestamp := default openedAt (chunk_time <$> last chunks);
                status := None |}).
Proof.
  assert (last (present (streamed st sentAt openedAt chunks).2)
          = Some {| role := model;
                    parts := [ {| text := foldr app [] (chunk_text <$> chunks) |} ];
                    timestamp := default openedAt (chunk_time <$> last chunks);
                    status := None |}) as Hlast.
  { rewrite streamed_history. cbn [present].
    change [userMessage st sentAt;
            modelMessage (joined (chunk_text <$> chunks))
              (default openedAt (chunk_time <$> last chunks))]
      with ([userMessage st sentAt]
            ++ [modelMessage (joined (chunk_text <$> chunks))
                  (default openedAt (chunk_time <$> last chunks))]).
    by rewrite app_assoc, last_snoc. }
  split; [exact Hlast|]. split; [by rewrite Hlast|]. split; [by rewrite Hlast|].
  split; [apply streamed_last_acc|].
  intros Hb. by rewrite (sendMessage_streams _ _ _ _ Hb).
Qed.

End StreamFacts.

Section SendFacts.

Import Js Chat View.

(** The history a send leaves behind, by what the provider did. *)
Lemma sendMessage_history st sentAt reply :
  sendBlocked st = false →
  history (sendMessage st sentAt reply).1
  = match reply with
    | Rejected failedAt =>
        {| past := past (history st)
                   ++ [present (history st);
                       present (history st) ++ [userMessage st sentAt]];
           present := present (history st)
                      ++ [userMessage st sentAt; modelMessage sendErrorText failedAt];
           future := [] |}
    | Stream openedAt chunks None => (streamed st sentAt openedAt chunks).2
    | Stream openedAt chunks (Some failedAt) =>
        {| past := past (history st)
                   ++ [present (history st);
                       present (streamed st sentAt openedAt chunks).2];
           present := present (history st)
                      ++ [userMessage st sentAt; modelMessage sendErrorText failedAt];
           future := [] |}
    end.
Proof.
  intros Hb. unfold sendMessage. rewrite Hb. cbn [fst history].
  destruct reply as [failedAt | openedAt chunks [failedAt|]]; [| |done].
  - unfold failSend, beginSend; cbn [history]. unfold setMessages;
      cbn [past present future].
    f_equal. by rewrite <- app_assoc.
  - rewrite streamed_history. unfold failSend, setMessages; cbn [past present future].
    f_equal. by rewrite <- app_assoc.
Qed.

(** X2: a send that streams to its end is one undo step: the user's
    message and the whole answer are appended to what was shown, one undo
    brings back exactly the list shown before the send (with the exchange
    as the only redo entry), and a redo restores the exchange. *)
Theorem completed_send_is_one_undo_step st sentAt openedAt (chunks : list Chunk) :
  sendBlocked st = false →
  let finished := (sendMessage st sentAt (Stream openedAt chunks None)).1 in
  present (history finished)
  = present (history st)
    ++ [userMessage st sentAt;
        modelMessage (joined (chunk_text <$> chunks))
          (default openedAt (chunk_time <$> last chunks))]
  ∧ handleUndo (history finished)
    = {| past := past (history st);
         present := present (history st);
         future := [present (history finished)] |}
  ∧ handleRedo (handleUndo (history finished)) = history finished.
Proof.
  intros Hb finished. subst finished.
  rewrite (sendMessage_history _ _ _ Hb), streamed_history. cbn [present].
  split; [done|].
  rewrite handleUndo_snoc. split; [done|]. by rewrite handleRedo_cons.
Qed.

(** X3: a send that fails keeps the attempt as an undo step.  When the
    request is rejected, the list with the user's message alone is pushed
    onto the past; when the stream breaks, the list with the partial answer
    is.  Either way [present] ends with the user's message and the error
    message, and one undo shows the attempt without the error. *)
Theorem failed_send_keeps_the_attempt st sentAt failedAt openedAt (chunks : list Chunk) :
  sendBlocked st = false →
  let rejected := history (sendMessage st sentAt (Rejected failedAt)).1 in
  let broken := history (sendMessage st sentAt (Stream openedAt chunks (Some failedAt))).1 in
  let failure :=
    present (history st) ++ [userMessage st sentAt; modelMessage sendErrorText failedAt] in
  present rejected = failure
  ∧ present broken = failure
  ∧ present (handleUndo rejected) = present (history st) ++ [userMessage st sentAt]
  ∧ present (handleUndo broken)
    = present (history st)
      ++ [userMessage st sentAt;
          modelMessage (joined (chunk_text <$> chunks))
            (default openedAt (chunk_time <$> last chunks))]
  ∧ present (handleUndo (handleUndo rejected)) = present (history st)
  ∧ present (handleUndo (handleUndo broken)) = present (history st).
Proof.
  intros Hb rejected broken failure. subst rejected broken failure.
  rewrite !(sendMessage_history _ _ _ Hb), streamed_history. cbn [present].
  replace (past (history st) ++ [present (history st);
             present (history st) ++ [userMessage st sentAt]])
    with ((past (history st) ++ [present (history st)])
          ++ [present (history st) ++ [userMessage st sentAt]])
    by (by rewrite <- app_assoc).
  set (partial := present (history st)
      ++ [userMessage st sentAt;
          modelMessage (joined (chunk_text <$> chunks))
            (default openedAt (chunk_time <$> last chunks))]).
  replace (past (history st) ++ [present (history st); partial])
    with ((past (history st) ++ [present (history st)]) ++ [partial])
    by (by rewrite <- app_assoc).
  by rewrite !handleUndo_snoc.
Qed.


End SendFacts.

(** * Further properties of the chat panel *)

Section TimelineFacts.

Import Chat View.

Lemma timeline_undo h : timeline (handleUndo h) = timeline h.
Proof.
  destruct h as [ps cur fut]. destruct ps as [|p ps' _] using rev_ind; [done|].
  rewrite handleUndo_snoc. unfold timeline; cbn [past present future].
  by rewrite <- app_assoc.
Qed.

Lemma timeline_redo h : timeline (handleRedo h) = timeline h.
Proof.
  destruct h as [ps cur [|f fut]]; [done|].
  rewrite handleRedo_cons. unfold timeline; cbn [past present future].
  by rewrite <- app_assoc.
Qed.

(** X1: undo and redo only move the cursor along the timeline: after any
    sequence of clicks on the two buttons the lists of the history, read
    from the oldest past entry to the last future entry, are the same, and
    [present] is the entry at position [length past]. *)
Theorem undo_redo_keep_timeline (clicks : list bool) (h : History) :
  let h' := foldl (λ h (undo : bool), if undo then handleUndo h else handleRedo h)
              h clicks in
  timeline h' = timeline h
  ∧ length (past h') + length (future h') = length (past h) + length (future h)
  ∧ timeline h !! length (past h') = Some (present h').
Proof.
  cbv zeta.
  assert (timeline (foldl (λ h (undo : bool), if undo then handleUndo h else handleRedo h)
                      h clicks) = timeline h) as Htl.
  { revert h. induction clicks as [|[|] clicks IH]; intros h; [done| |]; cbn [foldl].
    - by rewrite IH, timeline_undo.
    - by rewrite IH, timeline_redo. }
  split; [exact Htl|]. split.
  - apply (f_equal length) in Htl. unfold timeline in Htl.
    rewrite !length_app in Htl. cbn in Htl. lia.
  - rewrite <- Htl. unfold timeline. by rewrite list_lookup_middle.
Qed.

End TimelineFacts.

(** ** Past and future against present *)

Section UpdateFacts.

Import Js Chat View.

Variable stringify : list ChatMessage → str.
Variable parse : str → option (list ChatMessage).

Lemma chained_nil {A} (R : A → A → Prop) : chained R [].
Proof. by intros i x y ?. Qed.









Lemma received_last chunks : ∀ acc,
  last (acc.2 :: received acc chunks) = Some (foldl receive acc chunks).2.
Proof.
  induction chunks as [|c chunks IH]; intros acc; [done|].
  cbn [received foldl]. rewrite <- (IH (receive acc c)). done.
Qed.

(** The values a send gives to [history] end with the history it leaves. *)
Lemma sendUpdates_last st sentAt reply :
  last (history st :: sendUpdates st sentAt reply)
  = Some (history (sendMessage st sentAt reply).1).
Proof.
  unfold sendUpdates, sendMessage. destruct (sendBlocked st); [done|].
  destruct reply as [failedAt | openedAt chunks [failedAt|]]; cbn [fst history].
  - done.
  - by rewrite !last_cons, !last_app.
  - rewrite app_nil_r.
    change (history st :: [history (beginSend st sentAt);
                           openStream st sentAt openedAt (history (beginSend st sentAt))]
            ++ received ([], openStream st sentAt openedAt (history (beginSend st sentAt)))
                 chunks)
      with ([history st; history (beginSend st sentAt)]
            ++ (([] : str, openStream st sentAt openedAt (history (beginSend st sentAt))).2
                :: received ([], openStream st sentAt openedAt (history (beginSend st sentAt)))
                     chunks)).
    rewrite last_app, received_last. done.
Qed.





(** The values an action gives to [history] end with the history it
    leaves. *)
Lemma updates_last p a :
  last (history p.1 :: updates p a) = Some (history (act stringify p a).1).
Proof.
  destruct p as [st storage]. destruct a as [| |confirmed now|typed sentAt reply];
    cbn [updates act fst snd].
  - by destruct (decide (length (past (history st)) = 0)).
  - by destruct (decide (length (future (history st)) = 0)).
  - destruct (decide (length (present (history st)) ≤ 1)); [done|].
    by destruct confirmed.
  - apply (sendUpdates_last (typing typed st)).
Qed.





End UpdateFacts.
(** ** Sending, clearing and persisting *)

Section PanelFacts.

Import Js Chat.

(** C9: under its guard (blank input, no chat session, or a send in
    progress) [sendMessage] returns at once: the state is the one it was
    called on and nothing goes to the provider. *)
Theorem sendMessage_blocked_is_noop (st : State) (sentAt : str) (reply : Reply) :
  blank (input st) = true ∨ chat st = None ∨ isLoading st = true →
  sendMessage st sentAt reply = (st, [])
  ∧ history (sendMessage st sentAt reply).1 = history st
  ∧ input (sendMessage st sentAt reply).1 = input st
  ∧ isLoading (sendMessage st sentAt reply).1 = isLoading st
  ∧ (sendMessage st sentAt reply).2 = [].
Proof.
  intros Hguard.
  assert (sendBlocked st = true) as Hb.
  { unfold sendBlocked. destruct Hguard as [Hblank | [Hchat | Hload]].
    - by rewrite (trim_blank _ Hblank).
    - rewrite Hchat. by rewrite orb_true_r.
    - rewrite Hload. by rewrite orb_true_r. }
  unfold sendMessage. by rewrite Hb.
Qed.

(** Whatever the provider replies, a send that passes the guard ends with
    an empty future. *)
Lemma sendMessage_clears_future st sentAt reply :
  sendBlocked st = false →
  future (history (sendMessage st sentAt reply).1) = [].
Proof.
  intros Hb. unfold sendMessage. rewrite Hb. cbn [fst history].
  destruct reply as [failedAt | openedAt chunks [failedAt|]]; [done|done|].
  by rewrite streamed_history.
Qed.

(** C10: a confirmed clear leaves one greeting as [present], empty [past]
    and [future], and no saved history under the storage key; undo and redo
    then have nothing to act on, and the persistence effect that follows
    writes nothing back. *)
Theorem clear_resets_history (now : str) (h : History)
    (localStorage : gmap str str) :
  (handleClear true now (h, localStorage)).1
  = {| past := []; present := [modelMessage greetingText now]; future := [] |}
  ∧ (handleClear true now (h, localStorage)).2 = delete storageKey localStorage
  ∧ (handleClear true now (h, localStorage)).2 !! storageKey = None
  ∧ handleUndo (handleClear true now (h, localStorage)).1
    = (handleClear true now (h, localStorage)).1
  ∧ handleRedo (handleClear true now (h, localStorage)).1
    = (handleClear true now (h, localStorage)).1
  ∧ (∀ stringify,
        persistEffect stringify (present (handleClear true now (h, localStorage)).1)
          (handleClear true now (h, localStorage)).2
        = delete storageKey localStorage).
Proof.
  cbn [handleClear fst snd]. repeat split. apply lookup_delete_eq.
Qed.

Lemma persistEffect_long (stringify : list ChatMessage → str)
    (messages : list ChatMessage)
    (localStorage : gmap str str) :
  1 < length messages →
  persistEffect stringify messages localStorage
  = <[storageKey := stringify messages]> localStorage.
Proof.
  intros Hlen. unfold persistEffect.
  by destruct (decide (1 < length messages)) as [_|?]; [|lia].
Qed.

Lemma persistEffect_short (stringify : list ChatMessage → str)
    (messages : list ChatMessage)
    (localStorage : gmap str str) :
  length messages ≤ 1 →
  persistEffect stringify messages localStorage = localStorage.
Proof.
  intros Hlen. unfold persistEffect.
  by destruct (decide (1 < length messages)) as [?|_]; [lia|].
Qed.

Lemma initEffect_saved (parse : str → option (list ChatMessage))
    (newChat : Session) (now : str) (localStorage : gmap str str)
    (savedHistory : str) (saved : list ChatMessage) :
  localStorage !! storageKey = Some savedHistory →
  savedHistory ≠ [] →
  parse savedHistory = Some saved →
  initEffect parse (Some newChat) now localStorage
  = (Some newChat, {| past := []; present := saved; future := [] |}).
Proof.
  intros Hget Hne Hparse. unfold initEffect. rewrite Hget.
  destruct savedHistory as [|c s]; [done|]. cbn [truthy].
  by rewrite Hparse.
Qed.

(** C8: a present list of more than one message is serialised and written
    under the storage key; a list of at most one message leaves local
    storage as it is; at mount, once the client is created, a saved
    non-empty string that parses becomes [present], with empty [past] and
    [future]. *)
Theorem history_is_persisted (stringify : list ChatMessage → str)
    (parse : str → option (list ChatMessage)) :
  (∀ messages localStorage,
      1 < length messages →
      persistEffect stringify messages localStorage
      = <[storageKey := stringify messages]> localStorage
      ∧ persistEffect stringify messages localStorage !! storageKey
        = Some (stringify messages))
  ∧ (∀ messages localStorage,
      length messages ≤ 1 →
      persistEffect stringify messages localStorage = localStorage)
  ∧ (∀ newChat now localStorage savedHistory saved,
      localStorage !! storageKey = Some savedHistory →
      savedHistory ≠ [] →
      parse savedHistory = Some saved →
      initEffect parse (Some newChat) now localStorage
      = (Some newChat, {| past := []; present := saved; future := [] |})).
Proof.
  repeat apply conj.
  - intros messages ls Hlen. rewrite persistEffect_long by done.
    split; [done | apply lookup_insert_eq].
  - intros messages ls. apply persistEffect_short.
  - intros newChat now ls savedHistory saved. apply initEffect_saved.
Qed.

(** What the effect saved is what the next mount restores, for a
    serialiser that [parse] inverts. *)
Lemma saved_history_is_restored (stringify : list ChatMessage → str)
    (parse : str → option (list ChatMessage)) (newChat : Session) (now : str)
    (messages : list ChatMessage) (localStorage : gmap str str) :
  1 < length messages →
  stringify messages ≠ [] →
  parse (stringify messages) = Some messages →
  initEffect parse (Some newChat) now (persistEffect stringify messages localStorage)
  = (Some newChat, {| past := []; present := messages; future := [] |}).
Proof.
  intros Hlen Hne Hparse. rewrite persistEffect_long by done.
  apply (initEffect_saved _ _ _ _ (stringify messages)); [|done|done].
  apply lookup_insert_eq.
Qed.

End PanelFacts.

(** ** The live transcript *)

Section TranscriptFacts.

Import Js Num Live Recorder.

Variable decodeAudioData : str → option number.

Lemma pushEntry_spec who t prev :
  pushEntry who t prev
  = prev ++ (if decide (t = []) then [] else [ {| speaker := who; text := t |} ]).
Proof.
  unfold pushEntry. destruct t as [|c t]; cbn [truthy].
  - by rewrite app_nil_r.
  - done.
Qed.

Lemma accumulate_transcripts st message :
  transcripts (accumulate st message) = transcripts st.
Proof.
  unfold accumulate. destruct (serverContent message) as [content|]; [|done].
  by destruct (outputTranscription content), (inputTranscription content).
Qed.

Lemma accumulate_texts st message :
  currentInputTranscription (accumulate st message)
  = currentInputTranscription st ++ heard message
  ∧ currentOutputTranscription (accumulate st message)
    = currentOutputTranscription st ++ said message.
Proof.
  unfold accumulate, heard, said.
  destruct (serverContent message) as [content|]; [|by rewrite !app_nil_r].
  destruct (outputTranscription content), (inputTranscription content);
    cbn; by rewrite ?app_nil_r.
Qed.

Lemma stopPlayback_transcript st message :
  transcripts (stopPlayback st message) = transcripts st
  ∧ currentInputTranscription (stopPlayback st message) = currentInputTranscription st
  ∧ currentOutputTranscription (stopPlayback st message)
    = currentOutputTranscription st.
Proof. unfold stopPlayback. by destruct (flag interrupted message). Qed.

Lemma schedule_transcript st now message :
  transcripts (schedule decodeAudioData st now message).1 = transcripts st
  ∧ currentInputTranscription (schedule decodeAudioData st now message).1
    = currentInputTranscription st
  ∧ currentOutputTranscription (schedule decodeAudioData st now message).1
    = currentOutputTranscription st.
Proof.
  unfold schedule.
  destruct (base64Audio message) as [audio|]; [|done].
  destruct (outputAudioContext st); [|done].
  destruct (truthy audio); [|done]. by destruct (decodeAudioData audio).
Qed.

Lemma onmessage_transcripts st now message :
  transcripts (onmessage decodeAudioData st now message).1
  = transcripts (flushTurn (accumulate st message) message).
Proof.
  unfold onmessage.
  rewrite (proj1 (schedule_transcript _ _ _)).
  by rewrite (proj1 (stopPlayback_transcript _ _)).
Qed.

Lemma onmessage_appends st now message :
  transcripts st `prefix_of` transcripts (onmessage decodeAudioData st now message).1.
Proof.
  rewrite onmessage_transcripts. unfold flushTurn.
  destruct (flag turnComplete message); cbn [transcripts].
  - rewrite !pushEntry_spec, accumulate_transcripts, <- app_assoc.
    apply prefix_app_r. done.
  - by rewrite accumulate_transcripts.
Qed.

Lemma ended_transcript source st :
  transcripts (ended source st) = transcripts st.
Proof. done. Qed.

(** A message that ends no turn leaves the transcript alone and extends
    the accumulators. *)
Lemma onmessage_accumulates st now message :
  flag turnComplete message = false →
  transcripts (onmessage decodeAudioData st now message).1 = transcripts st
  ∧ currentInputTranscription (onmessage decodeAudioData st now message).1
    = currentInputTranscription st ++ heard message
  ∧ currentOutputTranscription (onmessage decodeAudioData st now message).1
    = currentOutputTranscription st ++ said message.
Proof.
  intros Hturn. unfold onmessage.
  destruct (schedule_transcript
              (stopPlayback (flushTurn (accumulate st message) message) message)
              now message) as (-> & -> & ->).
  destruct (stopPlayback_transcript (flushTurn (accumulate st message) message) message)
    as (-> & -> & ->).
  unfold flushTurn. rewrite Hturn.
  destruct (accumulate_texts st message) as [-> ->].
  by rewrite accumulate_transcripts.
Qed.

(** A message that ends a turn flushes what was accumulated, its own
    transcription included. *)
Lemma onmessage_flushes st now message :
  flag turnComplete message = true →
  transcripts (onmessage decodeAudioData st now message).1
  = transcripts st
    ++ entryOf user (currentInputTranscription st ++ heard message)
    ++ entryOf model (currentOutputTranscription st ++ said message)
  ∧ currentInputTranscription (onmessage decodeAudioData st now message).1 = []
  ∧ currentOutputTranscription (onmessage decodeAudioData st now message).1 = [].
Proof.
  intros Hturn. unfold onmessage.
  destruct (schedule_transcript
              (stopPlayback (flushTurn (accumulate st message) message) message)
              now message) as (-> & -> & ->).
  destruct (stopPlayback_transcript (flushTurn (accumulate st message) message) message)
    as (-> & -> & ->).
  unfold flushTurn. rewrite Hturn. cbn [transcripts currentInputTranscription
    currentOutputTranscription].
  destruct (accumulate_texts st message) as [-> ->].
  rewrite !pushEntry_spec, accumulate_transcripts, <- app_assoc. done.
Qed.

(** C6: a message with [turnComplete] appends the trimmed input
    transcription as a user entry and then the trimmed output transcription
    as a model entry, each only when non-empty, and empties both
    accumulators; what is trimmed is the text accumulated before the
    message followed by the transcription the message itself carries (its
    output transcription, or else its input transcription).  Any other
    message leaves the transcript as it is and appends its transcription to
    the accumulator of its kind.  Whatever the message, and over a whole
    session, the transcript only grows at its end. *)
Theorem transcript_is_flushed_on_turn_boundary
    (st : LiveState) (currentTime : number) (message : LiveServerMessage) :
  let heardNow :=
    match serverContent message with
    | Some content =>
        match outputTranscription content, inputTranscription content with
        | None, Some t => transcribed t
        | _, _ => []
        end
    | None => []
    end in
  let saidNow :=
    match serverContent message with
    | Some content =>
        match outputTranscription content with
        | Some t => transcribed t
        | None => []
        end
    | None => []
    end in
  transcripts st
    `prefix_of` transcripts (onmessage decodeAudioData st currentTime message).1
  ∧ (∀ events,
        transcripts st `prefix_of` transcripts (run decodeAudioData st events).1)
  ∧ (flag turnComplete message = true →
      let userText := trim (currentInputTranscription st ++ heardNow) in
      let modelText := trim (currentOutputTranscription st ++ saidNow) in
      transcripts (onmessage decodeAudioData st currentTime message).1
      = transcripts st
        ++ (if decide (userText = []) then []
            else [ {| speaker := user; text := userText |} ])
        ++ (if decide (modelText = []) then []
            else [ {| speaker := model; text := modelText |} ])
      ∧ currentInputTranscription (onmessage decodeAudioData st currentTime message).1
        = []
      ∧ currentOutputTranscription (onmessage decodeAudioData st currentTime message).1
        = [])
  ∧ (flag turnComplete message = false →
      transcripts (onmessage decodeAudioData st currentTime message).1 = transcripts st
      ∧ currentInputTranscription (onmessage decodeAudioData st currentTime message).1
        = currentInputTranscription st ++ heardNow
      ∧ currentOutputTranscription (onmessage decodeAudioData st currentTime message).1
        = currentOutputTranscription st ++ saidNow).
Proof.
  cbv zeta. split; [apply onmessage_appends|]. split; [|split].
  - intros events. revert st. induction events as [|[t m] events IH]; intros st.
    + done.
    + cbn [run fst]. etrans; [apply (onmessage_appends st t m) | apply IH].
  - intros Hturn. apply (onmessage_flushes st currentTime message Hturn).
  - intros Hturn. apply (onmessage_accumulates st currentTime message Hturn).
Qed.

End TranscriptFacts.

(** ** Playback scheduling *)

Section PlanFacts.

Import Num Live.

(** Every frame of the list was decoded. *)
Lemma plan_length fs : ∀ cursor next,
  Forall (λ f : number * option number, is_Some f.2) fs →
  length (plan cursor next fs) = length fs.
Proof.
  induction fs as [|[t [d|]] fs IH]; intros cursor next Hall; [done| |].
  - apply Forall_cons in Hall as [_ Hall]. cbn. by rewrite IH.
  - apply Forall_cons in Hall as [[? [=]] _].
Qed.

Lemma plan_lookup fs : ∀ cursor next k src t d,
  Forall (λ f : number * option number, is_Some f.2) fs →
  plan cursor next fs !! k = Some src →
  fs !! k = Some (t, d) →
  d = Some (duration src)
  ∧ startAt src = Math_max (previousEnd cursor (plan cursor next fs) k) t
  ∧ node src = next + k.
Proof.
  induction fs as [|[t0 [d0|]] fs IH]; intros cursor next k src t d Hall Hsrc Hf; [done| |].
  - apply Forall_cons in Hall as [_ Hall].
    destruct k as [|k]; cbn in Hsrc, Hf.
    + simplify_eq. cbn. split; [done|]. split; [done|lia].
    + destruct (IH _ _ _ _ _ _ Hall Hsrc Hf) as (Hd & Hs & Hn).
      split; [done|]. split; [|lia].
      rewrite Hs. destruct k as [|k]; [reflexivity|].
      assert (is_Some (plan (endAt {| node := next; startAt := Math_max cursor t0;
                                      duration := d0 |}) (S next) fs !! k))
        as [p Hp] by (apply lookup_lt_is_Some; apply lookup_lt_Some in Hsrc; lia).
      unfold previousEnd. rewrite Hp.
      change (plan cursor next ((t0, Some d0) :: fs) !! S k)
        with (plan (endAt {| node := next; startAt := Math_max cursor t0;
                             duration := d0 |}) (S next) fs !! k).
      by rewrite Hp.
  - apply Forall_cons in Hall as [[? [=]] _].
Qed.

(** Clock readings and durations are times. *)
Lemma plan_not_before_cursor fs : ∀ cursor next k src,
  time cursor = true →
  Forall (λ f : number * option number,
            time f.1 = true ∧ ∀ d, f.2 = Some d → time d = true) fs →
  plan cursor next fs !! k = Some src →
  time (startAt src) = true
  ∧ time (endAt src) = true
  ∧ leb cursor (startAt src) = true
  ∧ leb (startAt src) (endAt src) = true.
Proof.
  induction fs as [|[t0 d0] fs IH]; intros cursor next k src Hc Hall Hsrc; [done|].
  apply Forall_cons in Hall as [[Ht0 Hd0] Hall]. cbn [fst snd] in Ht0, Hd0.
  destruct (max_time cursor t0 Hc Ht0) as (Hm & Hcm & _).
  destruct d0 as [d0|]; cbn [plan] in Hsrc.
  - destruct (add_time (Math_max cursor t0) d0 Hm (Hd0 d0 eq_refl)) as [Hs Hle].
    destruct k as [|k]; cbn in Hsrc.
    + simplify_eq. by cbn.
    + destruct (IH _ _ _ _ Hs Hall Hsrc) as (H1 & H2 & H3 & H4).
      split; [done|]. split; [done|]. split; [|done].
      apply (leb_trans _ (Math_max cursor t0)); [done..| |]. 
      * done.
      * by apply (leb_trans _ (add (Math_max cursor t0) d0)).
  - destruct (IH _ _ _ _ Hm Hall Hsrc) as (H1 & H2 & H3 & H4).
    split; [done|]. split; [done|]. split; [|done].
    by apply (leb_trans _ (Math_max cursor t0)).
Qed.

Lemma plan_ordered fs : ∀ cursor next i j a b,
  time cursor = true →
  Forall (λ f : number * option number,
            time f.1 = true ∧ ∀ d, f.2 = Some d → time d = true) fs →
  i < j →
  plan cursor next fs !! i = Some a →
  plan cursor next fs !! j = Some b →
  leb (startAt a) (startAt b) = true ∧ leb (endAt a) (startAt b) = true.
Proof.
  induction fs as [|[t0 d0] fs IH]; intros cursor next i j a b Hc Hall Hij Ha Hb; [done|].
  pose proof Hall as Hall'.
  apply Forall_cons in Hall' as [[Ht0 Hd0] Hrest]. cbn [fst snd] in Ht0, Hd0.
  destruct (max_time cursor t0 Hc Ht0) as (Hm & _ & _).
  destruct d0 as [d0|]; cbn [plan] in Ha, Hb.
  - destruct (add_time (Math_max cursor t0) d0 Hm (Hd0 d0 eq_refl)) as [Hs Hle].
    destruct j as [|j]; [lia|]. cbn in Hb.
    destruct i as [|i]; cbn in Ha.
    + simplify_eq.
      destruct (plan_not_before_cursor _ _ _ _ _ Hs Hrest Hb) as (H1 & _ & H3 & _).
      cbn [startAt endAt duration]. split; [|done].
      by apply (leb_trans _ (add (Math_max cursor t0) d0)).
    + eapply (IH _ _ i j); [exact Hs | done | lia | exact Ha | exact Hb].
  - eapply (IH _ _ i j); [exact Hm | done | lia | exact Ha | exact Hb].
Qed.

End PlanFacts.

Section PlaybackFacts.

Import Js Num Live.

Variable decodeAudioData : str → option number.

Lemma accumulate_cursor st message :
  nextStartTime (accumulate st message) = nextStartTime st
  ∧ created (accumulate st message) = created st
  ∧ outputAudioContext (accumulate st message) = outputAudioContext st.
Proof.
  unfold accumulate. destruct (serverContent message) as [content|]; [|done].
  by destruct (outputTranscription content), (inputTranscription content).
Qed.

Lemma flushTurn_cursor st message :
  nextStartTime (flushTurn st message) = nextStartTime st
  ∧ created (flushTurn st message) = created st
  ∧ outputAudioContext (flushTurn st message) = outputAudioContext st.
Proof. unfold flushTurn. by destruct (flag turnComplete message). Qed.

Lemma stopPlayback_cursor st message :
  flag interrupted message = false →
  stopPlayback st message = st.
Proof. intros H. unfold stopPlayback. by rewrite H. Qed.

(** The cursor after the frames of a list, as [plan] moves it. *)
Lemma frames_cons now message events :
  frames decodeAudioData ((now, message) :: events)
  = frames decodeAudioData [(now, message)] ++ frames decodeAudioData events.
Proof.
  unfold frames. cbn [omap list_omap].
  by destruct (match base64Audio (now, message).2 with
               | Some audio =>
                   if truthy audio
                   then Some ((now, message).1, decodeAudioData audio)
                   else None
               | None => None
               end).
Qed.

Lemma frames_single now message :
  frames decodeAudioData [(now, message)] = []
  ∨ ∃ d, frames decodeAudioData [(now, message)] = [(now, d)].
Proof.
  unfold frames. cbn [omap list_omap snd fst].
  destruct (base64Audio message) as [audio|]; [|by left].
  destruct (truthy audio); [right; by eexists | by left].
Qed.

(** One message without interruption, read off the cursor: either it
    carries no audio and the cursor stays, or the cursor catches up with
    the clock and, when the frame decodes, one source is started there and
    the cursor moves to its end. *)
Lemma onmessage_cursor st now message rest :
  flag interrupted message = false →
  is_Some (outputAudioContext st) →
  (onmessage decodeAudioData st now message).2
  ++ plan (nextStartTime (onmessage decodeAudioData st now message).1)
       (created (onmessage decodeAudioData st now message).1) rest
  = plan (nextStartTime st) (created st)
      (frames decodeAudioData [(now, message)] ++ rest)
  ∧ outputAudioContext (onmessage decodeAudioData st now message).1
    = outputAudioContext st.
Proof.
  intros Hint [ctx Hctx]. unfold onmessage. rewrite (stopPlayback_cursor _ _ Hint).
  destruct (flushTurn_cursor (accumulate st message) message) as (Hn & Hk & Hc).
  destruct (accumulate_cursor st message) as (Hn' & Hk' & Hc').
  rewrite Hn' in Hn. rewrite Hk' in Hk. rewrite Hc', Hctx in Hc.
  unfold schedule, frames. cbn [omap list_omap snd fst]. rewrite Hc.
  destruct (base64Audio message) as [audio|]; cbn; [|by rewrite Hn, Hk, Hc].
  destruct (truthy audio); cbn; [|by rewrite Hn, Hk, Hc].
  destruct (decodeAudioData audio) as [d|]; cbn; by rewrite Hn, Hk, Hc.
Qed.

(** A session without interruption starts exactly the planned sources. *)
Lemma run_follows_plan events : ∀ st,
  is_Some (outputAudioContext st) →
  Forall (λ e : number * LiveServerMessage, flag interrupted e.2 = false) events →
  (run decodeAudioData st events).2
  = plan (nextStartTime st) (created st) (frames decodeAudioData events).
Proof.
  induction events as [|[t m] events IH]; intros st Hctx Hint; [done|].
  apply Forall_cons in Hint as [Hm Hint]. cbn in Hm.
  destruct (onmessage_cursor st t m (frames decodeAudioData events) Hm Hctx)
    as (Hcalls & Hkeep).
  cbn [run fst snd]. rewrite frames_cons, <- Hcalls.
  by rewrite IH; [|rewrite Hkeep|].
Qed.

(** C7: in a session without interruption, with the output context open,
    every frame decoding and the cursor, the clock readings and the
    durations being times, the sources started are one per audio frame, in
    arrival order; each starts at [Math.max] of the scheduled end of the one
    before it (the cursor the session began with, for the first) and the
    clock reading of its handler, the scheduled end of a source being the
    binary64 sum of its start and its duration; start times never decrease
    and no source starts before the scheduled end of an earlier one. *)
Theorem playback_is_gapless (st : LiveState)
    (events : list (number * LiveServerMessage)) :
  is_Some (outputAudioContext st) →
  Forall (λ e : number * LiveServerMessage, flag interrupted e.2 = false) events →
  time (nextStartTime st) = true →
  Forall (λ f : number * option number,
            time f.1 = true ∧ ∃ d, f.2 = Some d ∧ time d = true)
    (frames decodeAudioData events) →
  length (run decodeAudioData st events).2 = length (frames decodeAudioData events)
  ∧ (∀ k source currentTime d,
        (run decodeAudioData st events).2 !! k = Some source →
        frames decodeAudioData events !! k = Some (currentTime, d) →
        d = Some (duration source)
        ∧ startAt source
          = Math_max
              (match k with
               | 0 => nextStartTime st
               | S j =>
                   match (run decodeAudioData st events).2 !! j with
                   | Some previous => add (startAt previous) (duration previous)
                   | None => nextStartTime st
                   end
               end)
              currentTime)
  ∧ (∀ i j a b,
        i < j →
        (run decodeAudioData st events).2 !! i = Some a →
        (run decodeAudioData st events).2 !! j = Some b →
        leb (startAt a) (startAt b) = true
        ∧ leb (add (startAt a) (duration a)) (startAt b) = true).
Proof.
  intros Hctx Hint Hcursor Hframes. rewrite (run_follows_plan events st Hctx Hint).
  assert (Forall (λ f : number * option number, is_Some f.2)
            (frames decodeAudioData events)) as Hdecoded.
  { eapply Forall_impl; [exact Hframes|]. intros f (_ & d & -> & _). by eexists. }
  assert (Forall (λ f : number * option number,
                    time f.1 = true ∧ ∀ d, f.2 = Some d → time d = true)
            (frames decodeAudioData events)) as Htimes.
  { eapply Forall_impl; [exact Hframes|]. intros f (Hf & d & -> & Hd).
    split; [done|]. by intros ? [= <-]. }
  split; [by apply plan_length|]. split.
  - intros k source t d Hk Hf.
    destruct (plan_lookup _ _ _ _ _ _ _ Hdecoded Hk Hf) as (Hd & Hs & _).
    split; [done|]. exact Hs.
  - intros i j a b. by apply plan_ordered.
Qed.

(** *** Handlers whose decoding overlaps *)

Lemma interleaved_not_before_cursor phases : ∀ st k source,
  time (nextStartTime st) = true →
  Forall (λ p, match p with Arrived t => time t = true | Decoded d => time d = true end)
    phases →
  (interleaved st phases).2 !! k = Some source →
  time (startAt source) = true
  ∧ leb (nextStartTime st) (startAt source) = true.
Proof.
  induction phases as [|[t|d] phases IH]; intros st k source Hc Hall Hk; [done| |].
  - apply Forall_cons in Hall as [Ht Hall].
    destruct (max_time (nextStartTime st) t Hc Ht) as (Hm & Hcm & _).
    destruct (IH (catchUp st t) _ _ Hm Hall Hk) as [H1 H2]. cbn in H2.
    split; [done|]. by apply (leb_trans _ (Math_max (nextStartTime st) t)).
  - apply Forall_cons in Hall as [Hd Hall].
    destruct (add_time (nextStartTime st) d Hc Hd) as [Hs Hle].
    cbn in Hk. destruct k as [|k]; cbn in Hk.
    + simplify_eq. cbn. split; [done|]. by apply leb_refl.
    + destruct (IH (startSource st d).1 _ _ Hs Hall Hk) as [H1 H2]. cbn in H2.
      split; [done|]. by apply (leb_trans _ (add (nextStartTime st) d)).
Qed.

(** Whatever the order in which frames arrive and decoded buffers are
    started, no source starts before the scheduled end of a source started
    before it. *)
Lemma interleaved_never_overlaps phases : ∀ st i j a b,
  time (nextStartTime st) = true →
  Forall (λ p, match p with Arrived t => time t = true | Decoded d => time d = true end)
    phases →
  i < j →
  (interleaved st phases).2 !! i = Some a →
  (interleaved st phases).2 !! j = Some b →
  leb (startAt a) (startAt b) = true ∧ leb (endAt a) (startAt b) = true.
Proof.
  induction phases as [|[t|d] phases IH]; intros st i j a b Hc Hall Hij Ha Hb; [done| |].
  - apply Forall_cons in Hall as [Ht Hall].
    destruct (max_time (nextStartTime st) t Hc Ht) as (Hm & _ & _).
    by eapply (IH (catchUp st t)).
  - apply Forall_cons in Hall as [Hd Hall].
    destruct (add_time (nextStartTime st) d Hc Hd) as [Hs Hle].
    cbn in Ha, Hb. destruct j as [|j]; [lia|]. cbn in Hb.
    destruct i as [|i]; cbn in Ha.
    + simplify_eq.
      destruct (interleaved_not_before_cursor phases (startSource st d).1 j b Hs Hall Hb)
        as [H1 H2].
      cbn in H2. unfold endAt. cbn [startAt duration]. split; [|done].
      by apply (leb_trans _ (add (nextStartTime st) d)).
    + eapply (IH (startSource st d).1 i j); [done | done | lia | exact Ha | exact Hb].
Qed.

End PlaybackFacts.

Section PopulatedFacts.

Import Js Chat View.

Lemma populated_setMessages newMessages isStreamingUpdate h :
  newMessages ≠ [] → populated h → populated (setMessages newMessages isStreamingUpdate h).
Proof.
  intros Hne (Hcur & Hpast & Hfut). destruct isStreamingUpdate; cbn.
  - done.
  - split; [done|]. split; [|constructor].
    apply Forall_app. split; [done|]. by constructor.
Qed.

Lemma populated_undo h : populated h → populated (handleUndo h).
Proof.
  destruct h as [ps cur fut]. destruct ps as [|p ps' _] using rev_ind; [done|].
  rewrite handleUndo_snoc. intros (Hcur & Hpast & Hfut); cbn in *.
  apply Forall_app in Hpast as [Hps' Hp].
  apply (proj1 (Forall_singleton _ _)) in Hp.
  split; [exact Hp|]. split; [exact Hps'|]. by constructor.
Qed.

Lemma populated_redo h : populated h → populated (handleRedo h).
Proof.
  destruct h as [ps cur [|f fut]]; [done|].
  rewrite handleRedo_cons. intros (Hcur & Hpast & Hfut); cbn in *.
  apply Forall_cons in Hfut as [Hf Hfut].
  split; [exact Hf|]. split; [|exact Hfut].
  apply Forall_app. split; [exact Hpast|]. by constructor.
Qed.

Lemma populated_streamUpdate acc now h : populated h → populated (streamUpdate acc now h).
Proof.
  intros (Hcur & Hpast & Hfut). split; [|done].
  intros E. apply (f_equal length) in E. rewrite streamUpdate_length in E.
  by apply Hcur, nil_length_inv.
Qed.

Lemma populated_sendMessage st sentAt reply :
  populated (history st) → populated (history (sendMessage st sentAt reply).1).
Proof.
  intros Hpop. destruct (sendBlocked st) eqn:Hb.
  - unfold sendMessage. by rewrite Hb.
  - rewrite (sendMessage_history _ _ _ Hb).
    destruct Hpop as (Hcur & Hpast & Hfut).
    assert (∀ tail : list ChatMessage, tail ≠ [] → present (history st) ++ tail ≠ [])
      as Happ by (intros tail Ht E; by apply app_eq_nil in E as [_ ?]).
    destruct reply as [failedAt | openedAt chunks [failedAt|]];
      rewrite ?streamed_history; cbn [past present future];
      (split; [by apply Happ|]); (split; [|constructor]);
      apply Forall_app; (split; [done|]); repeat constructor; try done;
      by apply Happ.
Qed.

(** X5: once no list of the history is empty, none becomes empty: not by
    undo, redo, a chunk update or a [setMessages] with a non-empty list, in
    any order, and not by a send, whatever the provider replies; a confirmed
    clear establishes it.  A chunk update on such a history therefore always
    finds a last message to overwrite. *)
Theorem history_stays_populated (updates : list Update) (h : History) :
  populated h →
  Forall (λ u, u ≠ SetMessages [] true ∧ u ≠ SetMessages [] false) updates →
  populated (foldl (λ h u, apply u h) h updates)
  ∧ (∀ st sentAt reply,
        history st = foldl (λ h u, apply u h) h updates →
        populated (history (sendMessage st sentAt reply).1))
  ∧ (∀ currentModelMessage now,
        last (present (streamUpdate currentModelMessage now
                         (foldl (λ h u, apply u h) h updates)))
        = Some (modelMessage currentModelMessage now))
  ∧ (∀ now s, populated (handleClear true now s).1).
Proof.
  intros Hpop Hvalid.
  assert (populated (foldl (λ h u, apply u h) h updates)) as Hrun.
  { revert h Hpop. induction Hvalid as [|u us [Hs Hn] _ IH]; intros h Hpop; [done|].
    cbn [foldl]. apply IH. destruct u as [M b| | |acc now]; cbn [apply].
    - apply populated_setMessages; [|done]. intros ->. by destruct b.
    - by apply populated_undo.
    - by apply populated_redo.
    - by apply populated_streamUpdate. }
  split; [exact Hrun|]. split; [|split].
  - intros st sentAt reply Hst. apply populated_sendMessage. by rewrite Hst.
  - intros acc now. apply streamUpdate_last. apply Hrun.
  - intros now s. cbn. split; [done|]. split; constructor.
Qed.

End PopulatedFacts.

Section ViewFacts.

Import Js Chat View.

Lemma typingIndicator_snoc c h messages m i :
  present h = messages ++ [m] →
  typingIndicator {| chat := c; history := h; input := i; isLoading := true |}
  = Some (match role m with user => true | model => false end).
Proof.
  intros E. unfold typingIndicator; cbn [isLoading history]. rewrite E.
  rewrite length_app, Nat.add_1_r.
  replace (S (length messages) - 1) with (length messages) by lia.
  rewrite list_lookup_middle by done. by destruct messages.
Qed.

(** X7: the pulsing dots are rendered from the moment a message is sent
    until the stream opens: they show right after the synchronous part of
    [sendMessage], they are gone once the placeholder is in and stay gone
    after every chunk, and they are not rendered when the send has ended,
    however it ended.  None of these renders reads past the end of the
    list. *)
Theorem typing_indicator_follows_the_send st sentAt openedAt (chunks : list Chunk) :
  sendBlocked st = false →
  typingIndicator (beginSend st sentAt) = Some true
  ∧ typingIndicator
      {| chat := chat st; history := (streamed st sentAt openedAt chunks).2;
         input := []; isLoading := true |} = Some false
  ∧ (∀ reply, typingIndicator (sendMessage st sentAt reply).1 = Some false).
Proof.
  intros Hb. split; [|split].
  - unfold beginSend.
    by rewrite (typingIndicator_snoc _ _ (present (history st)) (userMessage st sentAt)).
  - rewrite (typingIndicator_snoc _ _ (present (history st) ++ [userMessage st sentAt])
               (modelMessage (joined (chunk_text <$> chunks))
                  (default openedAt (chunk_time <$> last chunks)))); [done|].
    rewrite streamed_history. cbn [present]. by rewrite <- app_assoc.
  - intros reply. unfold sendMessage. by rewrite Hb.
Qed.

Lemma handleUndo_moves h : past h ≠ [] → handleUndo h ≠ h.
Proof.
  destruct h as [ps cur fut]; cbn. intros Hps.
  destruct (snoc_inv ps Hps) as (ps' & p & ->). rewrite handleUndo_snoc.
  intros [= E _ _]. by apply (snoc_ne ps' p).
Qed.

Lemma handleRedo_moves h : future h ≠ [] → handleRedo h ≠ h.
Proof.
  destruct h as [ps cur [|f fut]]; [done|]. intros _. rewrite handleRedo_cons.
  intros [= E _ _]. by apply (snoc_ne ps cur).
Qed.

(** X8: the toolbar agrees with the handlers.  Undo and redo are enabled
    exactly when a click changes the history; an enabled clear button
    always changes the list shown; the share button is enabled exactly when
    [handleShare] gets past its guard; and with a chat session the send
    button is enabled exactly when [sendMessage] passes its guard, while
    without a session [sendMessage] does nothing even when the button is
    enabled. *)
Theorem enabled_buttons_act (h : History) (st : State) :
  (undoDisabled h = false ↔ handleUndo h ≠ h)
  ∧ (redoDisabled h = false ↔ handleRedo h ≠ h)
  ∧ (clearDisabled h = false →
      ∀ now localStorage,
        present (handleClear true now (h, localStorage)).1 ≠ present h)
  ∧ (shareDisabled h = false ↔
      ∀ formatTimestamp, handleShare formatTimestamp (present h) ≠ NothingToShare)
  ∧ (chat st ≠ None → (sendDisabled st = false ↔ sendBlocked st = false))
  ∧ (chat st = None → sendBlocked st = true).
Proof.
  split_and!.
  - unfold undoDisabled. rewrite bool_decide_eq_false. split.
    + intros Hlen. apply handleUndo_moves. by intros E; rewrite E in Hlen.
    + intros Hmove Hlen. apply Hmove. apply nil_length_inv in Hlen.
      destruct h as [ps cur fut]; cbn in Hlen; by subst.
  - unfold redoDisabled. rewrite bool_decide_eq_false. split.
    + intros Hlen. apply handleRedo_moves. by intros E; rewrite E in Hlen.
    + intros Hmove Hlen. apply Hmove. apply nil_length_inv in Hlen.
      destruct h as [ps cur fut]; cbn in Hlen; by subst.
  - unfold clearDisabled. rewrite bool_decide_eq_false. intros Hlen now ls E.
    cbn in E. rewrite <- E in Hlen. cbn in Hlen. lia.
  - unfold shareDisabled, handleShare. rewrite bool_decide_eq_false. split.
    + intros Hlen formatTimestamp.
      destruct (decide (length (present h) = 0)); [done|].
      by destruct (mapM _ _).
    + intros Hshare Hlen. apply (Hshare (λ t, t)).
      by destruct (decide (length (present h) = 0)).
  - intros Hchat. unfold sendDisabled, sendBlocked.
    destruct (chat st); [|done].
    destruct (isLoading st), (truthy (trim (input st))); by cbn.
  - intros Hchat. unfold sendBlocked. rewrite Hchat. apply orb_true_iff. left.
    apply orb_true_r.
Qed.

Lemma joinLines_snoc (items : list str) (item : str) :
  items ≠ [] → joinLines (items ++ [item]) = joinLines items ++ newline ++ item.
Proof.
  induction items as [|x items IH]; [done|]. intros _.
  destruct items as [|y items]; [done|].
  change (x ++ newline ++ joinLines ((y :: items) ++ [item])
          = (x ++ newline ++ joinLines (y :: items)) ++ newline ++ item).
  rewrite IH by done. by rewrite <- !app_assoc.
Qed.

Lemma mapM_snoc {A B} (f : A → option B) (l : list A) (x : A) :
  mapM f (l ++ [x]) = ys ← mapM f l; y ← f x; Some (ys ++ [y]).
Proof.
  induction l as [|a l IH]; cbn.
  - by destruct (f x).
  - destruct (f a) as [b|]; [|done]. cbn. rewrite IH.
    destruct (mapM f l) as [ys|]; [|done]. cbn. by destruct (f x).
Qed.

Lemma mapM_all {A B} (f : A → option B) (g : A → B) (l : list A) :
  Forall (λ x, f x = Some (g x)) l → mapM f l = Some (g <$> l).
Proof.
  induction 1 as [|x l Hx _ IH]; [done|]. cbn. rewrite Hx. cbn. by rewrite IH.
Qed.

Lemma mapM_none {A B} (f : A → option B) (l : list A) :
  Exists (λ x, f x = None) l → mapM f l = None.
Proof.
  induction 1 as [x l Hx|x l _ IH]; cbn.
  - by rewrite Hx.
  - destruct (f x); [|done]. cbn. by rewrite IH.
Qed.

(** X9: the conversation is copied one line per message, in order.  For
    a list of messages that all have a part, what goes to the clipboard is
    the lines of the messages joined by newlines, the line of a message
    being its formatted time in brackets, its role capitalised, a colon and
    the text of its first part: one message copies its line, and appending
    a message to a list that copies appends a newline and the line of that
    message.  Nothing is copied for an empty list, and a message without
    parts makes the handler throw before anything reaches the clipboard. *)
Theorem share_copies_one_line_per_message (formatTimestamp : str → str)
    (messages : list ChatMessage) (msg : ChatMessage) :
  let line (m : ChatMessage) : str :=
    js "[" ++ formatTimestamp (timestamp m) ++ js "] "
    ++ match role m with user => js "User" | model => js "Model" end
    ++ js ": " ++ default [] (text <$> parts m !! 0) in
  handleShare formatTimestamp [] = NothingToShare
  ∧ (parts msg ≠ [] → handleShare formatTimestamp [msg] = Copied (line msg))
  ∧ (messages ≠ [] →
      Forall (λ m, parts m ≠ []) messages →
      handleShare formatTimestamp messages = Copied (joinLines (line <$> messages))
      ∧ (parts msg ≠ [] →
          handleShare formatTimestamp (messages ++ [msg])
          = Copied (joinLines (line <$> messages) ++ [10%N] ++ line msg)))
  ∧ (Exists (λ m, parts m = []) messages →
      handleShare formatTimestamp messages = ShareThrew).
Proof.
  intros line.
  assert (∀ m, parts m ≠ [] → shareLine formatTimestamp m = Some (line m)) as Hline.
  { intros m Hm. unfold shareLine, line. destruct (parts m) as [|part rest]; [done|].
    cbn. by destruct (role m). }
  assert (∀ l, l ≠ [] → Forall (λ m, parts m ≠ []) l →
            handleShare formatTimestamp l = Copied (joinLines (line <$> l))) as Hall.
  { intros l Hne Hparts. unfold handleShare.
    destruct (decide (length l = 0)) as [Hlen|_]; [by apply nil_length_inv in Hlen|].
    rewrite (mapM_all _ line); [done|].
    eapply Forall_impl; [exact Hparts|]. exact Hline. }
  split; [done|]. split; [|split].
  - intros Hmsg. by rewrite (Hall [msg]); [| |repeat constructor].
  - intros Hne Hparts. split; [by apply Hall|]. intros Hmsg.
    rewrite Hall.
    + rewrite fmap_app. cbn [fmap list_fmap]. rewrite joinLines_snoc; [done|].
      by destruct messages.
    + by destruct messages.
    + apply Forall_app. split; [done|]. by repeat constructor.
  - intros Hnone. unfold handleShare.
    destruct (decide (length messages = 0)) as [Hlen|_].
    + apply nil_length_inv in Hlen. subst. by apply Exists_nil in Hnone.
    + rewrite mapM_none; [done|].
      eapply Exists_impl; [exact Hnone|]. intros m Hm. unfold shareLine. by rewrite Hm.
Qed.

End ViewFacts.

(** ** Local storage along the life of the panel *)

Section StorageFacts.

Import Js Chat View.

Variable stringify : list ChatMessage → str.
Variable parse : str → option (list ChatMessage).

Lemma persistEffect_other (messages : list ChatMessage) (localStorage : gmap str str)
    (key : str) :
  key ≠ storageKey →
  persistEffect stringify messages localStorage !! key = localStorage !! key.
Proof.
  intros Hkey. unfold persistEffect.
  destruct (decide (1 < length messages)); [|done]. by rewrite lookup_insert_ne.
Qed.

Lemma persistEffect_synced (messages : list ChatMessage) (localStorage : gmap str str) :
  1 < length messages →
  persistEffect stringify messages localStorage !! storageKey
  = Some (stringify messages).
Proof. intros Hlen. rewrite persistEffect_long by done. apply lookup_insert_eq. Qed.

Lemma persistEffect_key (messages : list ChatMessage) (localStorage : gmap str str) :
  persistEffect stringify messages localStorage !! storageKey
  = localStorage !! storageKey
  ∨ ∃ saved, 1 < length saved
      ∧ persistEffect stringify messages localStorage !! storageKey
        = Some (stringify saved).
Proof.
  unfold persistEffect. destruct (decide (1 < length messages)) as [Hlen|]; [|by left].
  right. exists messages. split; [done|]. apply lookup_insert_eq.
Qed.

(** The storage an action leaves: what its handler did to it, then the
    effect on every list the action installed. *)
Lemma act_storage p a :
  (act stringify p a).2
  = foldl (λ storage h, persistEffect stringify (present h) storage)
      (match a with
       | ClickClear true _ =>
           if decide (length (present (history p.1)) ≤ 1) then p.2
           else delete storageKey p.2
       | _ => p.2
       end)
      (updates p a).
Proof.
  destruct p as [st storage].
  destruct a as [| |confirmed now|typed sentAt reply]; cbn [act updates fst snd].
  - by destruct (decide (length (past (history st)) = 0)).
  - by destruct (decide (length (future (history st)) = 0)).
  - destruct (decide (length (present (history st)) ≤ 1)); [by destruct confirmed|].
    by destruct confirmed.
  - done.
Qed.

Lemma effects_other (hs : list History) : ∀ (localStorage : gmap str str) (key : str),
  key ≠ storageKey →
  foldl (λ storage h, persistEffect stringify (present h) storage) localStorage hs !! key
  = localStorage !! key.
Proof.
  induction hs as [|h hs IH]; intros localStorage key Hkey; [done|].
  cbn [foldl]. rewrite IH by done. by apply persistEffect_other.
Qed.

Lemma effects_key (hs : list History) : ∀ localStorage : gmap str str,
  foldl (λ storage h, persistEffect stringify (present h) storage) localStorage hs
    !! storageKey
  = localStorage !! storageKey
  ∨ ∃ saved, 1 < length saved
      ∧ foldl (λ storage h, persistEffect stringify (present h) storage) localStorage hs
          !! storageKey
        = Some (stringify saved).
Proof.
  induction hs as [|h hs IH]; intros localStorage; [by left|].
  cbn [foldl].
  destruct (IH (persistEffect stringify (present h) localStorage)) as [Hsame|Hsaved];
    [|by right].
  rewrite Hsame. apply persistEffect_key.
Qed.

Lemma act_other p a (key : str) :
  key ≠ storageKey → (act stringify p a).2 !! key = p.2 !! key.
Proof.
  intros Hkey. rewrite act_storage, effects_other by done.
  destruct a as [| |[|] now|]; try done.
  destruct (decide (length (present (history p.1)) ≤ 1)); [done|].
  by rewrite lookup_delete_ne.
Qed.

(** Whenever more than one message is shown, the key holds that list. *)
Lemma act_synced p a :
  (1 < length (present (history p.1)) →
    p.2 !! storageKey = Some (stringify (present (history p.1)))) →
  1 < length (present (history (act stringify p a).1)) →
  (act stringify p a).2 !! storageKey
  = Some (stringify (present (history (act stringify p a).1))).
Proof.
  intros Hsync Hlen. pose proof (updates_last stringify p a) as Hlast.
  rewrite act_storage.
  destruct (decide (updates p a = [])) as [Hnone|Hsome].
  - rewrite Hnone in *. cbn in Hlast. injection Hlast as Hlast.
    rewrite <- Hlast in *. cbn [foldl].
    destruct a as [| |[|] now|]; try by apply Hsync.
    destruct p as [st storage]. cbn [updates fst snd] in *.
    destruct (decide (length (present (history st)) ≤ 1)); [lia|done].
  - destruct (snoc_inv _ Hsome) as (hs & h & Hupdates). rewrite Hupdates in *.
    rewrite app_comm_cons, last_snoc in Hlast. injection Hlast as Hlast.
    rewrite <- Hlast in *. rewrite foldl_app. cbn [foldl].
    by apply persistEffect_synced.
Qed.

Lemma act_key p a :
  (act stringify p a).2 !! storageKey = p.2 !! storageKey
  ∨ (act stringify p a).2 !! storageKey = None
  ∨ ∃ saved, 1 < length saved
      ∧ (act stringify p a).2 !! storageKey = Some (stringify saved).
Proof.
  rewrite act_storage.
  destruct (effects_key (updates p a)
              (match a with
               | ClickClear true _ =>
                   if decide (length (present (history p.1)) ≤ 1) then p.2
                   else delete storageKey p.2
               | _ => p.2
               end)) as [Hsame|Hsaved]; [|by right; right].
  rewrite Hsame. destruct a as [| |[|] now|]; try by left.
  destruct (decide (length (present (history p.1)) ≤ 1)); [by left|].
  right; left. apply lookup_delete_eq.
Qed.

Lemma mount_synced (created : option Session) (now : str)
    (localStorage : gmap str str) :
  1 < length (present (history (mount stringify parse created now localStorage).1)) →
  (mount stringify parse created now localStorage).2 !! storageKey
  = Some (stringify (present (history (mount stringify parse created now localStorage).1))).
Proof. intros Hlen. by apply persistEffect_synced. Qed.

Lemma session_synced actions : ∀ p,
  (1 < length (present (history p.1)) →
    p.2 !! storageKey = Some (stringify (present (history p.1)))) →
  1 < length (present (history (session stringify p actions).1)) →
  (session stringify p actions).2 !! storageKey
  = Some (stringify (present (history (session stringify p actions).1))).
Proof.
  unfold session. induction actions as [|a actions IH] using rev_ind; intros p Hsync.
  - done.
  - rewrite foldl_app. cbn [foldl]. apply act_synced. by apply IH.
Qed.

(** X6: from the mount on, over any sequence of clicks on undo, redo and
    clear and of sends, the panel touches no key of local storage but its
    own; whenever more than one message is shown, the key holds exactly the
    list shown, serialised; and what the key holds is at any time the value
    found at the mount, nothing, or a serialised list of more than one
    message. *)
Theorem storage_follows_the_shown_list (created : option Session) (now : str)
    (localStorage : gmap str str)
    (actions : list Action) :
  (∀ key, key ≠ storageKey →
      (session stringify (mount stringify parse created now localStorage) actions).2 !! key
      = localStorage !! key)
  ∧ (1 < length (present (history (session stringify
                         (mount stringify parse created now localStorage) actions).1)) →
      (session stringify (mount stringify parse created now localStorage) actions).2
        !! storageKey
      = Some (stringify (present (history (session stringify
                  (mount stringify parse created now localStorage) actions).1))))
  ∧ ((session stringify (mount stringify parse created now localStorage) actions).2
       !! storageKey
     = localStorage !! storageKey
     ∨ (session stringify (mount stringify parse created now localStorage) actions).2
         !! storageKey = None
     ∨ ∃ saved, 1 < length saved
         ∧ (session stringify (mount stringify parse created now localStorage) actions).2
             !! storageKey
           = Some (stringify saved)).
Proof.
  split; [|split].
  - intros key Hkey. unfold session.
    induction actions as [|a actions IH] using rev_ind.
    + cbn. by apply persistEffect_other.
    + rewrite foldl_app. cbn [foldl]. by rewrite act_other.
  - apply session_synced. apply mount_synced.
  - unfold session. induction actions as [|a actions IH] using rev_ind.
    + cbn [foldl]. unfold mount. cbn [snd].
      destruct (persistEffect_key (present (initEffect parse created now localStorage).2)
                  localStorage) as [Hsame|Hsaved]; [by left | by right; right].
    + rewrite foldl_app. cbn [foldl].
      destruct (act_key (foldl (act stringify)
                           (mount stringify parse created now localStorage) actions) a)
        as [Hsame | [Hnone | Hsaved]].
      * by rewrite Hsame.
      * by right; left.
      * by right; right.
Qed.

(** X26: what is shown comes back after a reload.  Whenever more than one
    message is shown, mounting the panel again on the local storage left
    behind restores exactly the list shown, with empty past and future: the
    undo history does not survive the reload.  This is for a serialisation
    that [parse] inverts on that list and that is not the empty string.  And
    right after a confirmed clear the key is gone, so that the next mount
    greets anew. *)
Theorem reload_restores_the_shown_list (created : option Session) (now : str)
    (localStorage : gmap str str)
    (actions : list Action) (newChat : Session) (later : str) :
  (1 < length (present (history (session stringify
                         (mount stringify parse created now localStorage) actions).1)) →
   stringify (present (history (session stringify
                (mount stringify parse created now localStorage) actions).1)) ≠ [] →
   parse (stringify (present (history (session stringify
                (mount stringify parse created now localStorage) actions).1)))
   = Some (present (history (session stringify
                (mount stringify parse created now localStorage) actions).1)) →
   initEffect parse (Some newChat) later
     (session stringify (mount stringify parse created now localStorage) actions).2
   = (Some newChat,
      {| past := [];
         present := present (history (session stringify
                       (mount stringify parse created now localStorage) actions).1);
         future := [] |}))
  ∧ (∀ cleared,
        1 < length (present (history (session stringify
                       (mount stringify parse created now localStorage) actions).1)) →
        initEffect parse (Some newChat) later
          (act stringify
             (session stringify (mount stringify parse created now localStorage) actions)
             (ClickClear true cleared)).2
        = (Some newChat,
           {| past := []; present := [modelMessage greetingText later]; future := [] |})).
Proof.
  split.
  - intros Hlen Hfull Hparse.
    apply (initEffect_saved _ _ _ _
             (stringify (present (history (session stringify
                 (mount stringify parse created now localStorage) actions).1))));
      [|done|done].
    apply session_synced; [apply mount_synced | done].
  - intros cleared Hlen.
    set (p := session stringify (mount stringify parse created now localStorage) actions)
      in *.
    assert ((act stringify p (ClickClear true cleared)).2 !! storageKey = None) as Hgone.
    { destruct p as [st storage]. cbn [act fst snd updates] in *.
      destruct (decide (length (present (history st)) ≤ 1)); [lia|].
      cbn. apply lookup_delete_eq. }
    unfold initEffect. by rewrite Hgone.
Qed.

End StorageFacts.

(** * Further properties of the live session *)

Section TurnFacts.

Import Js Num Live Recorder.

Variable decodeAudioData : str → option number.

Lemma run_app st (before after : list (number * LiveServerMessage)) :
  run decodeAudioData st (before ++ after)
  = ((run decodeAudioData (run decodeAudioData st before).1 after).1,
     (run decodeAudioData st before).2
     ++ (run decodeAudioData (run decodeAudioData st before).1 after).2).
Proof.
  revert st. induction before as [|[t m] before IH]; intros st; cbn [run app fst snd].
  - by destruct (run decodeAudioData st after).
  - rewrite IH. cbn [fst snd]. by rewrite app_assoc.
Qed.

Lemma run_accumulates events : ∀ st,
  Forall (λ e : number * LiveServerMessage, flag turnComplete e.2 = false) events →
  transcripts (run decodeAudioData st events).1 = transcripts st
  ∧ currentInputTranscription (run decodeAudioData st events).1
    = currentInputTranscription st ++ joined (heard <$> events.*2)
  ∧ currentOutputTranscription (run decodeAudioData st events).1
    = currentOutputTranscription st ++ joined (said <$> events.*2).
Proof.
  induction events as [|[t m] events IH]; intros st Hquiet.
  - cbn. by rewrite !app_nil_r.
  - apply Forall_cons in Hquiet as [Hm Hquiet]. cbn in Hm.
    destruct (onmessage_accumulates decodeAudioData st t m Hm) as (Ht & Hi & Ho).
    destruct (IH (onmessage decodeAudioData st t m).1 Hquiet) as (Ht' & Hi' & Ho').
    cbn [run fst fmap list_fmap snd]. rewrite Ht', Hi', Ho', Ht, Hi, Ho.
    unfold joined. cbn [foldr]. by rewrite <- !app_assoc.
Qed.

(** A whole turn: messages that end no turn, then one that does. *)
Lemma run_turn st (events : list (number * LiveServerMessage)) now final :
  Forall (λ e : number * LiveServerMessage, flag turnComplete e.2 = false) events →
  flag turnComplete final = true →
  transcripts (run decodeAudioData st (events ++ [(now, final)])).1
  = transcripts st
    ++ entryOf user (currentInputTranscription st
                     ++ joined (heard <$> (events.*2 ++ [final])))
    ++ entryOf model (currentOutputTranscription st
                      ++ joined (said <$> (events.*2 ++ [final])))
  ∧ currentInputTranscription (run decodeAudioData st (events ++ [(now, final)])).1 = []
  ∧ currentOutputTranscription (run decodeAudioData st (events ++ [(now, final)])).1 = [].
Proof.
  intros Hquiet Hturn. rewrite run_app. cbn [fst run].
  destruct (run_accumulates events st Hquiet) as (Ht & Hi & Ho).
  destruct (onmessage_flushes decodeAudioData (run decodeAudioData st events).1
              now final Hturn) as (-> & -> & ->).
  rewrite Ht, Hi, Ho, !fmap_app. cbn [fmap list_fmap].
  by rewrite !joined_snoc, <- !app_assoc.
Qed.

(** X10: a turn is flushed as a whole.  However the transcriptions of a
    turn are cut into messages, when the message with [turnComplete]
    arrives the transcript gains the trimmed concatenation of all input
    texts as one user entry and of all output texts as one model entry
    (each if non-empty), where a message carrying both kinds contributes its
    output text only; both accumulators are empty afterwards. *)
Theorem turn_is_flushed_whole st (events : list (number * LiveServerMessage)) now final :
  Forall (λ e : number * LiveServerMessage, flag turnComplete e.2 = false) events →
  flag turnComplete final = true →
  let heardInTurn :=
    currentInputTranscription st ++ joined (heard <$> (events.*2 ++ [final])) in
  let saidInTurn :=
    currentOutputTranscription st ++ joined (said <$> (events.*2 ++ [final])) in
  transcripts (run decodeAudioData st (events ++ [(now, final)])).1
  = transcripts st
    ++ (if decide (trim heardInTurn = []) then []
        else [ {| speaker := user; text := trim heardInTurn |} ])
    ++ (if decide (trim saidInTurn = []) then []
        else [ {| speaker := model; text := trim saidInTurn |} ])
  ∧ currentInputTranscription (run decodeAudioData st (events ++ [(now, final)])).1 = []
  ∧ currentOutputTranscription (run decodeAudioData st (events ++ [(now, final)])).1 = [].
Proof. intros Hquiet Hturn. by apply run_turn. Qed.

(** X11: a turn in which only white space was transcribed leaves no trace:
    the transcript is the one before the turn. *)
Theorem blank_turn_adds_no_entry st (events : list (number * LiveServerMessage))
    now final :
  Forall (λ e : number * LiveServerMessage, flag turnComplete e.2 = false) events →
  flag turnComplete final = true →
  blank (currentInputTranscription st
         ++ joined (heard <$> (events.*2 ++ [final]))) = true →
  blank (currentOutputTranscription st
         ++ joined (said <$> (events.*2 ++ [final]))) = true →
  transcripts (run decodeAudioData st (events ++ [(now, final)])).1 = transcripts st.
Proof.
  intros Hquiet Hturn Hin Hout.
  rewrite (proj1 (run_turn st events now final Hquiet Hturn)).
  unfold entryOf. rewrite (trim_blank _ Hin), (trim_blank _ Hout). cbn.
  by rewrite app_nil_r.
Qed.

End TurnFacts.

Section PlayingFacts.

Import Js Num Live Recorder.

Variable decodeAudioData : str → option number.

Lemma accumulate_playing st message :
  playingSources (accumulate st message) = playingSources st.
Proof.
  unfold accumulate. destruct (serverContent message) as [content|]; [|done].
  by destruct (outputTranscription content), (inputTranscription content).
Qed.

Lemma flushTurn_playing st message :
  playingSources (flushTurn st message) = playingSources st.
Proof. unfold flushTurn. by destruct (flag turnComplete message). Qed.







Lemma onmessage_without_context st now message :
  outputAudioContext st = None →
  (onmessage decodeAudioData st now message).2 = []
  ∧ outputAudioContext (onmessage decodeAudioData st now message).1 = None
  ∧ (playingSources st = [] →
      playingSources (onmessage decodeAudioData st now message).1 = [])
  ∧ (nextStartTime st = zero →
      nextStartTime (onmessage decodeAudioData st now message).1 = zero).
Proof.
  intros Hctx. unfold onmessage.
  destruct (flushTurn_cursor (accumulate st message) message) as (Hn & _ & Hc).
  destruct (accumulate_cursor st message) as (Hn' & _ & Hc').
  rewrite Hn' in Hn. rewrite Hc', Hctx in Hc.
  pose proof (flushTurn_playing (accumulate st message) message) as Hp.
  rewrite accumulate_playing in Hp.
  set (mid := flushTurn (accumulate st message) message) in *.
  assert (outputAudioContext (stopPlayback mid message) = None) as Hc2
    by (unfold stopPlayback; by destruct (flag interrupted message)).
  assert (schedule decodeAudioData (stopPlayback mid message) now message
          = (stopPlayback mid message, [])) as ->.
  { unfold schedule. rewrite Hc2. by destruct (base64Audio message). }
  cbn [fst snd]. split; [done|]. split; [done|].
  unfold stopPlayback. destruct (flag interrupted message); cbn; [done|].
  rewrite Hp, Hn. done.
Qed.

Lemma run_without_context events : ∀ st,
  outputAudioContext st = None →
  playingSources st = [] →
  nextStartTime st = zero →
  (run decodeAudioData st events).2 = []
  ∧ outputAudioContext (run decodeAudioData st events).1 = None
  ∧ playingSources (run decodeAudioData st events).1 = []
  ∧ nextStartTime (run decodeAudioData st events).1 = zero.
Proof.
  induction events as [|[t m] events IH]; intros st Hctx Hplay Hnext; [done|].
  destruct (onmessage_without_context st t m Hctx) as (Hcalls & Hctx' & Hplay' & Hnext').
  cbn [run fst snd]. rewrite Hcalls.
  by apply IH; [| apply Hplay' | apply Hnext'].
Qed.

(** X13: messages that arrive after [stopRecording] play nothing: no
    source is started, the playing set stays empty, the cursor stays at 0
    and the output context stays released, whatever the messages carry. *)
Theorem late_messages_play_nothing (r : Recorder)
    (events : list (number * LiveServerMessage)) :
  (run decodeAudioData (live (stopRecording r)) events).2 = []
  ∧ playingSources (run decodeAudioData (live (stopRecording r)) events).1 = []
  ∧ nextStartTime (run decodeAudioData (live (stopRecording r)) events).1 = zero
  ∧ outputAudioContext (run decodeAudioData (live (stopRecording r)) events).1 = None.
Proof.
  destruct (run_without_context events (live (stopRecording r)))
    as (? & ? & ? & ?); done.
Qed.

End PlayingFacts.


Section SessionFacts.

Import Js Num Live Recorder.

Variable decodeAudioData : str → option number.

Lemma onmessage_context st now message :
  outputAudioContext (onmessage decodeAudioData st now message).1 = outputAudioContext st.
Proof.
  unfold onmessage.
  destruct (flushTurn_cursor (accumulate st message) message) as (_ & _ & Hc).
  destruct (accumulate_cursor st message) as (_ & _ & Hc'). rewrite Hc' in Hc.
  set (mid := flushTurn (accumulate st message) message) in *.
  assert (outputAudioContext (stopPlayback mid message) = outputAudioContext st) as Hc2
    by (unfold stopPlayback; by destruct (flag interrupted message)).
  unfold schedule.
  destruct (base64Audio message) as [audio|]; [|exact Hc2].
  destruct (outputAudioContext (stopPlayback mid message)) eqn:E; [|cbn; congruence].
  destruct (truthy audio); [|cbn; congruence].
  destruct (decodeAudioData audio); cbn; congruence.
Qed.

Lemma step_settled s e : settled s → settled (step decodeAudioData s e).
Proof.
  destruct s as [r cbs]. unfold settled. intros (Hcb & Hon & Hoff); cbn [fst snd] in *.
  destruct e as [succeeded | granted | now message | | | source]; cbn [step fst snd].
  - destruct (isRecording r) eqn:Hrec.
    + split; [done|]. by split.
    + unfold startRecording. rewrite Hrec. destruct succeeded; cbn [fst snd].
      * split; [by intros ? [= <-]|]. split; [by eauto|done].
      * split; [done|]. by split.
  - destruct cbs as [cb|]; [|by split]. cbn [fst snd].
    split; [done|]. unfold onopen. by destruct granted.
  - destruct cbs as [cb|]; [|by split]. cbn [fst snd isRecording live sessionPromise withLive].
    split; [done|]. split.
    + intros Hrec. rewrite onmessage_context. by apply Hon.
    + intros Hrec. destruct (Hoff Hrec) as (Hctx & Hsess & Hplay & Hnext).
      destruct (onmessage_without_context decodeAudioData (live r) now message Hctx)
        as (_ & Hctx' & Hplay' & Hnext').
      by split; [|split; [|split]]; [| | apply Hplay' | apply Hnext'].
  - destruct cbs as [cb|]; [|by split]. cbn [fst snd].
    unfold onclose. rewrite (Hcb cb eq_refl). by split.
  - destruct cbs as [cb|]; [|by split]. cbn [fst snd].
    unfold onerror. rewrite (Hcb cb eq_refl). by split.
  - cbn [fst snd withLive isRecording live sessionPromise ended outputAudioContext
         playingSources nextStartTime].
    split; [done|]. split; [done|].
    intros Hrec. destruct (Hoff Hrec) as (Hctx & Hsess & Hplay & Hnext).
    rewrite Hplay. by cbn.
Qed.

Lemma session_settled events : settled (session decodeAudioData events).
Proof.
  unfold session. induction events as [|e events IH] using rev_ind.
  - cbn. split; [done|]. by split.
  - rewrite foldl_app. cbn [foldl]. by apply step_settled.
Qed.

(** X14: the recording flag and the playback side go together.  After any
    sequence of clicks, session callbacks and 'ended' events, starting from
    the first render: while [isRecording] is set, the output context and
    the session are there; while it is not, the output context and the
    session are released, nothing is playing and the cursor is at 0, so
    that every session begins scheduling from the clock. *)
Theorem recording_flag_matches_playback (events : list Event) :
  (isRecording (session decodeAudioData events).1 = true →
    is_Some (outputAudioContext (live (session decodeAudioData events).1))
    ∧ sessionPromise (session decodeAudioData events).1 = true)
  ∧ (isRecording (session decodeAudioData events).1 = false →
      outputAudioContext (live (session decodeAudioData events).1) = None
      ∧ sessionPromise (session decodeAudioData events).1 = false
      ∧ playingSources (live (session decodeAudioData events).1) = []
      ∧ nextStartTime (live (session decodeAudioData events).1) = zero).
Proof. apply (session_settled events). Qed.

(** X15: the callbacks of a session never stop the recording.  They close
    over the [isRecording] of the render that started the session, which is
    false, so when the connection closes or fails only the status changes:
    the recording flag, the refs and the playback state stay as they are,
    until the button is clicked. *)
Theorem session_callbacks_never_stop (events : list Event) :
  (∀ callbacks, (session decodeAudioData events).2 = Some callbacks →
      closedOver callbacks = false)
  ∧ (step decodeAudioData (session decodeAudioData events) Closed).1
    = match (session decodeAudioData events).2 with
      | Some _ => withStatus (js "Connection closed") (session decodeAudioData events).1
      | None => (session decodeAudioData events).1
      end
  ∧ (step decodeAudioData (session decodeAudioData events) Errored).1
    = match (session decodeAudioData events).2 with
      | Some _ => withStatus (js "Error") (session decodeAudioData events).1
      | None => (session decodeAudioData events).1
      end.
Proof.
  destruct (session_settled events) as (Hcb & _).
  split; [exact Hcb|].
  destruct (session decodeAudioData events) as [r [cb|]]; cbn [step fst snd] in *; [|done].
  unfold onclose, onerror. by rewrite (Hcb cb eq_refl).
Qed.

(** X16: a start that throws ends idle, not in error, and can be retried:
    with the recording flag off before the click, the [catch] branch leaves
    the flag off, every ref released, an empty transcript and the status
    'Idle' (the 'Error' it sets first is overwritten by [stopRecording]); a
    second click is then let through by the guard. *)
Theorem failed_start_ends_idle (r : Recorder) :
  isRecording r = false →
  (startRecording r false).1
  = {| isRecording := false; status := js "Idle"; sessionPromise := false;
       mediaStream := false; inputAudioContext := false; scriptProcessor := false;
       live := {| transcripts := []; currentInputTranscription := [];
                  currentOutputTranscription := []; nextStartTime := zero;
                  playingSources := []; created := created (live r);
                  outputAudioContext := None |} |}
  ∧ (startRecording r false).2 = None
  ∧ isRecording (startRecording (startRecording r false).1 true).1 = true
  ∧ (startRecording (startRecording r false).1 true).2 = Some {| closedOver := false |}.
Proof. intros Hrec. unfold startRecording. rewrite Hrec. by cbn. Qed.

End SessionFacts.

(** * Text to speech *)

Section SpeechFacts.

Import Js Speech.

(** X17: [generateAndPlay] does nothing for text that is empty or white
    space only, or while a buffer plays.  Otherwise it sends at most one
    request, with the text and the voice selected: none when building the
    client throws, one in every other case.  It ends in one of two ways: a
    buffer was started, which happens exactly when a response came back with
    non-empty audio data, an output context was at hand or could be created,
    and the data could be decoded; then the playing flag is on, the error is
    cleared and the context is open.  Or nothing was started, the flag is
    off and the failure text shows.  When the buffer ends the flag goes off,
    so that the next call passes the guard again. *)
Theorem generateAndPlay_outcomes (st : State) (attempt : Attempt) :
  (blank (text st) = true ∨ isPlaying st = true →
    generateAndPlay st attempt = (st, [], []))
  ∧ (blank (text st) = false → isPlaying st = false →
      (generateAndPlay st attempt).1.2
      = match attempt with
        | ClientThrew => []
        | _ => [ {| contents := text st; voiceName := voice st |} ]
        end
      ∧ (generateAndPlay st attempt).2
        = match attempt with
          | Responded (Some base64Audio) contextCreated true =>
              if truthy base64Audio
                 && match audioContext st with
                    | Some open => true
                    | _ => contextCreated
                    end
              then [base64Audio] else []
          | _ => []
          end
      ∧ ((generateAndPlay st attempt).2 ≠ [] →
          isPlaying (generateAndPlay st attempt).1.1 = true
          ∧ error (generateAndPlay st attempt).1.1 = []
          ∧ audioContext (generateAndPlay st attempt).1.1 = Some open)
      ∧ ((generateAndPlay st attempt).2 = [] →
          isPlaying (generateAndPlay st attempt).1.1 = false
          ∧ error (generateAndPlay st attempt).1.1 = failureText)
      ∧ text (generateAndPlay st attempt).1.1 = text st
      ∧ isPlaying (onended (generateAndPlay st attempt).1.1) = false).
Proof.
  split.
  - intros Hguard. unfold generateAndPlay.
    destruct Hguard as [Hblank | Hplay].
    + by rewrite (trim_blank _ Hblank).
    + rewrite Hplay. by rewrite orb_true_r.
  - intros Htext Hplay. unfold generateAndPlay.
    rewrite trim_truthy, Htext, Hplay. cbn [negb orb].
    destruct attempt as [| |[audio|] contextCreated decoded]; cbn; [done..| |].
    + destruct (truthy audio), (audioContext st) as [[|]|], contextCreated, decoded;
        cbn; repeat split; done.
    + destruct (audioContext st) as [[|]|], contextCreated; cbn; repeat split; done.
Qed.

End SpeechFacts.

(** * The renderer of model messages *)

Section SplitFacts.

Import Js Markdown.

Lemma joined_cons (piece : str) (pieces : list str) :
  joined (piece :: pieces) = piece ++ joined pieces.
Proof. done. Qed.

Lemma joined_splitFrom matchAt (s : str) : ∀ skip,
  joined (splitFrom matchAt true skip s) = drop skip s.
Proof.
  induction s as [|c s IH]; intros skip.
  - by destruct skip.
  - cbn [splitFrom]. destruct skip as [|k]; [|by rewrite IH].
    rewrite drop_0.
    assert (joined match splitFrom matchAt true 0 s with
                   | piece :: pieces => (c :: piece) :: pieces
                   | [] => [[c]]
                   end = c :: s) as Hplain.
    { specialize (IH 0). rewrite drop_0 in IH.
      destruct (splitFrom matchAt true 0 s) as [|piece pieces].
      - cbn in IH. by rewrite <- IH.
      - rewrite joined_cons in *. cbn [app]. by rewrite IH. }
    destruct (matchAt (c :: s)) as [[|n]|]; [done| |done].
    cbn [app]. rewrite !joined_cons, IH. cbn [take app].
    by rewrite take_drop.
Qed.

(** X18: both capturing splits of the renderer keep every character:
    the blocks of a message, concatenated in order, are the message, and the
    parts of a line of text, concatenated in order, are the line. *)
Theorem splitting_keeps_every_character (content : str) :
  joined (split fenceAt true content) = content
  ∧ joined (split inlineAt true content) = content.
Proof. split; apply (joined_splitFrom _ content 0). Qed.

End SplitFacts.


Section TextFacts.

Import Js Markdown.

Lemma startsWith_app (p s : str) : startsWith p (p ++ s) = true.
Proof. unfold startsWith. apply bool_decide_eq_true. by rewrite take_app_length. Qed.

Lemma endsWith_app (s suffix : str) : endsWith suffix (s ++ suffix) = true.
Proof.
  unfold endsWith. apply bool_decide_eq_true. rewrite length_app.
  split; [lia|].
  replace (length s + length suffix - length suffix) with (length s) by lia.
  by rewrite drop_app_length.
Qed.

Lemma slice_between (opening body closing : str) :
  slice (length opening) (length closing) (opening ++ body ++ closing) = body.
Proof.
  unfold slice. rewrite !length_app, drop_app_length.
  replace (length opening + (length body + length closing)
           - length closing - length opening)
    with (length body) by lia.
  by rewrite take_app_length.
Qed.

Lemma startsWith_other (a c : N) (p s : str) :
  c ≠ a → startsWith (a :: p) (c :: s) = false.
Proof.
  intros Hne. unfold startsWith. apply bool_decide_eq_false. cbn. congruence.
Qed.

Lemma startsWith_empty (a : N) (p : str) : startsWith (a :: p) [] = false.
Proof. done. Qed.

Lemma every_impl (p q : N → bool) (s : str) :
  (∀ c, p c = true → q c = true) → forallb p s = true → forallb q s = true.
Proof.
  intros Hpq. induction s as [|c s IH]; [done|]. cbn.
  intros [Hc Hs]%andb_true_iff. by rewrite (Hpq c Hc), IH.
Qed.

Lemma every_trimStart (p : N → bool) (s : str) :
  forallb p s = true → forallb p (trimStart s) = true.
Proof.
  induction s as [|c s IH]; [done|]. cbn [trimStart].
  destruct (isWhiteSpace c); [|done].
  cbn. intros [_ Hs]%andb_true_iff. by apply IH.
Qed.

Lemma every_trimEnd (p : N → bool) (s : str) :
  forallb p s = true → forallb p (trimEnd s) = true.
Proof.
  induction s as [|c s IH]; [done|]. cbn [trimEnd forallb].
  intros [Hc Hs]%andb_true_iff. specialize (IH Hs).
  destruct (trimEnd s) as [|k kept].
  - destruct (isWhiteSpace c); [done|]. cbn. by rewrite Hc.
  - cbn [forallb] in *. by rewrite Hc.
Qed.

Lemma every_trim (p : N → bool) (s : str) :
  forallb p s = true → forallb p (trim s) = true.
Proof. intros Hs. by apply every_trimEnd, every_trimStart. Qed.

End TextFacts.


Section RenderFacts.

Import Js Markdown.

(** A separator that can only start at certain code units finds nothing
    in a text without them. *)
Lemma splitFrom_plain matchAt capture (starts : N → bool) (s : str) :
  (∀ c rest, starts c = false → matchAt (c :: rest) = None) →
  forallb (λ c, negb (starts c)) s = true →
  splitFrom matchAt capture 0 s = [s].
Proof.
  intros Hnone. induction s as [|c s IH]; [done|]. cbn [forallb splitFrom].
  intros [Hc Hs]%andb_true_iff. apply negb_true_iff in Hc.
  by rewrite (Hnone c s Hc), (IH Hs).
Qed.

Lemma splitFrom_skip matchAt capture (matched rest : str) :
  splitFrom matchAt capture (length matched) (matched ++ rest)
  = splitFrom matchAt capture 0 rest.
Proof.
  induction matched as [|c matched IH]; [by destruct rest|]. exact IH.
Qed.

(** The first match of a text: what precedes it, the match, and the split
    of what follows. *)
Lemma splitFrom_match matchAt (starts : N → bool) (before matched rest : str) :
  (∀ c rest, starts c = false → matchAt (c :: rest) = None) →
  forallb (λ c, negb (starts c)) before = true →
  matched ≠ [] →
  matchAt (matched ++ rest) = Some (length matched) →
  splitFrom matchAt true 0 (before ++ matched ++ rest)
  = before :: matched :: splitFrom matchAt true 0 rest.
Proof.
  intros Hnone Hbefore Hne Hmatch.
  induction before as [|c before IH].
  - destruct matched as [|c matched]; [done|].
    cbn [app splitFrom] in *. rewrite Hmatch. cbn [length app].
    rewrite <- (splitFrom_skip matchAt true matched rest).
    f_equal. f_equal. cbn [take]. f_equal. apply take_app_length.
  - cbn [forallb] in Hbefore. apply andb_true_iff in Hbefore as [Hc Hbefore].
    apply negb_true_iff in Hc.
    cbn [app splitFrom]. by rewrite (Hnone c _ Hc), (IH Hbefore).
Qed.

Lemma splitFrom_separator matchAt (starts : N → bool) (before matched rest : str) :
  (∀ c rest, starts c = false → matchAt (c :: rest) = None) →
  forallb (λ c, negb (starts c)) before = true →
  matched ≠ [] →
  matchAt (matched ++ rest) = Some (length matched) →
  splitFrom matchAt false 0 (before ++ matched ++ rest)
  = before :: splitFrom matchAt false 0 rest.
Proof.
  intros Hnone Hbefore Hne Hmatch.
  induction before as [|c before IH].
  - destruct matched as [|c matched]; [done|].
    cbn [app splitFrom] in *. rewrite Hmatch. cbn [length app].
    by rewrite <- (splitFrom_skip matchAt false matched rest).
  - cbn [forallb] in Hbefore. apply andb_true_iff in Hbefore as [Hc Hbefore].
    apply negb_true_iff in Hc.
    cbn [app splitFrom]. by rewrite (Hnone c _ Hc), (IH Hbefore).
Qed.

Lemma inlineAt_none c rest :
  isStar c || isBacktick c = false → inlineAt (c :: rest) = None.
Proof. intros [Hs Hb]%orb_false_iff. cbn. by rewrite Hs, Hb. Qed.

Lemma fenceAt_none c rest : isBacktick c = false → fenceAt (c :: rest) = None.
Proof. intros Hc. destruct rest as [|b [|c' rest]]; cbn; by rewrite ?Hc. Qed.

Lemma breakAt_none c rest : isNewline c = false → breakAt (c :: rest) = None.
Proof. intros Hc. unfold breakAt. cbn. by rewrite Hc. Qed.

Lemma newlineAt_none c rest : isNewline c = false → newlineAt (c :: rest) = None.
Proof. intros Hc. cbn. by rewrite Hc. Qed.

Lemma closingFence_cons c rest :
  isBacktick c = false → closingFence (c :: rest) = S <$> closingFence rest.
Proof.
  intros Hc. destruct rest as [|b [|c' rest]]; [done|done|].
  cbn [closingFence]. by rewrite Hc.
Qed.

Lemma closingFence_body (body rest : str) :
  forallb (λ c, negb (isBacktick c)) body = true →
  closingFence (body ++ fence ++ rest) = Some (length body).
Proof.
  induction body as [|c body IH]; [done|]. cbn [forallb].
  intros [Hc Hbody]%andb_true_iff. apply negb_true_iff in Hc.
  cbn [app length]. by rewrite (closingFence_cons _ _ Hc), (IH Hbody).
Qed.

Lemma closeWith_body isClose (body : str) (closing : N) (rest : str) :
  forallb (λ c, negb (isClose c) && negb (isLineTerminator c)) body = true →
  isClose closing = true →
  closeWith isClose (body ++ closing :: rest) = Some (length body).
Proof.
  intros Hbody Hclose. induction body as [|c body IH].
  - cbn [app closeWith]. by rewrite Hclose.
  - cbn [forallb] in Hbody. apply andb_true_iff in Hbody as [Hc Hbody].
    apply andb_true_iff in Hc as [Hc Hlt]. apply negb_true_iff in Hc, Hlt.
    cbn [app closeWith length]. by rewrite Hc, Hlt, (IH Hbody).
Qed.

Lemma closeStrong_cons c rest :
  isStar c = false → isLineTerminator c = false →
  closeStrong (c :: rest) = S <$> closeStrong rest.
Proof.
  intros Hc Hlt. destruct rest as [|b rest]; [done|].
  cbn [closeStrong]. by rewrite Hc, Hlt.
Qed.

Lemma closeStrong_body (body rest : str) :
  forallb (λ c, negb (isStar c) && negb (isLineTerminator c)) body = true →
  closeStrong (body ++ strongMark ++ rest) = Some (length body).
Proof.
  induction body as [|c body IH]; [done|]. cbn [forallb].
  intros [Hc Hbody]%andb_true_iff.
  apply andb_true_iff in Hc as [Hc Hlt]. apply negb_true_iff in Hc, Hlt.
  cbn [app length]. by rewrite (closeStrong_cons _ _ Hc Hlt), (IH Hbody).
Qed.

(** A part that neither starts with a star nor with a backtick is plain
    text. *)
Lemma renderPart_plain (part : str) :
  forallb (λ c, negb (isStar c || isBacktick c)) part = true →
  renderPart part = Plain part.
Proof.
  destruct part as [|c part]; [done|]. cbn [forallb].
  intros [Hc _]%andb_true_iff. apply negb_true_iff, orb_false_iff in Hc as [Hs Hb].
  apply N.eqb_neq in Hs, Hb.
  unfold renderPart.
  change strongMark with (42%N :: [42%N]). change emMark with [42%N].
  change codeMark with [96%N].
  by rewrite !startsWith_other.
Qed.

Lemma renderInline_plain (content : str) :
  forallb (λ c, negb (isStar c || isBacktick c)) content = true →
  renderInline content = [Plain content].
Proof.
  intros Hplain. unfold renderInline, split.
  rewrite (splitFrom_plain _ _ (λ c, isStar c || isBacktick c)); [|exact inlineAt_none|done].
  cbn. by rewrite renderPart_plain.
Qed.

Lemma isItem_plain (line : str) :
  forallb (λ c, negb (isDash c || isStar c)) line = true → isItem line = false.
Proof.
  intros Hline%every_trimStart. unfold isItem.
  destruct (trimStart line) as [|marker [|next rest]]; [done|done|].
  cbn [forallb] in Hline. apply andb_true_iff in Hline as [Hc _].
  apply negb_true_iff in Hc. by rewrite Hc.
Qed.

Lemma startsWith_fence (content : str) :
  forallb (λ c, negb (isBacktick c)) content = true →
  startsWith fence content = false.
Proof.
  destruct content as [|c content]; [done|]. cbn [forallb].
  intros [Hc _]%andb_true_iff. apply negb_true_iff, N.eqb_neq in Hc.
  by apply startsWith_other.
Qed.

(** X19: a line of plain text is one paragraph of that text: a message
    without star, backtick, dash and newline that is not white space only
    renders as a single paragraph whose only part is the message,
    unchanged, white space at its ends included. *)
Theorem plain_line_is_one_paragraph (content : str) :
  forallb (λ c, negb (isStar c || isBacktick c || isDash c || isNewline c)) content
  = true →
  blank content = false →
  render content = [Paragraph [Plain content]].
Proof.
  intros Hplain Hblank.
  assert (forallb (λ c, negb (isBacktick c)) content = true) as Hticks
    by (eapply every_impl; [|exact Hplain]; intros c; cbn;
        by destruct (isStar c), (isBacktick c), (isDash c), (isNewline c)).
  assert (forallb (λ c, negb (isNewline c)) content = true) as Hlines
    by (eapply every_impl; [|exact Hplain]; intros c; cbn;
        by destruct (isStar c), (isBacktick c), (isDash c), (isNewline c)).
  assert (forallb (λ c, negb (isStar c || isBacktick c)) content = true) as Hmarks
    by (eapply every_impl; [|exact Hplain]; intros c; cbn;
        by destruct (isStar c), (isBacktick c), (isDash c), (isNewline c)).
  assert (forallb (λ c, negb (isDash c || isStar c)) content = true) as Hitems
    by (eapply every_impl; [|exact Hplain]; intros c; cbn;
        by destruct (isStar c), (isBacktick c), (isDash c), (isNewline c)).
  unfold render, split.
  rewrite (splitFrom_plain _ _ isBacktick); [|exact fenceAt_none|done].
  cbn [fmap list_fmap mjoin list_join]. rewrite app_nil_r.
  unfold renderBlock. rewrite (startsWith_fence _ Hticks).
  cbn [andb]. unfold split.
  rewrite (splitFrom_plain _ _ isNewline); [|exact breakAt_none|done].
  cbn [fmap list_fmap mjoin list_join]. rewrite app_nil_r.
  unfold renderSubBlock. rewrite trim_truthy, Hblank. cbn [negb].
  unfold split.
  rewrite (splitFrom_plain _ _ isNewline);
    [|exact newlineAt_none|by apply every_trim].
  cbn [length forallb]. rewrite isItem_plain by (by do 2 apply every_trim).
  cbn. by rewrite renderInline_plain.
Qed.

Lemma renderPart_strong (body : str) :
  renderPart (strongMark ++ body ++ strongMark) = Strong body.
Proof.
  unfold renderPart. rewrite startsWith_app.
  rewrite (app_assoc strongMark body strongMark), endsWith_app, <- app_assoc.
  cbn [andb]. f_equal. apply (slice_between strongMark body strongMark).
Qed.

Lemma renderPart_em (c : N) (body : str) :
  isStar c = false →
  renderPart (emMark ++ (c :: body) ++ emMark) = Em (c :: body).
Proof.
  intros Hc. apply N.eqb_neq in Hc. unfold renderPart.
  assert (startsWith strongMark (emMark ++ (c :: body) ++ emMark) = false) as ->.
  { change strongMark with (42%N :: [42%N]).
    change (emMark ++ (c :: body) ++ emMark) with (42%N :: c :: body ++ emMark).
    unfold startsWith. apply bool_decide_eq_false. cbn [length take]. congruence. }
  cbn [andb]. rewrite startsWith_app.
  rewrite (app_assoc emMark (c :: body) emMark), endsWith_app, <- app_assoc.
  cbn [andb]. f_equal. apply (slice_between emMark (c :: body) emMark).
Qed.

Lemma renderPart_code (body : str) :
  renderPart (codeMark ++ body ++ codeMark) = InlineCode body.
Proof.
  unfold renderPart.
  assert (∀ p, startsWith (42%N :: p) (codeMark ++ body ++ codeMark) = false) as Hstar
    by (intros p; by apply startsWith_other).
  change strongMark with (42%N :: [42%N]). change emMark with (42%N :: []).
  rewrite !Hstar. cbn [andb]. rewrite startsWith_app.
  rewrite (app_assoc codeMark body codeMark), endsWith_app, <- app_assoc.
  cbn [andb]. f_equal. apply (slice_between codeMark body codeMark).
Qed.

(** X20: inline markup renders as its element and nothing else is
    touched.  After text without stars and backticks, two stars, a body
    without star and line terminator (LF, CR, U+2028, U+2029), and two stars
    render as the text before, the body in bold, and the rendering of the
    rest; likewise one star around a non-empty body renders the body as
    emphasis, and one backtick around a body without backtick and line
    terminator renders it as code. *)
Theorem inline_markup_renders_its_body (before body rest : str) :
  forallb (λ c, negb (isStar c || isBacktick c)) before = true →
  (forallb (λ c, negb (isStar c) && negb (isLineTerminator c)) body = true →
    renderInline (before ++ strongMark ++ body ++ strongMark ++ rest)
    = Plain before :: Strong body :: renderInline rest)
  ∧ (body ≠ [] →
      forallb (λ c, negb (isStar c) && negb (isLineTerminator c)) body = true →
      renderInline (before ++ emMark ++ body ++ emMark ++ rest)
      = Plain before :: Em body :: renderInline rest)
  ∧ (forallb (λ c, negb (isBacktick c) && negb (isLineTerminator c)) body = true →
      renderInline (before ++ codeMark ++ body ++ codeMark ++ rest)
      = Plain before :: InlineCode body :: renderInline rest).
Proof.
  intros Hbefore. split; [|split].
  - intros Hbody. unfold renderInline, split.
    replace (before ++ strongMark ++ body ++ strongMark ++ rest)
      with (before ++ (strongMark ++ body ++ strongMark) ++ rest)
      by (by rewrite <- !app_assoc).
    rewrite (splitFrom_match inlineAt (λ c, isStar c || isBacktick c));
      [|exact inlineAt_none|done|done|].
    + cbn [fmap list_fmap]. by rewrite renderPart_plain, renderPart_strong.
    + rewrite <- !app_assoc.
      change (strongMark ++ body ++ strongMark ++ rest)
        with (42%N :: 42%N :: body ++ strongMark ++ rest).
      cbn [inlineAt]. change (isStar 42%N) with true. cbn match.
      rewrite (closeStrong_body _ _ Hbody), !length_app. cbn. f_equal; lia.
  - intros Hne Hbody. destruct body as [|c body]; [done|].
    pose proof Hbody as Hc. cbn [forallb] in Hc.
    apply andb_true_iff in Hc as [Hc _]. apply andb_true_iff in Hc as [Hc _].
    apply negb_true_iff in Hc.
    unfold renderInline, split.
    replace (before ++ emMark ++ (c :: body) ++ emMark ++ rest)
      with (before ++ (emMark ++ (c :: body) ++ emMark) ++ rest)
      by (by rewrite <- !app_assoc).
    rewrite (splitFrom_match inlineAt (λ c, isStar c || isBacktick c));
      [|exact inlineAt_none|done|done|].
    + cbn [fmap list_fmap]. by rewrite renderPart_plain, renderPart_em.
    + rewrite <- !app_assoc.
      change (emMark ++ (c :: body) ++ emMark ++ rest)
        with (42%N :: c :: body ++ 42%N :: rest).
      cbn [inlineAt]. change (isStar 42%N) with true. rewrite Hc. cbn match.
      change (c :: body ++ 42%N :: rest) with ((c :: body) ++ 42%N :: rest).
      rewrite (closeWith_body isStar _ 42%N rest Hbody eq_refl), !length_app.
      cbn. f_equal; lia.
  - intros Hbody. unfold renderInline, split.
    replace (before ++ codeMark ++ body ++ codeMark ++ rest)
      with (before ++ (codeMark ++ body ++ codeMark) ++ rest)
      by (by rewrite <- !app_assoc).
    rewrite (splitFrom_match inlineAt (λ c, isStar c || isBacktick c));
      [|exact inlineAt_none|done|done|].
    + cbn [fmap list_fmap]. by rewrite renderPart_plain, renderPart_code.
    + rewrite <- !app_assoc.
      change (codeMark ++ body ++ codeMark ++ rest)
        with (96%N :: body ++ 96%N :: rest).
      cbn [inlineAt]. change (isStar 96%N) with false.
      change (isBacktick 96%N) with true. cbn match.
      rewrite (closeWith_body isBacktick _ 96%N rest Hbody eq_refl), !length_app.
      cbn. f_equal; lia.
Qed.

Lemma renderBlock_fenced (body : str) :
  renderBlock (fence ++ body ++ fence) = [CodeBlock (trim body)].
Proof.
  unfold renderBlock. rewrite startsWith_app.
  rewrite (app_assoc fence body fence), endsWith_app, <- app_assoc. cbn [andb].
  do 3 f_equal. apply (slice_between fence body fence).
Qed.

(** X21: a fenced block is one code block.  After text without backticks,
    three backticks, a body without backtick and three backticks render as
    the rendering of the text before, one code block with the body less the
    white space and line terminators at its ends (a language tag on the
    fence line is part of it), and the rendering of what follows. *)
Theorem fenced_code_is_one_block (before body rest : str) :
  forallb (λ c, negb (isBacktick c)) before = true →
  forallb (λ c, negb (isBacktick c)) body = true →
  render (before ++ fence ++ body ++ fence ++ rest)
  = renderBlock before ++ CodeBlock (trim body) :: render rest.
Proof.
  intros Hbefore Hbody. unfold render, split.
  replace (before ++ fence ++ body ++ fence ++ rest)
    with (before ++ (fence ++ body ++ fence) ++ rest)
    by (by rewrite <- !app_assoc).
  rewrite (splitFrom_match fenceAt isBacktick); [|exact fenceAt_none|done|done|].
  - cbn [fmap list_fmap mjoin list_join]. by rewrite renderBlock_fenced.
  - rewrite <- !app_assoc.
    change (fence ++ body ++ fence ++ rest)
      with (96%N :: 96%N :: 96%N :: body ++ fence ++ rest).
    cbn [fenceAt]. change (isBacktick 96%N) with true. cbn match.
    rewrite (closingFence_body _ _ Hbody), !length_app. cbn. f_equal; lia.
Qed.

Lemma whiteSpace_no_backtick c : isWhiteSpace c = true → negb (isBacktick c) = true.
Proof.
  unfold isBacktick. destruct (c =? 96)%N eqn:E; [|done].
  apply N.eqb_eq in E. by rewrite E.
Qed.

Lemma splitFrom_blank matchAt (s : str) : ∀ skip,
  blank s = true →
  Forall (λ piece, blank piece = true) (splitFrom matchAt false skip s).
Proof.
  unfold blank.
  induction s as [|c s IH]; intros skip Hs; [by repeat constructor|].
  cbn [forallb] in Hs. apply andb_true_iff in Hs as [Hc Hs].
  cbn [splitFrom]. destruct skip as [|k]; [|by apply IH].
  assert (Forall (λ piece, forallb isWhiteSpace piece = true)
            match splitFrom matchAt false 0 s with
            | piece :: pieces => (c :: piece) :: pieces
            | [] => [[c]]
            end) as Hplain.
  { specialize (IH 0 Hs). destruct (splitFrom matchAt false 0 s) as [|piece pieces].
    - repeat constructor. cbn. by rewrite Hc.
    - apply Forall_cons in IH as [Hpiece Hpieces]. constructor; [|done].
      cbn. by rewrite Hc, Hpiece. }
  destruct (matchAt (c :: s)) as [[|n]|]; [done| |done].
  cbn [app]. constructor; [done|]. by apply IH.
Qed.

Lemma blank_subBlocks (pieces : list str) :
  Forall (λ piece, blank piece = true) pieces →
  mjoin (renderSubBlock <$> pieces) = [].
Proof.
  induction 1 as [|piece pieces Hpiece _ IH]; [done|].
  change (renderSubBlock piece ++ mjoin (renderSubBlock <$> pieces) = []).
  rewrite IH, app_nil_r.
  unfold renderSubBlock. by rewrite trim_truthy, Hpiece.
Qed.

(** X22: a message of white space and line terminators only renders
    nothing at all. *)
Theorem blank_message_renders_nothing (content : str) :
  blank content = true → render content = [].
Proof.
  intros Hblank.
  assert (forallb (λ c, negb (isBacktick c)) content = true) as Hticks.
  { eapply every_impl; [|exact Hblank]. exact whiteSpace_no_backtick. }
  unfold render, split.
  rewrite (splitFrom_plain _ _ isBacktick); [|exact fenceAt_none|done].
  cbn [fmap list_fmap mjoin list_join]. rewrite app_nil_r.
  unfold renderBlock. rewrite (startsWith_fence _ Hticks).
  cbn [andb]. unfold split.
  by apply blank_subBlocks, splitFrom_blank.
Qed.

(** Splitting at newlines undoes joining with newlines. *)
Lemma split_joinLines (lines : list str) :
  lines ≠ [] →
  Forall (λ line, forallb (λ c, negb (isNewline c)) line = true) lines →
  split newlineAt false (View.joinLines lines) = lines.
Proof.
  intros Hne Hlines. unfold split.
  induction Hlines as [|line lines Hline Hlines IH]; [done|].
  destruct lines as [|next lines].
  - cbn [View.joinLines].
    by rewrite (splitFrom_plain _ _ isNewline); [|exact newlineAt_none|].
  - change (View.joinLines (line :: next :: lines))
      with (line ++ View.newline ++ View.joinLines (next :: lines)).
    rewrite (splitFrom_separator newlineAt isNewline);
      [|exact newlineAt_none|done|done|done].
    by rewrite IH.
Qed.

Lemma trimEnd_app (a b : str) :
  trimEnd b ≠ [] → trimEnd (a ++ b) = a ++ trimEnd b.
Proof.
  intros Hb. induction a as [|c a IH]; [done|].
  cbn [app trimEnd]. rewrite IH.
  destruct (a ++ trimEnd b) eqn:E; [|done].
  destruct a; [|done]. by destruct (trimEnd b).
Qed.

Lemma trimEnd_joinLines (lines : list str) :
  lines ≠ [] →
  Forall (λ line, trimEnd line = line ∧ line ≠ []) lines →
  trimEnd (View.joinLines lines) = View.joinLines lines
  ∧ View.joinLines lines ≠ [].
Proof.
  intros Hne Hlines.
  induction Hlines as [|line lines [Hline Hfull] Hlines IH]; [done|].
  destruct lines as [|next lines]; [done|].
  destruct (IH ltac:(done)) as [Hrest Hrest'].
  change (View.joinLines (line :: next :: lines))
    with (line ++ View.newline ++ View.joinLines (next :: lines)).
  split; [|by destruct line].
  rewrite !trimEnd_app, Hrest; [done|by rewrite Hrest|].
  rewrite trimEnd_app, Hrest by (by rewrite Hrest).
  done.
Qed.

Lemma marker_is_not_space (marker : N) :
  isDash marker || isStar marker = true →
  isWhiteSpace marker = false ∧ isNewline marker = false.
Proof.
  unfold isDash, isStar, isNewline.
  intros [H|H]%orb_true_iff; apply N.eqb_eq in H; by rewrite H.
Qed.

(** X23: a bulleted list renders one item per line, markers removed.  A
    sub-block whose lines are a dash or a star, a space and an item, the
    items being non-empty, without newline and without white space or line
    terminator at their ends, renders as one list whose entries are the
    renderings of the items, in order. *)
Theorem bullet_lines_render_as_list (marker : N) (items : list str) :
  isDash marker || isStar marker = true →
  items ≠ [] →
  Forall (λ item,
            item ≠ []
            ∧ trimStart item = item
            ∧ trimEnd item = item
            ∧ forallb (λ c, negb (isNewline c)) item = true) items →
  renderSubBlock (View.joinLines ((λ item, marker :: 32%N :: item) <$> items))
  = [BulletList (renderInline <$> items)].
Proof.
  intros Hmarker Hne Hitems.
  destruct (marker_is_not_space marker Hmarker) as [Hspace Hnewline].
  set (line := λ item : str, marker :: 32%N :: item).
  assert (∀ item, trimEnd item = item → item ≠ [] →
            trimEnd (line item) = line item) as HtrimEnd.
  { intros item Hitem Hfull. unfold line.
    change (marker :: 32%N :: item) with ([marker; 32%N] ++ item).
    rewrite trimEnd_app, Hitem; [done|by rewrite Hitem]. }
  assert (Forall (λ l, trimEnd l = l ∧ l ≠ []) (line <$> items)) as Hends.
  { apply Forall_fmap. eapply Forall_impl; [exact Hitems|].
    intros item (Hfull & _ & Hend & _). cbn. split; [by apply HtrimEnd|done]. }
  assert (Forall (λ l, forallb (λ c, negb (isNewline c)) l = true) (line <$> items))
    as Hsingle.
  { apply Forall_fmap. eapply Forall_impl; [exact Hitems|].
    intros item (_ & _ & _ & Hnl). cbn. by rewrite Hnewline. }
  assert (line <$> items ≠ []) as Hne' by (by destruct items).
  destruct (trimEnd_joinLines _ Hne' Hends) as [Hend Hfull].
  assert (trim (View.joinLines (line <$> items)) = View.joinLines (line <$> items))
    as Htrim.
  { unfold trim.
    assert (trimStart (View.joinLines (line <$> items))
            = View.joinLines (line <$> items)) as ->; [|done].
    destruct items as [|item [|next items]]; [done| |];
      cbn [fmap list_fmap View.joinLines]; unfold line at 1.
    - cbn [trimStart]. by rewrite Hspace.
    - cbn [app trimStart]. by rewrite Hspace. }
  unfold renderSubBlock. rewrite Htrim.
  destruct (View.joinLines (line <$> items)) eqn:Hjoined; [done|].
  cbn [truthy negb]. rewrite <- Hjoined.
  rewrite (split_joinLines _ Hne' Hsingle).
  assert ((0 <? length (line <$> items)) = true) as ->
    by (destruct items; [done|by cbn]).
  assert (forallb (λ l, isItem (trim l)) (line <$> items) = true) as ->.
  { apply forallb_forall. intros entry Hentry. apply list_elem_of_In in Hentry.
    apply list_elem_of_fmap in Hentry as (item & -> & Hitem).
    rewrite Forall_forall in Hitems.
    destruct (Hitems item Hitem) as (Hfull' & _ & Hend' & _).
    unfold trim.
    assert (trimStart (line item) = line item) as ->
      by (unfold line; cbn [trimStart]; by rewrite Hspace).
    rewrite (HtrimEnd item Hend' Hfull').
    unfold isItem, line. cbn [trimStart]. rewrite Hspace.
    destruct item; [done|]. by rewrite Hmarker. }
  cbn [andb]. do 2 f_equal.
  rewrite <- list_fmap_compose. apply Forall_fmap_ext.
  eapply Forall_impl; [exact Hitems|].
  intros item (Hfull' & Hstart & _ & _). cbn. f_equal.
  unfold stripMarker, line. cbn [trimStart]. rewrite Hspace.
  rewrite Hmarker. change (isWhiteSpace 32%N) with true. cbn [andb].
  cbv iota. change (trimStart (32%N :: item)) with (trimStart item).
  exact Hstart.
Qed.

End RenderFacts.

(** * Handlers that overlap *)

Section OverlapFacts.

Import Js Num Chat Live.

(** X24: a chunk that arrives after an undo lands on the restored list.
    When undo is clicked while an answer streams in, the list shown before
    the send comes back, and the next chunk overwrites its last message
    with the answer received so far; the list with the user's message and
    the placeholder stays available as the redo entry. *)
Theorem chunk_after_undo_overwrites_restored_message st sentAt openedAt
    (chunks : list Chunk) currentModelMessage now earlier lastShown :
  present (history st) = earlier ++ [lastShown] →
  present (streamUpdate currentModelMessage now
             (handleUndo (streamed st sentAt openedAt chunks).2))
  = earlier ++ [modelMessage currentModelMessage now]
  ∧ future (streamUpdate currentModelMessage now
              (handleUndo (streamed st sentAt openedAt chunks).2))
    = [present (streamed st sentAt openedAt chunks).2]
  ∧ past (streamUpdate currentModelMessage now
            (handleUndo (streamed st sentAt openedAt chunks).2))
    = past (history st).
Proof.
  intros Hshown. rewrite streamed_history, handleUndo_snoc, Hshown.
  by rewrite streamUpdate_snoc.
Qed.

(** A handler that runs alone is one arrival followed by one start. *)
Lemma schedule_two_phases (decodeAudioData : str → option number) st now message
    audio bufferDuration :
  base64Audio message = Some audio →
  truthy audio = true →
  is_Some (outputAudioContext st) →
  decodeAudioData audio = Some bufferDuration →
  schedule decodeAudioData st now message
  = interleaved st [Arrived now; Decoded bufferDuration].
Proof.
  intros Haudio Htruthy [ctx Hctx] Hdecoded. unfold schedule.
  by rewrite Haudio, Hctx, Htruthy, Hdecoded.
Qed.

(** X25: sources never overlap on the schedule when handlers overlap.  If
    the decoding of several frames is in flight at once, so that arrivals
    (the cursor catching up with the clock) and starts (a decoded buffer
    started at the cursor) interleave in any order, then for clock readings
    and durations that are non-negative numbers start times never decrease,
    and no source starts before the scheduled end of a source started
    before it, the scheduled end being start plus duration as [+=] rounds
    it; and a handler that runs alone is one arrival followed by one
    start. *)
Theorem overlapping_handlers_stay_gapless (decodeAudioData : str → option number)
    (st : LiveState) (phases : list Phase) :
  time (nextStartTime st) = true →
  Forall (λ p, match p with Arrived t => time t = true | Decoded d => time d = true end)
    phases →
  (∀ i j a b,
      i < j →
      (interleaved st phases).2 !! i = Some a →
      (interleaved st phases).2 !! j = Some b →
      leb (startAt a) (startAt b) = true
      ∧ leb (add (startAt a) (duration a)) (startAt b) = true)
  ∧ (∀ now message audio bufferDuration,
        base64Audio message = Some audio →
        truthy audio = true →
        is_Some (outputAudioContext st) →
        decodeAudioData audio = Some bufferDuration →
        schedule decodeAudioData st now message
        = interleaved st [Arrived now; Decoded bufferDuration]).
Proof.
  intros Hcursor Htimes. split.
  - intros i j a b. by apply interleaved_never_overlaps.
  - intros now message audio bufferDuration. apply schedule_two_phases.
Qed.

End OverlapFacts.

(** ** The theorems at concrete inputs *)

Section Examples.

Import Js Num Chat.




Lemma undo_redo_inverse_witness :
  (past Sample.answered ≠ [] ∧ handleRedo (handleUndo Sample.answered) = Sample.answered)
  ∧ (future Sample.undone ≠ [] ∧ handleUndo (handleRedo Sample.undone) = Sample.undone)
  ∧ (past Sample.undone = [] ∧ handleUndo Sample.undone = Sample.undone)
  ∧ (future Sample.answered = [] ∧ handleRedo Sample.answered = Sample.answered).
Proof.
  assert (past Sample.answered ≠ []) as Hp by (vm_compute; discriminate).
  assert (future Sample.undone ≠ []) as Hf by (vm_compute; discriminate).
  destruct (undo_redo_inverse Sample.answered) as (Hru & _ & _ & Hr0).
  destruct (undo_redo_inverse Sample.undone) as (_ & Hur & Hu0 & _).
  split; [exact (conj Hp (Hru Hp))|].
  split; [exact (conj Hf (Hur Hf))|].
  split; [exact (conj eq_refl (Hu0 eq_refl)) | exact (conj eq_refl (Hr0 eq_refl))].
Defined.

Lemma streamed_last_is_accumulated_text_witness :
  sendBlocked Scenario.ready = false
  ∧ foldr app [] (chunk_text <$> Scenario.chunks) = js "Two stacks around the present."
  ∧ last (present (history (sendMessage Scenario.ready Scenario.sentAt
                              (Stream Scenario.openedAt Scenario.chunks None)).1))
    = Some {| role := model;
              parts := [ {| text := foldr app [] (chunk_text <$> Scenario.chunks) |} ];
              timestamp := default Scenario.openedAt (chunk_time <$> last Scenario.chunks);
              status := None |}.
Proof.
  split; [reflexivity|]. split; [reflexivity|].
  destruct (streamed_last_is_accumulated_text Scenario.ready Scenario.sentAt
              Scenario.openedAt Scenario.chunks) as (_ & _ & _ & _ & Hsent).
  exact (Hsent eq_refl).
Defined.

(** C5 at a concrete input.  The panel shows the greeting; a question is
    sent and the stream opens; undo is clicked, which brings the greeting
    back; then the first chunk arrives.  Its update overwrites the greeting,
    a message that was appended at the mount, with the text of the answer:
    the greeting is gone from the list shown and the answer stands in its
    place, without the question. *)
Lemma chunk_after_undo_rewrites_the_greeting :
  present (streamed Scenario.ready Scenario.sentAt Scenario.openedAt []).2
  = [ Sample.greeting;
      {| role := user; parts := [ {| text := js "What is an undo stack?" |} ];
         timestamp := Scenario.sentAt; status := Some sent |};
      {| role := model; parts := [ {| text := [] |} ];
         timestamp := Scenario.openedAt; status := None |} ]
  ∧ present Scenario.undoneWhileStreaming = [Sample.greeting]
  ∧ present (receive ([], Scenario.undoneWhileStreaming) Scenario.firstChunk).2
    = [ {| role := model; parts := [ {| text := js "Two stacks" |} ];
           timestamp := js "2025-03-01T09:00:06.500Z"; status := None |} ]
  ∧ Sample.greeting ∉ present (receive ([], Scenario.undoneWhileStreaming)
                                 Scenario.firstChunk).2.
Proof.
  split; [reflexivity|]. split; [reflexivity|]. split; [reflexivity|].
  intros Hin. apply list_elem_of_singleton in Hin. by vm_compute in Hin.
Qed.

Lemma sendMessage_blocked_is_noop_witness :
  input Sample.idle = [32; 160; 9]%N
  ∧ (blank (input Sample.idle) = true
     ∨ chat Sample.idle = None ∨ isLoading Sample.idle = true)
  ∧ sendMessage Sample.idle (js "2025-03-01T09:01:00.000Z")
      (Stream (js "2025-03-01T09:01:01.000Z") [] None)
    = (Sample.idle, []).
Proof.
  assert (blank (input Sample.idle) = true
          ∨ chat Sample.idle = None ∨ isLoading Sample.idle = true) as Hguard
    by (left; reflexivity).
  split; [reflexivity|]. split; [exact Hguard|].
  exact (proj1 (sendMessage_blocked_is_noop Sample.idle (js "2025-03-01T09:01:00.000Z")
                  (Stream (js "2025-03-01T09:01:01.000Z") [] None) Hguard)).
Defined.

(** C8, as stated, fails: the first render shows the greeting alone and the
    effect that follows writes nothing; and when the client cannot be
    created, a saved list is not restored. *)
Lemma single_message_is_not_saved :
  (present (initEffect Sample.parse (Some Sample.session)
              (js "2025-03-01T09:00:00.000Z") ∅).2
   = [Sample.greeting]
   ∧ present (initEffect Sample.parse (Some Sample.session)
                (js "2025-03-01T09:00:00.000Z") ∅).2
     ≠ present initialHistory
   ∧ persistEffect Sample.stringify [Sample.greeting] ∅ = ∅
   ∧ persistEffect Sample.stringify [Sample.greeting] ∅ !! storageKey = None)
  ∧ (Sample.saved !! storageKey = Some (Sample.stringify (present Sample.answered))
     ∧ Sample.parse (Sample.stringify (present Sample.answered))
       = Some (present Sample.answered)
     ∧ present (initEffect Sample.parse None (js "2025-03-02T08:00:00.000Z") Sample.saved).2
       = [modelMessage initErrorText (js "2025-03-02T08:00:00.000Z")]
     ∧ present (initEffect Sample.parse None (js "2025-03-02T08:00:00.000Z") Sample.saved).2
       ≠ present Sample.answered).
Proof.
  split.
  - split; [reflexivity|]. split; [discriminate|]. split; reflexivity.
  - split; [apply lookup_singleton_eq|]. split; [by vm_compute|]. split; [reflexivity|].
    vm_compute. discriminate.
Qed.

Lemma history_is_persisted_witness :
  (1 < length (present Sample.answered)
   ∧ persistEffect Sample.stringify (present Sample.answered) ∅ !! storageKey
     = Some (Sample.stringify (present Sample.answered)))
  ∧ (length (present Sample.undone) ≤ 1
     ∧ persistEffect Sample.stringify (present Sample.undone) Sample.saved = Sample.saved)
  ∧ (Sample.saved !! storageKey = Some (Sample.stringify (present Sample.answered))
     ∧ Sample.stringify (present Sample.answered) ≠ []
     ∧ Sample.parse (Sample.stringify (present Sample.answered))
       = Some (present Sample.answered)
     ∧ initEffect Sample.parse (Some Sample.session) (js "2025-03-02T08:00:00.000Z")
         Sample.saved
       = (Some Sample.session,
          {| past := []; present := present Sample.answered; future := [] |})).
Proof.
  destruct (history_is_persisted Sample.stringify Sample.parse) as (Hsave & Hskip & Hload).
  assert (1 < length (present Sample.answered)) as Hlong by (vm_compute; lia).
  assert (length (present Sample.undone) ≤ 1) as Hshort by (vm_compute; lia).
  assert (Sample.saved !! storageKey = Some (Sample.stringify (present Sample.answered)))
    as Hget by apply lookup_singleton_eq.
  assert (Sample.stringify (present Sample.answered) ≠ []) as Hne
    by (vm_compute; discriminate).
  assert (Sample.parse (Sample.stringify (present Sample.answered))
          = Some (present Sample.answered)) as Hparse by (vm_compute; reflexivity).
  split; [exact (conj Hlong (proj2 (Hsave _ ∅ Hlong)))|].
  split; [exact (conj Hshort (Hskip _ Sample.saved Hshort))|].
  exact (conj Hget (conj Hne (conj Hparse
           (Hload Sample.session (js "2025-03-02T08:00:00.000Z") _ _ _ Hget Hne Hparse)))).
Defined.

Lemma transcript_is_flushed_on_turn_boundary_witness :
  Live.flag Live.turnComplete
    (Sample.turnEndsWith (js " you?") (js " Bye." ++ Sample.lineSeparator)) = true
  ∧ Live.currentInputTranscription Sample.listening = js "  How are" ++ [12288%N]
  ∧ Live.currentOutputTranscription Sample.listening = js "Fine, thanks." ++ [160%N]
  ∧ Live.transcripts
      (Live.onmessage Sample.pcmDuration Sample.listening Num.zero
         (Sample.turnEndsWith (js " you?") (js " Bye." ++ Sample.lineSeparator))).1
    = [ {| Live.speaker := Live.user; Live.text := js "Hello" |};
        {| Live.speaker := Live.user; Live.text := js "How are" |};
        {| Live.speaker := Live.model;
           Live.text := js "Fine, thanks." ++ [160%N] ++ js " Bye." |} ].
Proof.
  assert (Live.flag Live.turnComplete
            (Sample.turnEndsWith (js " you?") (js " Bye." ++ Sample.lineSeparator)) = true)
    as Hturn by reflexivity.
  split; [exact Hturn|]. split; [reflexivity|]. split; [reflexivity|].
  destruct (transcript_is_flushed_on_turn_boundary Sample.pcmDuration Sample.listening
              Num.zero
              (Sample.turnEndsWith (js " you?") (js " Bye." ++ Sample.lineSeparator)))
    as (_ & _ & Hflush & _).
  exact (proj1 (Hflush Hturn)).
Defined.

(** C7, as stated, fails: the cursor holds the rounded sum of start and
    duration.  A clip of 6 samples started at 0.5 s has its scheduled end
    below its exact end; the next clip, handled at the same clock reading,
    starts at that scheduled end, and so before the first clip is over. *)
Lemma next_start_below_exact_end :
  match (Live.run Sample.pcmDuration Sample.listening Sample.burst).2 with
  | [first; second] =>
      Live.startAt first = Sample.seconds 1 2
      ∧ Live.duration first = Sample.seconds 16 64000
      ∧ Live.startAt second = add (Live.startAt first) (Live.duration first)
      ∧ (exact (Live.startAt second)
         < exact (Live.startAt first) + exact (Live.duration first))%Q
  | _ => False
  end.
Proof. vm_compute. repeat split; reflexivity. Qed.

Lemma playback_frames_are_times :
  Forall (λ f : number * option number,
            time f.1 = true ∧ ∃ d, f.2 = Some d ∧ time d = true)
    (Live.frames Sample.pcmDuration Sample.playback).
Proof. repeat constructor; by eexists. Qed.

Lemma playback_is_gapless_witness :
  is_Some (Live.outputAudioContext Sample.listening)
  ∧ Forall (λ e : number * Live.LiveServerMessage, Live.flag Live.interrupted e.2 = false)
      Sample.playback
  ∧ time (Live.nextStartTime Sample.listening) = true
  ∧ length (Live.run Sample.pcmDuration Sample.listening Sample.playback).2 = 3
  ∧ ∀ a b,
      (Live.run Sample.pcmDuration Sample.listening Sample.playback).2 !! 1 = Some a →
      (Live.run Sample.pcmDuration Sample.listening Sample.playback).2 !! 2 = Some b →
      leb (Live.startAt a) (Live.startAt b) = true
      ∧ leb (add (Live.startAt a) (Live.duration a)) (Live.startAt b) = true.
Proof.
  assert (is_Some (Live.outputAudioContext Sample.listening)) as Hctx
    by (eexists; reflexivity).
  assert (Forall (λ e : number * Live.LiveServerMessage,
                    Live.flag Live.interrupted e.2 = false)
            Sample.playback) as Hquiet by (repeat constructor).
  assert (time (Live.nextStartTime Sample.listening) = true) as Hcursor by reflexivity.
  destruct (playback_is_gapless Sample.pcmDuration Sample.listening Sample.playback
              Hctx Hquiet Hcursor playback_frames_are_times) as (Hlen & _ & Horder).
  split; [exact Hctx|]. split; [exact Hquiet|]. split; [exact Hcursor|].
  split; [exact Hlen|].
  intros a b. apply (Horder 1 2). lia.
Defined.

End Examples.

(** * The further properties at concrete inputs *)

Section FurtherExamples.

Import Js Num Chat View.

Lemma completed_send_is_one_undo_step_witness :
  sendBlocked Scenario.ready = false
  ∧ handleUndo
      (history (sendMessage Scenario.ready Scenario.sentAt
                  (Stream Scenario.openedAt Scenario.chunks None)).1)
    = {| past := []; present := [Sample.greeting];
         future := [[Sample.greeting; Sample.question; Sample.answer]] |}.
Proof.
  split; [reflexivity|].
  exact (proj1 (proj2 (completed_send_is_one_undo_step Scenario.ready Scenario.sentAt
                         Scenario.openedAt Scenario.chunks eq_refl))).
Defined.

Lemma failed_send_keeps_the_attempt_witness :
  sendBlocked Scenario.ready = false
  ∧ present (handleUndo
      (history (sendMessage Scenario.ready Scenario.sentAt
                  (Rejected Scenario.failedAt)).1))
    = [Sample.greeting; Sample.question].
Proof.
  split; [reflexivity|].
  destruct (failed_send_keeps_the_attempt Scenario.ready Scenario.sentAt
              Scenario.failedAt Scenario.openedAt Scenario.chunks eq_refl)
    as (_ & _ & Hundo & _).
  exact Hundo.
Defined.


Lemma answered_is_populated : populated Sample.answered.
Proof. split; [done|]. split; repeat constructor; done. Qed.

Lemma clicks_are_not_empty_lists :
  Forall (λ u, u ≠ SetMessages [] true ∧ u ≠ SetMessages [] false) Scenario.clicks.
Proof. repeat constructor; discriminate. Qed.

Lemma history_stays_populated_witness :
  populated Sample.answered
  ∧ Forall (λ u, u ≠ SetMessages [] true ∧ u ≠ SetMessages [] false) Scenario.clicks
  ∧ populated (foldl (λ h u, apply u h) Sample.answered Scenario.clicks).
Proof.
  split; [exact answered_is_populated|]. split; [exact clicks_are_not_empty_lists|].
  exact (proj1 (history_stays_populated Scenario.clicks Sample.answered
                  answered_is_populated clicks_are_not_empty_lists)).
Defined.

Lemma asked_shows_the_exchange :
  present (history (session Sample.stringify
                      (mount Sample.stringify Sample.parse (Some Sample.session)
                         Scenario.mountedAt ∅) Scenario.asked).1)
  = [Sample.greeting; Sample.question; Sample.answer].
Proof. by vm_compute. Qed.

Lemma storage_follows_the_shown_list_witness :
  1 < length (present (history (session Sample.stringify
                         (mount Sample.stringify Sample.parse (Some Sample.session)
                            Scenario.mountedAt ∅) Scenario.asked).1))
  ∧ (session Sample.stringify
       (mount Sample.stringify Sample.parse (Some Sample.session)
          Scenario.mountedAt ∅) Scenario.asked).2 !! storageKey
    = Some (Sample.stringify
              (present (history (session Sample.stringify
                         (mount Sample.stringify Sample.parse (Some Sample.session)
                            Scenario.mountedAt ∅) Scenario.asked).1))).
Proof.
  assert (1 < length (present (history (session Sample.stringify
                         (mount Sample.stringify Sample.parse (Some Sample.session)
                            Scenario.mountedAt ∅) Scenario.asked).1))) as Hlen
    by (rewrite asked_shows_the_exchange; cbn; lia).
  split; [exact Hlen|].
  destruct (storage_follows_the_shown_list Sample.stringify Sample.parse
              (Some Sample.session) Scenario.mountedAt ∅ Scenario.asked)
    as (_ & Hsaved & _).
  exact (Hsaved Hlen).
Defined.

Lemma typing_indicator_follows_the_send_witness :
  sendBlocked Scenario.ready = false
  ∧ typingIndicator (beginSend Scenario.ready Scenario.sentAt) = Some true.
Proof.
  split; [reflexivity|].
  exact (proj1 (typing_indicator_follows_the_send Scenario.ready Scenario.sentAt
                  Scenario.openedAt Scenario.chunks eq_refl)).
Defined.

Lemma enabled_buttons_act_witness :
  undoDisabled Sample.answered = false
  ∧ handleUndo Sample.answered ≠ Sample.answered
  ∧ chat Scenario.ready ≠ None
  ∧ (sendDisabled Scenario.ready = false ↔ sendBlocked Scenario.ready = false).
Proof.
  destruct (enabled_buttons_act Sample.answered Scenario.ready)
    as (Hundo & _ & _ & _ & Hsend & _).
  assert (undoDisabled Sample.answered = false) as Henabled by reflexivity.
  assert (chat Scenario.ready ≠ None) as Hchat by discriminate.
  split; [exact Henabled|]. split; [exact (proj1 Hundo Henabled)|].
  split; [exact Hchat | exact (Hsend Hchat)].
Defined.

Lemma share_copies_one_line_per_message_witness :
  [Sample.greeting] ≠ []
  ∧ Forall (λ m, parts m ≠ []) [Sample.greeting]
  ∧ parts Sample.question ≠ []
  ∧ handleShare Scenario.hoursAndMinutes ([Sample.greeting] ++ [Sample.question])
    = Copied (js "[09:00] Model: Hello! How can I help you today?" ++ [10%N]
              ++ js "[09:00] User: What is an undo stack?").
Proof.
  assert ([Sample.greeting] ≠ []) as Hne by discriminate.
  assert (Forall (λ m, parts m ≠ []) [Sample.greeting]) as Hparts
    by (repeat constructor; discriminate).
  assert (parts Sample.question ≠ []) as Hpart by discriminate.
  split; [exact Hne|]. split; [exact Hparts|]. split; [exact Hpart|].
  destruct (share_copies_one_line_per_message Scenario.hoursAndMinutes
              [Sample.greeting] Sample.question) as (_ & _ & Hlist & _).
  exact (proj2 (Hlist Hne Hparts) Hpart).
Defined.

Lemma turn_ends_no_turn :
  Forall (λ e : number * Live.LiveServerMessage, Live.flag Live.turnComplete e.2 = false)
    Scenario.turn.
Proof. repeat constructor. Qed.

Lemma turn_is_flushed_whole_witness :
  Forall (λ e : number * Live.LiveServerMessage, Live.flag Live.turnComplete e.2 = false)
    Scenario.turn
  ∧ Live.flag Live.turnComplete Sample.turnEnds = true
  ∧ Live.transcripts
      (Live.run Sample.pcmDuration Sample.listening
         (Scenario.turn ++ [(zero, Sample.turnEnds)])).1
    = [ {| Live.speaker := Live.user; Live.text := js "Hello" |};
        {| Live.speaker := Live.user;
           Live.text := js "How are" ++ Sample.ideographicSpace ++ js " you" |};
        {| Live.speaker := Live.model;
           Live.text := js "Fine, thanks." ++ Sample.nbsp ++ js "and you?" |} ].
Proof.
  split; [exact turn_ends_no_turn|]. split; [reflexivity|].
  destruct (turn_is_flushed_whole Sample.pcmDuration Sample.listening Scenario.turn
              zero Sample.turnEnds turn_ends_no_turn eq_refl) as (Hflushed & _).
  exact Hflushed.
Defined.

Lemma blank_turn_adds_no_entry_witness :
  blank (Live.currentInputTranscription Scenario.silence
         ++ joined (Recorder.heard
                      <$> ([(zero, Sample.heard Sample.ideographicSpace)].*2
                           ++ [Sample.turnEnds]))) = true
  ∧ Live.transcripts
      (Live.run Sample.pcmDuration Scenario.silence
         ([(zero, Sample.heard Sample.ideographicSpace)] ++ [(zero, Sample.turnEnds)])).1
    = [ {| Live.speaker := Live.user; Live.text := js "Hello" |} ].
Proof.
  split; [reflexivity|].
  apply (blank_turn_adds_no_entry Sample.pcmDuration Scenario.silence
           [(zero, Sample.heard Sample.ideographicSpace)] zero Sample.turnEnds);
    [repeat constructor | reflexivity | reflexivity | reflexivity].
Defined.



Lemma recording_flag_matches_playback_witness :
  Recorder.isRecording (Recorder.session Sample.pcmDuration Scenario.liveVisit).1 = false
  ∧ Live.playingSources
      (Recorder.live (Recorder.session Sample.pcmDuration Scenario.liveVisit).1) = []
  ∧ Live.nextStartTime
      (Recorder.live (Recorder.session Sample.pcmDuration Scenario.liveVisit).1) = zero.
Proof.
  assert (Recorder.isRecording
            (Recorder.session Sample.pcmDuration Scenario.liveVisit).1 = false) as Hoff
    by (vm_compute; reflexivity).
  split; [exact Hoff|].
  destruct (recording_flag_matches_playback Sample.pcmDuration Scenario.liveVisit)
    as [_ Hrec].
  destruct (Hrec Hoff) as (_ & _ & Hplaying & Hcursor).
  exact (conj Hplaying Hcursor).
Defined.

Lemma session_callbacks_never_stop_witness :
  (Recorder.session Sample.pcmDuration [Recorder.Clicked true]).2
  = Some {| Recorder.closedOver := false |}
  ∧ Recorder.closedOver {| Recorder.closedOver := false |} = false.
Proof.
  split; [reflexivity|].
  exact (proj1 (session_callbacks_never_stop Sample.pcmDuration [Recorder.Clicked true])
           _ eq_refl).
Defined.

Lemma failed_start_ends_idle_witness :
  Recorder.isRecording Recorder.initial = false
  ∧ Recorder.status (Recorder.startRecording Recorder.initial false).1 = js "Idle".
Proof.
  split; [reflexivity|].
  exact (f_equal Recorder.status
           (proj1 (failed_start_ends_idle Recorder.initial eq_refl))).
Defined.

Lemma generateAndPlay_outcomes_witness :
  blank (Speech.text Scenario.speech) = false
  ∧ Speech.isPlaying Scenario.speech = false
  ∧ (Speech.generateAndPlay Scenario.speech
       (Speech.Responded (Some (js "AAAA")) true true)).1.2
    = [ {| Speech.contents := js "Have a wonderful day!"; Speech.voiceName := js "Kore" |} ]
  ∧ (Speech.generateAndPlay Scenario.speech
       (Speech.Responded (Some (js "AAAA")) true true)).2
    = [js "AAAA"].
Proof.
  split; [reflexivity|]. split; [reflexivity|].
  destruct (generateAndPlay_outcomes Scenario.speech
              (Speech.Responded (Some (js "AAAA")) true true))
    as [_ Hrun].
  destruct (Hrun eq_refl eq_refl) as (Hrequest & Hstarted & _).
  exact (conj Hrequest Hstarted).
Defined.

Lemma plain_line_is_one_paragraph_witness :
  blank (js " Hello" ++ Sample.nbsp ++ js "there") = false
  ∧ Markdown.render (js " Hello" ++ Sample.nbsp ++ js "there")
    = [Markdown.Paragraph [Markdown.Plain (js " Hello" ++ Sample.nbsp ++ js "there")]].
Proof.
  split; [reflexivity|].
  exact (plain_line_is_one_paragraph (js " Hello" ++ Sample.nbsp ++ js "there")
           eq_refl eq_refl).
Defined.

Lemma inline_markup_renders_its_body_witness :
  forallb (λ c, negb (Markdown.isStar c || Markdown.isBacktick c)) (js "See ") = true
  ∧ js "this" ≠ []
  ∧ Markdown.renderInline (js "See *this*!")
    = [Markdown.Plain (js "See "); Markdown.Em (js "this"); Markdown.Plain (js "!")].
Proof.
  split; [reflexivity|]. split; [discriminate|].
  destruct (inline_markup_renders_its_body (js "See ") (js "this") (js "!") eq_refl)
    as (_ & Hem & _).
  exact (Hem ltac:(discriminate) eq_refl).
Defined.

Lemma fenced_code_is_one_block_witness :
  forallb (λ c, negb (Markdown.isBacktick c)) (js "Code:") = true
  ∧ forallb (λ c, negb (Markdown.isBacktick c)) Scenario.fencedBody = true
  ∧ Markdown.render
      (js "Code:" ++ Markdown.fence ++ Scenario.fencedBody ++ Markdown.fence ++ [])
    = [ Markdown.Paragraph [Markdown.Plain (js "Code:")];
        Markdown.CodeBlock (js "py" ++ [10%N] ++ js "x = 1") ].
Proof.
  split; [reflexivity|]. split; [reflexivity|].
  exact (fenced_code_is_one_block (js "Code:") Scenario.fencedBody [] eq_refl eq_refl).
Defined.

Lemma blank_message_renders_nothing_witness :
  blank (js "  " ++ [10; 10]%N ++ Sample.nbsp ++ Sample.lineSeparator) = true
  ∧ Markdown.render (js "  " ++ [10; 10]%N ++ Sample.nbsp ++ Sample.lineSeparator) = [].
Proof.
  split; [reflexivity|].
  exact (blank_message_renders_nothing
           (js "  " ++ [10; 10]%N ++ Sample.nbsp ++ Sample.lineSeparator) eq_refl).
Defined.

Lemma bullet_lines_render_as_list_witness :
  Markdown.renderSubBlock (js "- milk" ++ [10%N] ++ js "- two eggs")
  = [ Markdown.BulletList
        [ [Markdown.Plain (js "milk")]; [Markdown.Plain (js "two eggs")] ] ].
Proof.
  apply (bullet_lines_render_as_list 45%N [js "milk"; js "two eggs"]);
    [reflexivity | discriminate |].
  repeat constructor; discriminate.
Defined.

Lemma chunk_after_undo_overwrites_restored_message_witness :
  present (history Scenario.ready) = [] ++ [Sample.greeting]
  ∧ present (streamUpdate (js "Two stacks") (js "2025-03-01T09:00:06.500Z")
               (handleUndo (streamed Scenario.ready Scenario.sentAt Scenario.openedAt
                              [] ).2))
    = [modelMessage (js "Two stacks") (js "2025-03-01T09:00:06.500Z")].
Proof.
  split; [reflexivity|].
  exact (proj1 (chunk_after_undo_overwrites_restored_message Scenario.ready
                  Scenario.sentAt Scenario.openedAt [] (js "Two stacks")
                  (js "2025-03-01T09:00:06.500Z") [] Sample.greeting eq_refl)).
Defined.

Lemma overlapping_phases_are_times :
  Forall (λ p, match p with
               | Live.Arrived t => time t = true
               | Live.Decoded d => time d = true
               end) Scenario.overlapping.
Proof. repeat constructor. Qed.

Lemma overlapping_handlers_stay_gapless_witness :
  time (Live.nextStartTime Sample.listening) = true
  ∧ Forall (λ p, match p with
                 | Live.Arrived t => time t = true
                 | Live.Decoded d => time d = true
                 end) Scenario.overlapping
  ∧ (Live.interleaved Sample.listening Scenario.overlapping).2
    = [ {| Live.node := 0; Live.startAt := Sample.seconds 3 5;
           Live.duration := Sample.seconds 8 64000 |};
        {| Live.node := 1;
           Live.startAt := add (Sample.seconds 3 5) (Sample.seconds 8 64000);
           Live.duration := Sample.seconds 16 64000 |} ]
  ∧ leb (add (Sample.seconds 3 5) (Sample.seconds 8 64000))
        (add (Sample.seconds 3 5) (Sample.seconds 8 64000)) = true.
Proof.
  assert (time (Live.nextStartTime Sample.listening) = true) as Hcursor by reflexivity.
  assert ((Live.interleaved Sample.listening Scenario.overlapping).2
          = [ {| Live.node := 0; Live.startAt := Sample.seconds 3 5;
                 Live.duration := Sample.seconds 8 64000 |};
              {| Live.node := 1;
                 Live.startAt := add (Sample.seconds 3 5) (Sample.seconds 8 64000);
                 Live.duration := Sample.seconds 16 64000 |} ]) as Hstarted
    by (vm_compute; reflexivity).
  split; [exact Hcursor|]. split; [exact overlapping_phases_are_times|].
  split; [exact Hstarted|].
  destruct (overlapping_handlers_stay_gapless Sample.pcmDuration Sample.listening
              Scenario.overlapping Hcursor overlapping_phases_are_times) as [Hgap _].
  exact (proj2 (Hgap 0 1
                  {| Live.node := 0; Live.startAt := Sample.seconds 3 5;
                     Live.duration := Sample.seconds 8 64000 |}
                  {| Live.node := 1;
                     Live.startAt := add (Sample.seconds 3 5) (Sample.seconds 8 64000);
                     Live.duration := Sample.seconds 16 64000 |}
                  Nat.lt_0_1
                  (f_equal (λ started, started !! 0) Hstarted)
                  (f_equal (λ started, started !! 1) Hstarted))).
Defined.

Lemma reload_restores_the_shown_list_witness :
  1 < length (present (history (session Sample.stringify
                         (mount Sample.stringify Sample.parse (Some Sample.session)
                            Scenario.mountedAt ∅) Scenario.asked).1))
  ∧ Sample.stringify
      (present (history (session Sample.stringify
                  (mount Sample.stringify Sample.parse (Some Sample.session)
                     Scenario.mountedAt ∅) Scenario.asked).1)) ≠ []
  ∧ Sample.parse
      (Sample.stringify
         (present (history (session Sample.stringify
                     (mount Sample.stringify Sample.parse (Some Sample.session)
                        Scenario.mountedAt ∅) Scenario.asked).1)))
    = Some (present (history (session Sample.stringify
                     (mount Sample.stringify Sample.parse (Some Sample.session)
                        Scenario.mountedAt ∅) Scenario.asked).1))
  ∧ initEffect Sample.parse (Some Sample.session) Scenario.reloadedAt
      (session Sample.stringify
         (mount Sample.stringify Sample.parse (Some Sample.session)
            Scenario.mountedAt ∅) Scenario.asked).2
    = (Some Sample.session,
       {| past := [];
          present := present (history (session Sample.stringify
                        (mount Sample.stringify Sample.parse (Some Sample.session)
                           Scenario.mountedAt ∅) Scenario.asked).1);
          future := [] |}).
Proof.
  assert (1 < length (present (history (session Sample.stringify
                         (mount Sample.stringify Sample.parse (Some Sample.session)
                            Scenario.mountedAt ∅) Scenario.asked).1))) as Hlen
    by (rewrite asked_shows_the_exchange; cbn; lia).
  assert (Sample.stringify
            (present (history (session Sample.stringify
                        (mount Sample.stringify Sample.parse (Some Sample.session)
                           Scenario.mountedAt ∅) Scenario.asked).1)) ≠ []) as Hne
    by (rewrite asked_shows_the_exchange; vm_compute; discriminate).
  assert (Sample.parse
            (Sample.stringify
               (present (history (session Sample.stringify
                           (mount Sample.stringify Sample.parse (Some Sample.session)
                              Scenario.mountedAt ∅) Scenario.asked).1)))
          = Some (present (history (session Sample.stringify
                           (mount Sample.stringify Sample.parse (Some Sample.session)
                              Scenario.mountedAt ∅) Scenario.asked).1))) as Hparse
    by (rewrite asked_shows_the_exchange; vm_compute; reflexivity).
  split; [exact Hlen|]. split; [exact Hne|]. split; [exact Hparse|].
  exact (proj1 (reload_restores_the_shown_list Sample.stringify Sample.parse
                  (Some Sample.session) Scenario.mountedAt ∅ Scenario.asked
                  Sample.session Scenario.reloadedAt) Hlen Hne Hparse).
Defined.

End FurtherExamples.
